(** * Plyer library catalog: scanner, reconciler, playlist queries, mutations

    A shallow embedding of [src/main/library.ts] and of the schema created by
    [openDatabase].  The SQLite tables are lists of rows in rowid order, the
    prepared statements are functions on those lists, and the methods of
    [LibraryManager] are functions on a record holding the manager's fields. *)

From Stdlib Require Import ZArith QArith Qround String Ascii List Lia.
From stdpp Require Import gmap strings list sorting.

Set Warnings "-clear-no-such-hyp,-register-all".

Local Open Scope string_scope.
Local Open Scope Z_scope.

(** ** JavaScript values *)

(** A finite JavaScript number.  Every finite double is a rational; NaN and
    the infinities are outside the model. *)
Abbreviation number := Q.

(** [Math.trunc]: round toward zero. *)
Definition Math_trunc (x : number) : Z := Z.quot (Qnum x) (Z.pos (Qden x)).

(** [x > 0] on numbers. *)
Definition gt0 (x : number) : bool := negb (Qle_bool x 0).

(** Truthiness of an integral number: only zero is falsy. *)
Definition truthy (n : Z) : bool := negb (n =? 0).

(** ** The schema of [openDatabase] *)

(** [files].  [meta] is always NULL and is left out. *)
Record FileRow := {
  f_id : Z;
  f_path : string;
  f_name : string;
  f_ext : string;
  f_duration_ms : number;
  f_size : number;
  f_mtime : number;
  f_created_ms : number;
  f_rating : number;
  f_added_on : Z;
  f_last_played : option Z;
  f_play_count : Z;
  f_is_missing : bool
}.

(** [file_playlists]; UNIQUE(file_id, playlist_id).  The columns [id] and
    [added_on] are never read back and are left out.  [order_index] is
    nullable in the schema. *)
Record FilePlaylistRow := {
  fp_file_id : Z;
  fp_playlist_id : Z;
  fp_order_index : option Z
}.

(** [tags]; UNIQUE(name).  [added_on] is left out. *)
Record TagRow := {
  t_id : Z;
  t_name : string
}.

(** [file_tags]; UNIQUE(file_id, tag_id).  [added_on] is left out. *)
Record FileTagRow := {
  ft_id : Z;
  ft_file_id : Z;
  ft_tag_id : Z
}.

(** The database: each table in rowid order, and for the AUTOINCREMENT keys
    that the code reads back the largest rowid ever handed out
    ([sqlite_sequence]). *)
Record DB := {
  files : list FileRow;
  files_seq : Z;
  file_playlists : list FilePlaylistRow;
  tags : list TagRow;
  tags_seq : Z;
  file_tags : list FileTagRow;
  file_tags_seq : Z
}.

(** The fields of [LibraryManager]. *)
Record LibraryManager := {
  root : option string;
  db : option DB;
  libraryPlaylistId : Z
}.

(** [!this.root]: null or the empty string. *)
Definition no_root (m : LibraryManager) : bool :=
  match root m with
  | None => true
  | Some r => bool_decide (r = "")
  end.

(** ** Requests and responses *)

Inductive SortMode := SortPlaylist | SortFilename | SortCreated | SortRandom.

(** [PlaylistRequest]: the options plus the optional page window and seed.
    [tags] is an array in the type, so that [options.tags ?? []] is the
    array itself. *)
Record PlaylistRequest := {
  sort : SortMode;
  ratingMin : number;
  req_tags : list string;
  limit : option number;
  offset : option number;
  seed : option number
}.

(** The fields of [FileItem] that come from the catalog.  [absolutePath],
    [fileUrl] and the thumbnail fields are derived from the root and the
    disk and are not part of the model. *)
Record FileItem := {
  i_id : Z;
  i_path : string;
  i_name : string;
  i_ext : string;
  i_durationMs : number;
  i_rating : number;
  i_size : number;
  i_mtime : number;
  i_createdMs : number;
  i_orderIndex : Z;
  i_tags : list string
}.

Record PlaylistResponse := {
  items : list FileItem;
  total : Z
}.

(** ** The playlist query *)

(** The ORDER BY clause with its bound parameter. *)
Inductive OrderBy :=
| ByOrderIndex            (* COALESCE(fp.order_index, 0) ASC, f.id ASC *)
| ByName                  (* f.name COLLATE NOCASE ASC, f.id ASC *)
| ByCreated               (* f.created_ms DESC, f.id DESC *)
| ByRandom (seed : Z).    (* ((f.id * ?) % 2147483647) ASC *)

(** [Math.abs(Math.trunc(options.seed ?? 1)) || 1] *)
Definition effective_seed (s : option number) : Z :=
  let n := Z.abs (Math_trunc (default 1%Q s)) in
  if truthy n then n else 1.

(** The [default] branch of the switch is the branch of ["playlist"]. *)
Definition buildOrderBy (options : PlaylistRequest) : OrderBy :=
  match sort options with
  | SortFilename => ByName
  | SortCreated => ByCreated
  | SortRandom => ByRandom (effective_seed (seed options))
  | SortPlaylist => ByOrderIndex
  end.

(** What [buildPlaylistQueryParts] returns: the optional rating bound, the
    HAVING parameters (the requested names and their number) and the order. *)
Record QueryParts := {
  ratingParams : option number;
  tagParams : option (list string * nat);
  orderBy : OrderBy
}.

Definition buildPlaylistQueryParts (options : PlaylistRequest) : QueryParts :=
  {| ratingParams :=
       if gt0 (ratingMin options) then Some (ratingMin options) else None;
     tagParams :=
       if bool_decide (0 < length (req_tags options))%nat
       then Some (req_tags options, length (req_tags options))
       else None;
     orderBy := buildOrderBy options |}.

(** One group of [baseSql]: a file row, the order index of its membership in
    the given playlist (NULL when there is none) and the names of the tags
    joined to it (NULL for a dangling tag id). *)
Record GroupRow := {
  g_file : FileRow;
  g_order_index : option Z;
  g_names : list (option string)
}.

(** LEFT JOIN file_playlists fp ON fp.file_id = f.id AND fp.playlist_id = ?
    (at most one row by the UNIQUE constraint). *)
Definition membership (d : DB) (playlistId fileId : Z) : option FilePlaylistRow :=
  List.find (fun r => bool_decide (fp_file_id r = fileId ∧ fp_playlist_id r = playlistId))
            (file_playlists d).

Definition tag_name (d : DB) (tagId : Z) : option string :=
  t_name <$> List.find (fun t => bool_decide (t_id t = tagId)) (tags d).

(** LEFT JOIN file_tags ft ON ft.file_id = f.id LEFT JOIN tags t ON t.id = ft.tag_id *)
Definition joined_names (d : DB) (fileId : Z) : list (option string) :=
  tag_name d ∘ ft_tag_id <$> filter (fun r => ft_file_id r = fileId) (file_tags d).

Definition group_of (d : DB) (playlistId : Z) (f : FileRow) : GroupRow :=
  {| g_file := f;
     g_order_index := membership d playlistId (f_id f) ≫= fp_order_index;
     g_names := joined_names d (f_id f) |}.

(** WHERE f.is_missing = 0 [AND f.rating >= ?] *)
Definition where_clause (q : QueryParts) (f : FileRow) : bool :=
  negb (f_is_missing f) &&
  match ratingParams q with
  | Some r => Qle_bool r (f_rating f)
  | None => true
  end.

(** COUNT(DISTINCT CASE WHEN t.name IN (...) THEN t.name END) *)
Definition count_distinct_in (requested : list string) (names : list (option string)) : nat :=
  length (remove_dups (filter (fun n => n ∈ requested) (omap (fun n => n) names))).

(** HAVING COUNT(DISTINCT ...) = ? *)
Definition having_clause (q : QueryParts) (g : GroupRow) : bool :=
  match tagParams q with
  | Some (requested, n) => bool_decide (count_distinct_in requested (g_names g) = n)
  | None => true
  end.

(** The groups selected by [baseSql], in rowid order. *)
Definition baseSql (d : DB) (playlistId : Z) (q : QueryParts) : list GroupRow :=
  filter (having_clause q)
    (group_of d playlistId <$> filter (where_clause q) (files d)).

(** SQLite's NOCASE collation: the 26 upper-case ASCII letters are folded to
    lower case before the bytes are compared. *)
Definition fold_case (c : ascii) : ascii :=
  let n := nat_of_ascii c in
  if ((65 <=? n) && (n <=? 90))%nat then ascii_of_nat (n + 32) else c.

Fixpoint nocase (s : string) : string :=
  match s with
  | EmptyString => EmptyString
  | String c s' => String (fold_case c) (nocase s')
  end.

(** The double nearest to an integer, ties to even: an integer below 2^53 in
    magnitude is a double, a larger one keeps its 53 leading bits.  (An
    integer past the largest double rounds to an infinity; the cast below
    saturates an infinity like every value from 2^63 on, so such an integer
    may stand for it.) *)
Definition round_to_double (x : Z) : Z :=
  let a := Z.abs x in
  if a <? 9007199254740992 then x
  else
    let s := Z.log2 a - 52 in
    let q := a / 2 ^ s in
    let r := a mod 2 ^ s in
    let half := 2 ^ (s - 1) in
    let q' := if r <? half then q
              else if half <? r then q + 1
              else if Z.even q then q else q + 1 in
    Z.sgn x * (q' * 2 ^ s).

(** The cast of a REAL to INTEGER that [%] applies to its operands:
    truncation, saturating at both ends of the 64-bit range. *)
Definition to_int64 (r : Z) : Z :=
  if r <=? -9223372036854775808 then -9223372036854775808
  else if 9223372036854775808 <=? r then 9223372036854775807
  else r.

(** [(id * ?) % 2147483647] as SQLite computes it.  The seed is a JavaScript
    number and is bound as a REAL, so that [id * ?] is a product of doubles
    (the integer [id] converted first), rounded to the nearest double; [%]
    casts it to INTEGER and takes the remainder, with the sign of the
    dividend.  [seed] is the integral double that [effective_seed] gives. *)
Definition sql_random_key (id seed : Z) : Z :=
  Z.rem (to_int64 (round_to_double (round_to_double id * seed))) 2147483647.

(** The sort key of the random order. *)
Definition random_key (seed : Z) (f : FileRow) : Z :=
  sql_random_key (f_id f) seed.

(** [order_le o a b]: the ORDER BY terms of [o] do not place [b] strictly
    before [a]. *)
Definition order_le (o : OrderBy) (a b : GroupRow) : bool :=
  let fa := g_file a in
  let fb := g_file b in
  match o with
  | ByOrderIndex =>
      let ka := default 0 (g_order_index a) in
      let kb := default 0 (g_order_index b) in
      (ka <? kb) || ((ka =? kb) && (f_id fa <=? f_id fb))
  | ByName =>
      match String.compare (nocase (f_name fa)) (nocase (f_name fb)) with
      | Lt => true
      | Eq => f_id fa <=? f_id fb
      | Gt => false
      end
  | ByCreated =>
      match Qcompare (f_created_ms fb) (f_created_ms fa) with
      | Lt => true
      | Eq => f_id fb <=? f_id fa
      | Gt => false
      end
  | ByRandom s => random_key s fa <=? random_key s fb
  end.

(** ORDER BY as a stable insertion sort of the groups taken in rowid order:
    rows that the ORDER BY terms do not separate keep their rowid order.
    (Only the random order can leave two rows unseparated; the other three
    end on [f.id].) *)
Fixpoint insert_row (o : OrderBy) (x : GroupRow) (l : list GroupRow) : list GroupRow :=
  match l with
  | [] => [x]
  | y :: l' => if order_le o x y then x :: l else y :: insert_row o x l'
  end.

Definition order_rows (o : OrderBy) (l : list GroupRow) : list GroupRow :=
  foldr (insert_row o) [] l.

(** [LIMIT ? OFFSET ?], present only when [limit] is truthy. *)
Definition limit_offset {A} (limit : option Z) (offset : Z) (rows : list A) : list A :=
  match limit with
  | Some n => if truthy n then take (Z.to_nat n) (drop (Z.to_nat offset) rows) else rows
  | None => rows
  end.

(** [options.limit && options.limit > 0 ? Math.trunc(options.limit) : null] *)
Definition page_limit (options : PlaylistRequest) : option Z :=
  match limit options with
  | Some l => if gt0 l then Some (Math_trunc l) else None
  | None => None
  end.

(** [options.offset && options.offset > 0 ? Math.trunc(options.offset) : 0] *)
Definition page_offset (options : PlaylistRequest) : Z :=
  match offset options with
  | Some k => if gt0 k then Math_trunc k else 0
  | None => 0
  end.

(** GROUP_CONCAT(t.name, '||'): NULL names are skipped, and the result is
    NULL when no name is left. *)
Definition group_concat (names : list (option string)) : option string :=
  match omap (fun n => n) names with
  | [] => None
  | ns => Some (String.concat "||" ns)
  end.

(** [s.split("||")], scanning left to right; [acc] holds the current piece
    in reverse. *)
Fixpoint split_bars (acc : list ascii) (s : string) : list string :=
  match s with
  | EmptyString => [string_of_list_ascii (rev acc)]
  | String "|" (String "|" rest) => string_of_list_ascii (rev acc) :: split_bars [] rest
  | String c rest => split_bars (c :: acc) rest
  end.

(** [row.tags ? row.tags.split("||").filter(Boolean) : []] *)
Definition row_tags (concat : option string) : list string :=
  match concat with
  | Some s => if bool_decide (s = "") then []
              else filter (fun p => p ≠ "") (split_bars [] s)
  | None => []
  end.

(** The SELECT list and the mapping of a result row to a [FileItem]. *)
Definition to_item (g : GroupRow) : FileItem :=
  let f := g_file g in
  {| i_id := f_id f;
     i_path := f_path f;
     i_name := f_name f;
     i_ext := f_ext f;
     i_durationMs := f_duration_ms f;
     i_rating := f_rating f;
     i_size := f_size f;
     i_mtime := f_mtime f;
     i_createdMs := f_created_ms f;
     i_orderIndex := default 0 (g_order_index g);
     i_tags := row_tags (group_concat (g_names g)) |}.

Definition getPlaylist (m : LibraryManager) (options : PlaylistRequest) : PlaylistResponse :=
  match db m with
  | Some d =>
      if no_root m then {| items := []; total := 0 |}
      else
        let playlistId := libraryPlaylistId m in
        let q := buildPlaylistQueryParts options in
        let total := Z.of_nat (length (baseSql d playlistId q)) in
        let limit := page_limit options in
        let offset := page_offset options in
        let rows := limit_offset limit offset (order_rows (orderBy q) (baseSql d playlistId q)) in
        {| items := to_item <$> rows; total := total |}
  | None => {| items := []; total := 0 |}
  end.

(** A request with its page window replaced. *)
Definition with_page (options : PlaylistRequest) (lim off : option number) : PlaylistRequest :=
  {| sort := sort options; ratingMin := ratingMin options; req_tags := req_tags options;
     limit := lim; offset := off; seed := seed options |}.

(** ** Statements and exceptions *)

(** What a call can throw: a failing [fs] call, or an [SqliteError] for a
    violated constraint. *)
Inductive Exception :=
| FsError
| UniqueConstraintFailed
| ForeignKeyConstraintFailed.

Inductive Completion (A : Type) :=
| Normal (a : A)
| Thrown (e : Exception).
Arguments Normal {A} a.
Arguments Thrown {A} e.

Definition with_db (m : LibraryManager) (d : DB) : LibraryManager :=
  {| root := root m; db := Some d; libraryPlaylistId := libraryPlaylistId m |}.

Definition set_files (d : DB) (fs : list FileRow) : DB :=
  {| files := fs; files_seq := files_seq d;
     file_playlists := file_playlists d;
     tags := tags d; tags_seq := tags_seq d;
     file_tags := file_tags d; file_tags_seq := file_tags_seq d |}.

Definition set_file_playlists (d : DB) (fps : list FilePlaylistRow) : DB :=
  {| files := files d; files_seq := files_seq d;
     file_playlists := fps;
     tags := tags d; tags_seq := tags_seq d;
     file_tags := file_tags d; file_tags_seq := file_tags_seq d |}.

(** UPDATE files SET ... WHERE id = ? *)
Definition update_files_where_id (fileId : Z) (upd : FileRow → FileRow) (d : DB) : DB :=
  set_files d ((fun f => if bool_decide (f_id f = fileId) then upd f else f) <$> files d).

(** ** The mutation API *)

Definition with_rating (r : number) (f : FileRow) : FileRow :=
  {| f_id := f_id f; f_path := f_path f; f_name := f_name f; f_ext := f_ext f;
     f_duration_ms := f_duration_ms f; f_size := f_size f; f_mtime := f_mtime f;
     f_created_ms := f_created_ms f; f_rating := r; f_added_on := f_added_on f;
     f_last_played := f_last_played f; f_play_count := f_play_count f;
     f_is_missing := f_is_missing f |}.

Definition with_duration (ms : number) (f : FileRow) : FileRow :=
  {| f_id := f_id f; f_path := f_path f; f_name := f_name f; f_ext := f_ext f;
     f_duration_ms := ms; f_size := f_size f; f_mtime := f_mtime f;
     f_created_ms := f_created_ms f; f_rating := f_rating f; f_added_on := f_added_on f;
     f_last_played := f_last_played f; f_play_count := f_play_count f;
     f_is_missing := f_is_missing f |}.

Definition with_play (now : Z) (f : FileRow) : FileRow :=
  {| f_id := f_id f; f_path := f_path f; f_name := f_name f; f_ext := f_ext f;
     f_duration_ms := f_duration_ms f; f_size := f_size f; f_mtime := f_mtime f;
     f_created_ms := f_created_ms f; f_rating := f_rating f; f_added_on := f_added_on f;
     f_last_played := Some now; f_play_count := f_play_count f + 1;
     f_is_missing := f_is_missing f |}.

(** UPDATE files SET rating = ? WHERE id = ? *)
Definition setRating (m : LibraryManager) (fileId : Z) (rating : number) : LibraryManager :=
  match db m with
  | None => m
  | Some d => with_db m (update_files_where_id fileId (with_rating rating) d)
  end.

(** UPDATE files SET duration_ms = ? WHERE id = ? *)
Definition setDuration (m : LibraryManager) (fileId : Z) (durationMs : number) : LibraryManager :=
  match db m with
  | None => m
  | Some d => with_db m (update_files_where_id fileId (with_duration durationMs) d)
  end.

(** UPDATE files SET last_played = ?, play_count = play_count + 1 WHERE id = ?
    with [now] the value of [Date.now()]. *)
Definition setLastPlayed (m : LibraryManager) (now : Z) (fileId : Z) : LibraryManager :=
  match db m with
  | None => m
  | Some d => with_db m (update_files_where_id fileId (with_play now) d)
  end.

(** SELECT id FROM tags WHERE name = ? *)
Definition select_tag_id (d : DB) (tagName : string) : option Z :=
  t_id <$> List.find (fun t => bool_decide (t_name t = tagName)) (tags d).

(** INSERT INTO tags (name) VALUES (?), returning [lastInsertRowid]. *)
Definition insert_tag (tagName : string) (d : DB) : Completion (Z * DB) :=
  if bool_decide (tagName ∈ t_name <$> tags d) then Thrown UniqueConstraintFailed
  else
    let tagId := tags_seq d + 1 in
    Normal (tagId,
            {| files := files d; files_seq := files_seq d;
               file_playlists := file_playlists d;
               tags := tags d ++ [{| t_id := tagId; t_name := tagName |}];
               tags_seq := tagId;
               file_tags := file_tags d; file_tags_seq := file_tags_seq d |}).

(** SELECT id FROM file_tags WHERE file_id = ? AND tag_id = ? *)
Definition select_file_tag (d : DB) (fileId tagId : Z) : option Z :=
  ft_id <$> List.find (fun r => bool_decide (ft_file_id r = fileId ∧ ft_tag_id r = tagId))
                      (file_tags d).

(** DELETE FROM file_tags WHERE id = ? *)
Definition delete_file_tag (rowId : Z) (d : DB) : DB :=
  {| files := files d; files_seq := files_seq d;
     file_playlists := file_playlists d;
     tags := tags d; tags_seq := tags_seq d;
     file_tags := filter (fun r => ft_id r ≠ rowId) (file_tags d);
     file_tags_seq := file_tags_seq d |}.

(** INSERT OR IGNORE INTO file_tags (file_id, tag_id) VALUES (?, ?).
    OR IGNORE skips a row that collides on UNIQUE(file_id, tag_id); it does
    not cover the foreign keys, which [foreign_keys = ON] enforces. *)
Definition insert_or_ignore_file_tag (fileId tagId : Z) (d : DB) : Completion DB :=
  if bool_decide ((fileId, tagId) ∈ (fun r => (ft_file_id r, ft_tag_id r)) <$> file_tags d)
  then Normal d
  else if bool_decide (fileId ∈ f_id <$> files d ∧ tagId ∈ t_id <$> tags d)
  then
    let rowId := file_tags_seq d + 1 in
    Normal {| files := files d; files_seq := files_seq d;
              file_playlists := file_playlists d;
              tags := tags d; tags_seq := tags_seq d;
              file_tags := file_tags d ++
                [{| ft_id := rowId; ft_file_id := fileId; ft_tag_id := tagId |}];
              file_tags_seq := rowId |}
  else Thrown ForeignKeyConstraintFailed.

(** [toggleTag].  The statements run outside any transaction: what was
    written before an exception stays written. *)
Definition toggleTag (m : LibraryManager) (fileId : Z) (tagName : string)
  : Completion unit * LibraryManager :=
  match db m with
  | None => (Normal (), m)
  | Some d =>
      let tagRow := select_tag_id d tagName in
      let created :=
        match tagRow with
        | Some tagId => if truthy tagId then Normal (tagId, d) else insert_tag tagName d
        | None => insert_tag tagName d
        end in
      match created with
      | Thrown e => (Thrown e, m)
      | Normal (tagId, d1) =>
          match select_file_tag d1 fileId tagId with
          | Some rowId => (Normal (), with_db m (delete_file_tag rowId d1))
          | None =>
              match insert_or_ignore_file_tag fileId tagId d1 with
              | Normal d2 => (Normal (), with_db m d2)
              | Thrown e => (Thrown e, with_db m d1)
              end
          end
      end
  end.

(** UPDATE file_playlists SET order_index = ? WHERE file_id = ? AND playlist_id = ? *)
Definition update_order_index (index fileId playlistId : Z) (d : DB) : DB :=
  set_file_playlists d
    ((fun r => if bool_decide (fp_file_id r = fileId ∧ fp_playlist_id r = playlistId)
               then {| fp_file_id := fp_file_id r; fp_playlist_id := fp_playlist_id r;
                       fp_order_index := Some index |}
               else r) <$> file_playlists d).

(** [ids.forEach((id, index) => update.run(index, id, playlistId))], from
    position [index] on. *)
Fixpoint save_order_from (playlistId : Z) (index : Z) (ids : list Z) (d : DB) : DB :=
  match ids with
  | [] => d
  | fileId :: rest =>
      save_order_from playlistId (index + 1) rest (update_order_index index fileId playlistId d)
  end.

Definition saveOrder (m : LibraryManager) (fileIds : list Z) : LibraryManager :=
  match db m with
  | None => m
  | Some d => with_db m (save_order_from (libraryPlaylistId m) 0 fileIds d)
  end.

(** ** The filesystem scanner *)

(** [fs.Stats]: the three fields the scanner reads. *)
Record Stats := {
  st_size : number;
  st_mtimeMs : number;
  st_birthtimeMs : number
}.

(** A directory entry as [readdirSync(..., { withFileTypes: true })] reports
    it, with what the later [fs] calls on it return: a directory with its
    listing (or none, when [readdirSync] on it throws), a regular file with
    its stats (or none, when [statSync] on it throws), or anything else
    (symbolic link, socket, ...). *)
Inductive DirEntry :=
| EntryDir (entry_name : string) (listing : option (list DirEntry))
| EntryFile (entry_name : string) (stat : option Stats)
| EntryOther (entry_name : string).

Record ScannedFile := {
  relativePath : string;
  sf_name : string;
  sf_ext : string;
  sf_size : number;
  sf_mtime : number;
  sf_createdMs : number
}.

(** The suffix of [s] that starts at its last dot, if it has a dot. *)
Fixpoint from_last_dot (s : string) : option string :=
  match s with
  | EmptyString => None
  | String c s' =>
      match from_last_dot s' with
      | Some e => Some e
      | None => if bool_decide (c = "."%char) then Some s else None
      end
  end.

(** [path.extname] on an entry name (no separator, not [.] or [..]): from
    the last dot on, unless that dot opens the name. *)
Definition extname (entry : string) : string :=
  match entry with
  | EmptyString => ""
  | String _ s' => default "" (from_last_dot s')
  end.

(** [String.prototype.toLowerCase] on a name in UTF-8.  Besides the 26
    upper-case ASCII letters, one code point has a lower case in ASCII: the
    Kelvin sign U+212A (bytes 226 132 170), which becomes [k].  Every other
    code point outside ASCII has a lower case outside ASCII and is left as it
    is: the program only compares the result with ASCII strings, and stores
    it only when it is one of them. *)
Fixpoint toLowerCase (s : string) : string :=
  match s with
  | EmptyString => EmptyString
  | String "226" (String "132" (String "170" rest)) => String "k" (toLowerCase rest)
  | String c rest => String (fold_case c) (toLowerCase rest)
  end.

Definition VIDEO_EXTENSIONS : list string := [".mov"; ".avi"; ".mp4"; ".webm"; ".mkv"].

Definition isVideoFile (entry : string) : bool :=
  bool_decide (toLowerCase (extname entry) ∈ VIDEO_EXTENSIONS).

(** [path.join(current, entry.name)] relative to the root; the root itself
    is the empty relative path. *)
Definition join_path (current entry : string) : string :=
  if bool_decide (current = "") then entry else current ++ "/" ++ entry.

(** The walk's stack: each pending directory as its path relative to the
    root and what [readdirSync] returns for it.  The top is the head. *)
Abbreviation Stack := (list (string * option (list DirEntry))).

(** The [for (const entry of entries)] loop. *)
Fixpoint scan_entries (current : string) (entries : list DirEntry)
    (stack : Stack) (results : list ScannedFile)
  : Completion (Stack * list ScannedFile) :=
  match entries with
  | [] => Normal (stack, results)
  | entry :: rest =>
      match entry with
      | EntryDir nm listing =>
          if bool_decide (nm = ".cache") then scan_entries current rest stack results
          else scan_entries current rest ((join_path current nm, listing) :: stack) results
      | EntryOther nm => scan_entries current rest stack results
      | EntryFile nm stat =>
          if bool_decide (nm = ".cache") then scan_entries current rest stack results
          else if negb (isVideoFile nm) then scan_entries current rest stack results
          else
            match stat with
            | None => Thrown FsError
            | Some st =>
                scan_entries current rest stack
                  (results ++ [{| relativePath := join_path current nm;
                                  sf_name := nm;
                                  sf_ext := toLowerCase (extname nm);
                                  sf_size := st_size st;
                                  sf_mtime := st_mtimeMs st;
                                  sf_createdMs := st_birthtimeMs st |}])
            end
      end
  end.

(** The number of directories below (and including) an entry. *)
Fixpoint dir_count (e : DirEntry) : nat :=
  match e with
  | EntryDir _ (Some entries) => S (list_sum (List.map dir_count entries))
  | EntryDir _ None => 1
  | _ => 0
  end.

Definition listing_count (l : option (list DirEntry)) : nat :=
  match l with
  | Some entries => S (list_sum (List.map dir_count entries))
  | None => 1
  end.

Definition stack_count (stack : Stack) : nat :=
  list_sum (List.map (fun p => listing_count (snd p)) stack).

(** The [while (stack.length)] loop, with [fuel] bounding its iterations. *)
Fixpoint collect_loop (fuel : nat) (stack : Stack) (results : list ScannedFile)
  : option (Completion (list ScannedFile)) :=
  match stack with
  | [] => Some (Normal results)
  | (current, listing) :: stack' =>
      match fuel with
      | O => None
      | S fuel' =>
          match listing with
          | None => Some (Thrown FsError)
          | Some entries =>
              match scan_entries current entries stack' results with
              | Thrown e => Some (Thrown e)
              | Normal (stack'', results') => collect_loop fuel' stack'' results'
              end
          end
      end
  end.

(** [collectFiles(root)], given what [readdirSync(root)] returns.  Every
    iteration pops one directory, so the number of directories is fuel
    enough (lemma [collect_loop_fuel]) and the last branch is never taken. *)
Definition collectFiles (tree : option (list DirEntry)) : Completion (list ScannedFile) :=
  match collect_loop (listing_count tree) [("", tree)] [] with
  | Some r => r
  | None => Thrown FsError
  end.

(** ** Failing entries of a tree *)

(** An entry at which the walk makes an [fs] call that throws: an unreadable
    directory, a video file that cannot be stat-ed, or a directory holding
    such an entry.  Whatever is named [.cache] is never looked into. *)
Fixpoint entry_fails (e : DirEntry) : bool :=
  match e with
  | EntryDir nm listing =>
      negb (bool_decide (nm = ".cache")) &&
      match listing with
      | None => true
      | Some entries => existsb entry_fails entries
      end
  | EntryFile nm stat =>
      negb (bool_decide (nm = ".cache")) && isVideoFile nm &&
      match stat with None => true | Some _ => false end
  | EntryOther _ => false
  end.

Definition listing_fails (listing : option (list DirEntry)) : bool :=
  match listing with
  | None => true
  | Some entries => existsb entry_fails entries
  end.

(** ** The reconciler *)

(** A row of the [existing] query:
    SELECT f.id, f.path, fp.order_index FROM files f LEFT JOIN file_playlists fp ... *)
Record ExistingRow := {
  e_id : Z;
  e_path : string;
  e_order_index : option Z
}.

(** One row per file: UNIQUE(file_id, playlist_id) leaves at most one
    membership to join. *)
Definition select_existing (d : DB) (playlistId : Z) : list ExistingRow :=
  (fun f => {| e_id := f_id f; e_path := f_path f;
               e_order_index := membership d playlistId (f_id f) ≫= fp_order_index |})
  <$> files d.

(** [existing.forEach((row) => map.set(row.path, ...))] *)
Definition build_map (existing : list ExistingRow) : gmap string (Z * option Z) :=
  foldl (fun acc row => <[e_path row := (e_id row, e_order_index row)]> acc) ∅ existing.

(** SELECT MAX(order_index) FROM file_playlists WHERE playlist_id = ?
    (NULL over no row or over NULLs only). *)
Definition max_order (d : DB) (playlistId : Z) : option Z :=
  foldr (fun r acc =>
           if bool_decide (fp_playlist_id r = playlistId) then
             match fp_order_index r, acc with
             | Some i, Some a => Some (Z.max i a)
             | Some i, None => Some i
             | None, _ => acc
             end
           else acc)
        None (file_playlists d).

(** INSERT INTO files (...) VALUES (@path, @name, @ext, 0, @size, @mtime,
    @created_ms, 0, NULL, @added_on, 0), returning [lastInsertRowid]. *)
Definition insertFile (file : ScannedFile) (added_on : Z) (d : DB) : Completion (Z * DB) :=
  if bool_decide (relativePath file ∈ f_path <$> files d) then Thrown UniqueConstraintFailed
  else
    let fileId := files_seq d + 1 in
    Normal (fileId,
            {| files := files d ++
                 [{| f_id := fileId; f_path := relativePath file;
                     f_name := sf_name file; f_ext := sf_ext file;
                     f_duration_ms := 0; f_size := sf_size file;
                     f_mtime := sf_mtime file; f_created_ms := sf_createdMs file;
                     f_rating := 0; f_added_on := added_on;
                     f_last_played := None; f_play_count := 0;
                     f_is_missing := false |}];
               files_seq := fileId;
               file_playlists := file_playlists d;
               tags := tags d; tags_seq := tags_seq d;
               file_tags := file_tags d; file_tags_seq := file_tags_seq d |}).

Definition with_disk_attrs (file : ScannedFile) (f : FileRow) : FileRow :=
  {| f_id := f_id f; f_path := f_path f;
     f_name := sf_name file; f_ext := sf_ext file;
     f_duration_ms := f_duration_ms f; f_size := sf_size file;
     f_mtime := sf_mtime file; f_created_ms := sf_createdMs file;
     f_rating := f_rating f; f_added_on := f_added_on f;
     f_last_played := f_last_played f; f_play_count := f_play_count f;
     f_is_missing := false |}.

(** UPDATE files SET name, ext, size, mtime, created_ms, is_missing = 0 WHERE id = @id *)
Definition updateFile (fileId : Z) (file : ScannedFile) (d : DB) : DB :=
  update_files_where_id fileId (with_disk_attrs file) d.

Definition with_missing (f : FileRow) : FileRow :=
  {| f_id := f_id f; f_path := f_path f; f_name := f_name f; f_ext := f_ext f;
     f_duration_ms := f_duration_ms f; f_size := f_size f; f_mtime := f_mtime f;
     f_created_ms := f_created_ms f; f_rating := f_rating f; f_added_on := f_added_on f;
     f_last_played := f_last_played f; f_play_count := f_play_count f;
     f_is_missing := true |}.

(** UPDATE files SET is_missing = 1 WHERE id = ? *)
Definition markMissing (fileId : Z) (d : DB) : DB :=
  update_files_where_id fileId with_missing d.

(** INSERT OR IGNORE INTO file_playlists (file_id, playlist_id, order_index)
    VALUES (?, ?, ?).  The playlists table holds the Library row that
    [libraryPlaylistId] names; the other foreign key is checked. *)
Definition insertFilePlaylist (fileId playlistId order_index : Z) (d : DB) : Completion DB :=
  if bool_decide ((fileId, playlistId) ∈
                  (fun r => (fp_file_id r, fp_playlist_id r)) <$> file_playlists d)
  then Normal d
  else if bool_decide (fileId ∈ f_id <$> files d)
  then Normal (set_file_playlists d
                 (file_playlists d ++
                    [{| fp_file_id := fileId; fp_playlist_id := playlistId;
                        fp_order_index := Some order_index |}]))
  else Thrown ForeignKeyConstraintFailed.

(** The variables the transaction body updates. *)
Record ScanState := {
  s_db : DB;
  nextOrder : Z;
  added : Z;
  updated : Z;
  seenIds : gset Z
}.

(** One iteration of [for (const file of files)].  [now file] is the value
    of [Date.now()] when [file] is inserted. *)
Definition scan_file (map : gmap string (Z * option Z)) (playlistId : Z)
    (now : ScannedFile → Z) (s : ScanState) (file : ScannedFile) : Completion ScanState :=
  match map !! relativePath file with
  | None =>
      match insertFile file (now file) (s_db s) with
      | Thrown e => Thrown e
      | Normal (fileId, d1) =>
          match insertFilePlaylist fileId playlistId (nextOrder s) d1 with
          | Thrown e => Thrown e
          | Normal d2 =>
              Normal {| s_db := d2; nextOrder := nextOrder s + 1;
                        added := added s + 1; updated := updated s;
                        seenIds := {[fileId]} ∪ seenIds s |}
          end
      end
  | Some (existingId, orderIndex) =>
      let d1 := updateFile existingId file (s_db s) in
      let backfilled :=
        match orderIndex with
        | None =>
            match insertFilePlaylist existingId playlistId (nextOrder s) d1 with
            | Thrown e => Thrown e
            | Normal d2 => Normal (d2, nextOrder s + 1)
            end
        | Some _ => Normal (d1, nextOrder s)
        end in
      match backfilled with
      | Thrown e => Thrown e
      | Normal (d2, next) =>
          Normal {| s_db := d2; nextOrder := next;
                    added := added s; updated := updated s + 1;
                    seenIds := {[existingId]} ∪ seenIds s |}
      end
  end.

Fixpoint scan_files (map : gmap string (Z * option Z)) (playlistId : Z)
    (now : ScannedFile → Z) (files : list ScannedFile) (s : ScanState)
  : Completion ScanState :=
  match files with
  | [] => Normal s
  | file :: rest =>
      match scan_file map playlistId now s file with
      | Thrown e => Thrown e
      | Normal s' => scan_files map playlistId now rest s'
      end
  end.

(** [for (const row of existing) if (!seenIds.has(row.id)) markMissing.run(row.id)] *)
Definition mark_unseen (existing : list ExistingRow) (seen : gset Z) (d : DB) : DB :=
  foldl (fun acc row => if bool_decide (e_id row ∈ seen) then acc else markMissing (e_id row) acc)
        d existing.

Record ScanResult := {
  r_added : Z;
  r_removed : Z;
  r_updated : Z
}.

(** [scanLibrary], given what the disk holds under the root.  The walk runs
    before the transaction; an exception inside the transaction rolls the
    database back. *)
Definition scanLibrary (m : LibraryManager) (tree : option (list DirEntry))
    (now : ScannedFile → Z) : Completion ScanResult * LibraryManager :=
  match db m with
  | None => (Normal {| r_added := 0; r_removed := 0; r_updated := 0 |}, m)
  | Some d =>
      if no_root m then (Normal {| r_added := 0; r_removed := 0; r_updated := 0 |}, m)
      else
        match collectFiles tree with
        | Thrown e => (Thrown e, m)
        | Normal scanned =>
            let playlistId := libraryPlaylistId m in
            let existing := select_existing d playlistId in
            let map := build_map existing in
            let next := default 0 (max_order d playlistId) + 1 in
            let start := {| s_db := d; nextOrder := next; added := 0; updated := 0;
                            seenIds := ∅ |} in
            match scan_files map playlistId now scanned start with
            | Thrown e => (Thrown e, m)
            | Normal s =>
                (Normal {| r_added := added s;
                           r_removed := Z.of_nat (length existing) - Z.of_nat (size (seenIds s));
                           r_updated := updated s |},
                 with_db m (mark_unseen existing (seenIds s) (s_db s)))
            end
        end
  end.

(** ** The constraints of the schema *)

(** The (file, playlist) pairs of the memberships. *)
Definition member_keys (d : DB) : list (Z * Z) :=
  (fun r => (fp_file_id r, fp_playlist_id r)) <$> file_playlists d.

(** What the schema and the engine guarantee of every database state:
    - files.id is a primary key handed out by AUTOINCREMENT (no id is above
      the counter), files.path is UNIQUE;
    - UNIQUE(file_id, playlist_id) on file_playlists;
    - tags.id is a primary key handed out by AUTOINCREMENT;
    - the foreign keys of file_playlists and file_tags into files hold
      (foreign_keys = ON). *)
Record wf_db (d : DB) : Prop := {
  wf_file_ids : NoDup (f_id <$> files d);
  wf_file_paths : NoDup (f_path <$> files d);
  wf_files_seq : Forall (fun f => f_id f ≤ files_seq d) (files d);
  wf_memberships : NoDup (member_keys d);
  wf_memberships_fk : Forall (fun k => k.1 ∈ f_id <$> files d) (member_keys d);
  wf_tags_seq : Forall (fun t => 0 < t_id t ≤ tags_seq d) (tags d);
  wf_file_tags_fk : Forall (fun r => ft_file_id r ∈ f_id <$> files d) (file_tags d)
}.

(** ** A catalog in step with the disk *)

(** [synced scanned pl d]: every scanned file has a row with its path and
    disk attributes, not flagged missing and a member of playlist [pl], and
    every row whose path was not scanned is flagged missing. *)
Definition synced (scanned : list ScannedFile) (pl : Z) (d : DB) : Prop :=
  (∀ file, file ∈ scanned →
     ∃ f, f ∈ files d ∧ f_path f = relativePath file ∧ with_disk_attrs file f = f ∧
          (f_id f, pl) ∈ member_keys d) ∧
  (∀ f, f ∈ files d → f_path f ∉ relativePath <$> scanned → f_is_missing f = true).

(** ** Notions used in the statements and proofs *)

(** The ORDER BY terms compare any two rows, and do so transitively. *)
Definition total_le (ob : OrderBy) : Prop := ∀ a b, order_le ob a b = false → order_le ob b a = true.
Definition trans_le (ob : OrderBy) : Prop :=
  ∀ a b c, order_le ob a b = true → order_le ob b c = true → order_le ob a c = true.

(** The key by which a response in random order is sorted: that of
    [random_key], on the id of the item. *)
Definition item_key (s : Z) (i : FileItem) : Z := sql_random_key (i_id i) s.

(** The video files of a listing that cannot be stat-ed. *)
Definition stat_fails (e : DirEntry) : bool :=
  match e with
  | EntryFile nm None => negb (bool_decide (nm = ".cache")) && isVideoFile nm
  | _ => false
  end.

(** The directories of a listing that the walk pushes, last pushed first. *)
Fixpoint pushed (current : string) (entries : list DirEntry) : Stack :=
  match entries with
  | [] => []
  | EntryDir nm listing :: rest =>
      if bool_decide (nm = ".cache") then pushed current rest
      else (pushed current rest ++ [(join_path current nm, listing)])%list
  | _ :: rest => pushed current rest
  end.

(** What one UPDATE of [saveOrder] does to one membership row. *)
Definition renumber (pl index fileId : Z) (r : FilePlaylistRow) : FilePlaylistRow :=
  if bool_decide (fp_file_id r = fileId ∧ fp_playlist_id r = pl)
  then {| fp_file_id := fp_file_id r; fp_playlist_id := fp_playlist_id r;
          fp_order_index := Some index |}
  else r.

Fixpoint renumber_from (pl index : Z) (ids : list Z) (r : FilePlaylistRow)
  : FilePlaylistRow :=
  match ids with
  | [] => r
  | fileId :: rest => renumber_from pl (index + 1) rest (renumber pl index fileId r)
  end.

(** [before ids x y]: [x] stands in [ids] at or before a place of [y]. *)
Definition before (ids : list Z) (x y : Z) : Prop :=
  ∃ i j : nat, ids !! i = Some x ∧ ids !! j = Some y ∧ (i ≤ j)%nat.

(** What holds of the loop state after the files [done] were reconciled
    against the database [d0] the scan started from. *)
Record scan_inv (d0 : DB) (pl : Z) (done : list ScannedFile) (s : ScanState) : Prop := {
  inv_ids : NoDup (f_id <$> files (s_db s));
  inv_paths : NoDup (f_path <$> files (s_db s));
  inv_seq : Forall (fun f => f_id f ≤ files_seq (s_db s)) (files (s_db s));
  inv_keys : NoDup (member_keys (s_db s));
  inv_keys_fk : Forall (fun k => k.1 ∈ f_id <$> files (s_db s)) (member_keys (s_db s));
  inv_tags : tags (s_db s) = tags d0 ∧ tags_seq (s_db s) = tags_seq d0 ∧
             file_tags (s_db s) = file_tags d0 ∧ file_tags_seq (s_db s) = file_tags_seq d0;
  inv_old_keys : ∀ k, k ∈ member_keys d0 → k ∈ member_keys (s_db s);
  inv_origin : ∀ f, f ∈ files (s_db s) →
      (∃ f0, f0 ∈ files d0 ∧ f_id f0 = f_id f ∧ f_path f0 = f_path f) ∨
      f_path f ∈ relativePath <$> done;
  inv_untouched : ∀ f0, f0 ∈ files d0 → f_path f0 ∉ relativePath <$> done →
      f0 ∈ files (s_db s);
  inv_updated : ∀ f0 file, f0 ∈ files d0 → file ∈ done → relativePath file = f_path f0 →
      with_disk_attrs file f0 ∈ files (s_db s);
  inv_done : ∀ file, file ∈ done →
      ∃ f, f ∈ files (s_db s) ∧ f_path f = relativePath file ∧
           with_disk_attrs file f = f ∧
           (f_id f, pl) ∈ member_keys (s_db s) ∧ f_id f ∈ seenIds s;
  inv_seen : ∀ i, i ∈ seenIds s →
      ∃ f, f ∈ files (s_db s) ∧ f_id f = i ∧ f_path f ∈ relativePath <$> done;
  inv_counts : 0 ≤ added s ∧ 0 ≤ updated s ∧
               added s + updated s = Z.of_nat (length done)
}.

(** The seen ids are the ids of the rows of the files reconciled so far,
    each once. *)
Definition seen_for (d : DB) (done : list ScannedFile) (seen : gset Z) : Prop :=
  ∃ l : list Z, seen = list_to_set l ∧ NoDup l ∧ length l = length done ∧
    ∀ i, i ∈ l ↔ ∃ f, f ∈ files d ∧ f_id f = i ∧ f_path f ∈ relativePath <$> done.

(** ** Sample catalogs *)

Module Sample.

Definition stats0 : Stats := {| st_size := 10; st_mtimeMs := 20; st_birthtimeMs := 30 |}.

(** A root with two videos, a text file, a symbolic link, the cache folder
    and a subfolder holding one more video. *)
Definition tree : option (list DirEntry) :=
  Some [ EntryFile "a.mp4" (Some stats0);
         EntryFile "notes.txt" (Some stats0);
         EntryOther "link";
         EntryDir ".cache" (Some [EntryFile "thumb.mp4" (Some stats0)]);
         EntryDir "sub" (Some [EntryFile "c.MKV" (Some stats0)]);
         EntryFile "b.webm" (Some stats0) ].

(** The same root after [a.mp4] was deleted. *)
Definition tree_without_a : option (list DirEntry) :=
  Some [ EntryFile "notes.txt" (Some stats0);
         EntryOther "link";
         EntryDir ".cache" (Some [EntryFile "thumb.mp4" (Some stats0)]);
         EntryDir "sub" (Some [EntryFile "c.MKV" (Some stats0)]);
         EntryFile "b.webm" (Some stats0) ].

(** The same root with an unreadable subfolder next to the videos. *)
Definition tree_unreadable : option (list DirEntry) :=
  Some [ EntryFile "a.mp4" (Some stats0);
         EntryDir "locked" None;
         EntryFile "b.webm" (Some stats0) ].

Definition empty_db : DB :=
  {| files := []; files_seq := 0; file_playlists := [];
     tags := []; tags_seq := 0; file_tags := []; file_tags_seq := 0 |}.

(** A manager right after [setRoot] on a fresh folder. *)
Definition fresh : LibraryManager :=
  {| root := Some "/videos"; db := Some empty_db; libraryPlaylistId := 1 |}.

Definition clock (_ : ScannedFile) : Z := 1700000000000.

Definition request (s : SortMode) (required : list string) : PlaylistRequest :=
  {| sort := s; ratingMin := 0; req_tags := required;
     limit := None; offset := None; seed := None |}.

Definition page (s : SortMode) (sd : option number) (off lim : number) : PlaylistRequest :=
  {| sort := s; ratingMin := 0; req_tags := [];
     limit := Some lim; offset := Some off; seed := sd |}.

Definition file (i : Z) (p : string) (missing : bool) : FileRow :=
  {| f_id := i; f_path := p; f_name := p; f_ext := ".mp4";
     f_duration_ms := 0; f_size := 10; f_mtime := 20; f_created_ms := 30;
     f_rating := 0; f_added_on := 1700000000000; f_last_played := None;
     f_play_count := 0; f_is_missing := missing |}.

Definition member (i : Z) (oi : Z) : FilePlaylistRow :=
  {| fp_file_id := i; fp_playlist_id := 1; fp_order_index := Some oi |}.

(** File 1 carries the tags a, b and c; file 2 carries a only. *)
Definition tagged_db : DB :=
  {| files := [file 1 "one.mp4" false; file 2 "two.mp4" false];
     files_seq := 2;
     file_playlists := [member 1 1; member 2 2];
     tags := [ {| t_id := 1; t_name := "a" |}; {| t_id := 2; t_name := "b" |};
               {| t_id := 3; t_name := "c" |}; {| t_id := 4; t_name := "d" |} ];
     tags_seq := 4;
     file_tags := [ {| ft_id := 1; ft_file_id := 1; ft_tag_id := 1 |};
                    {| ft_id := 2; ft_file_id := 1; ft_tag_id := 2 |};
                    {| ft_id := 3; ft_file_id := 1; ft_tag_id := 3 |};
                    {| ft_id := 4; ft_file_id := 2; ft_tag_id := 1 |} ];
     file_tags_seq := 4 |}.

Definition tagged : LibraryManager :=
  {| root := Some "/videos"; db := Some tagged_db; libraryPlaylistId := 1 |}.

(** Three files, all members of the Library playlist in scan order. *)
Definition three_db : DB :=
  {| files := [file 1 "one.mp4" false; file 2 "two.mp4" false; file 3 "three.mp4" false];
     files_seq := 3;
     file_playlists := [member 1 1; member 2 2; member 3 3];
     tags := []; tags_seq := 0; file_tags := []; file_tags_seq := 0 |}.

Definition three : LibraryManager :=
  {| root := Some "/videos"; db := Some three_db; libraryPlaylistId := 1 |}.

(** The same with a fourth file that has no membership row. *)
Definition stray_db : DB :=
  {| files := [file 1 "one.mp4" false; file 2 "two.mp4" false; file 3 "three.mp4" false;
               file 4 "four.mp4" false];
     files_seq := 4;
     file_playlists := [member 1 1; member 2 2; member 3 3];
     tags := []; tags_seq := 0; file_tags := []; file_tags_seq := 0 |}.

Definition stray : LibraryManager :=
  {| root := Some "/videos"; db := Some stray_db; libraryPlaylistId := 1 |}.

(** A fresh catalog after scanning [tree], and after [a.mp4] was deleted
    and the folder scanned again. *)
Definition scanned : LibraryManager := snd (scanLibrary fresh tree clock).
Definition rescanned : LibraryManager := snd (scanLibrary scanned tree_without_a clock).

Definition scanned_db : DB :=
  Eval vm_compute in match db scanned with Some d => d | None => empty_db end.

(** The row of [a.mp4] in [scanned_db], and the file as the walk reports it. *)
Definition row_a : FileRow :=
  {| f_id := 1; f_path := "a.mp4"; f_name := "a.mp4"; f_ext := ".mp4";
     f_duration_ms := 0; f_size := 10; f_mtime := 20; f_created_ms := 30;
     f_rating := 0; f_added_on := 1700000000000; f_last_played := None;
     f_play_count := 0; f_is_missing := false |}.

Definition file_a : ScannedFile :=
  {| relativePath := "a.mp4"; sf_name := "a.mp4"; sf_ext := ".mp4";
     sf_size := 10; sf_mtime := 20; sf_createdMs := 30 |}.

Definition walk (t : option (list DirEntry)) : list ScannedFile :=
  match collectFiles t with Normal l => l | Thrown _ => [] end.

End Sample.

(** ** Orders on the items of a response *)

(** [playlist_before a b]: [a] does not come after [b] by order index, then id. *)
Definition playlist_before (a b : FileItem) : Prop :=
  i_orderIndex a < i_orderIndex b ∨ (i_orderIndex a = i_orderIndex b ∧ i_id a ≤ i_id b).

(** By name without regard to ASCII case, then id. *)
Definition filename_before (a b : FileItem) : Prop :=
  match String.compare (nocase (i_name a)) (nocase (i_name b)) with
  | Lt => True
  | Eq => i_id a ≤ i_id b
  | Gt => False
  end.

(** Newest first, then larger id first. *)
Definition created_before (a b : FileItem) : Prop :=
  (i_createdMs b < i_createdMs a)%Q ∨
  ((i_createdMs a == i_createdMs b)%Q ∧ i_id b ≤ i_id a).

(** The order a response is in, for each sort mode. *)
Definition sorted_for (o : PlaylistRequest) : relation FileItem :=
  match sort o with
  | SortPlaylist => playlist_before
  | SortFilename => filename_before
  | SortCreated => created_before
  | SortRandom => fun a b => item_key (effective_seed (seed o)) a
                             ≤ item_key (effective_seed (seed o)) b
  end.

(** ** Tags of a file *)

(** The (file, tag) pairs of the associations. *)
Definition tag_keys (d : DB) : list (Z * Z) :=
  (fun r => (ft_file_id r, ft_tag_id r)) <$> file_tags d.

(** What the schema and the engine guarantee of the tags and file_tags
    tables: primary keys handed out by AUTOINCREMENT (positive, none above
    the counter), UNIQUE(name), UNIQUE(file_id, tag_id) and both foreign keys
    of file_tags. *)
Record wf_tags (d : DB) : Prop := {
  wft_ids : NoDup (t_id <$> tags d);
  wft_names : NoDup (t_name <$> tags d);
  wft_seq : 0 ≤ tags_seq d;
  wft_bound : Forall (fun t => 0 < t_id t ≤ tags_seq d) (tags d);
  wft_keys : NoDup (tag_keys d);
  wft_row_ids : NoDup (ft_id <$> file_tags d);
  wft_row_bound : Forall (fun r => ft_id r ≤ file_tags_seq d) (file_tags d);
  wft_fk : Forall (fun r => ft_file_id r ∈ f_id <$> files d ∧
                            ft_tag_id r ∈ t_id <$> tags d) (file_tags d)
}.

(** [carries d fileId name]: the join of [baseSql] gives the file a tag of
    that name. *)
Definition carries (d : DB) (fileId : Z) (name : string) : Prop :=
  Some name ∈ joined_names d fileId.

(** ** Updated rows seen through the query *)

(** The UPDATE of [update_files_where_id] on one row. *)
Definition updated_row (fileId : Z) (upd : FileRow → FileRow) (f : FileRow) : FileRow :=
  if bool_decide (f_id f = fileId) then upd f else f.

(** A group with its file row replaced. *)
Definition on_file (u : FileRow → FileRow) (g : GroupRow) : GroupRow :=
  {| g_file := u (g_file g); g_order_index := g_order_index g; g_names := g_names g |}.

(** An item of a response with the rating, or the duration, of one file
    replaced. *)
Definition rate_item (fileId : Z) (rating : number) (it : FileItem) : FileItem :=
  if bool_decide (i_id it = fileId)
  then {| i_id := i_id it; i_path := i_path it; i_name := i_name it; i_ext := i_ext it;
          i_durationMs := i_durationMs it; i_rating := rating; i_size := i_size it;
          i_mtime := i_mtime it; i_createdMs := i_createdMs it;
          i_orderIndex := i_orderIndex it; i_tags := i_tags it |}
  else it.

Definition time_item (fileId : Z) (durationMs : number) (it : FileItem) : FileItem :=
  if bool_decide (i_id it = fileId)
  then {| i_id := i_id it; i_path := i_path it; i_name := i_name it; i_ext := i_ext it;
          i_durationMs := durationMs; i_rating := i_rating it; i_size := i_size it;
          i_mtime := i_mtime it; i_createdMs := i_createdMs it;
          i_orderIndex := i_orderIndex it; i_tags := i_tags it |}
  else it.

(** A row after [times] plays of the file, the last at [now]. *)
Definition played (fileId : Z) (times : list Z) (f : FileRow) : FileRow :=
  if bool_decide (f_id f = fileId)
  then {| f_id := f_id f; f_path := f_path f; f_name := f_name f; f_ext := f_ext f;
          f_duration_ms := f_duration_ms f; f_size := f_size f; f_mtime := f_mtime f;
          f_created_ms := f_created_ms f; f_rating := f_rating f;
          f_added_on := f_added_on f;
          f_last_played := match last times with Some t => Some t | None => f_last_played f end;
          f_play_count := f_play_count f + Z.of_nat (length times);
          f_is_missing := f_is_missing f |}
  else f.

(** ** Reordering in the renderer *)

(** [const [moved] = updated.splice(from, 1)]: the element at [from], when
    there is one, and the array without it. *)
Definition splice_out {A} (from : nat) (l : list A) : option A * list A :=
  (l !! from, delete from l).

(** [updated.splice(to, 0, moved)]: a start past the end inserts at the end. *)
Definition splice_in {A} (to : nat) (x : A) (l : list A) : list A :=
  take to l ++ x :: drop to l.

(** [handleOrderMove] of the renderer, on the items it shows, with the call
    of [saveOrder] that its IPC message ends in.  [None] stands for the
    TypeError of [item.id] on the [undefined] that an index past the end
    leaves in the array. *)
Definition handleOrderMove (m : LibraryManager) (s : SortMode) (hasMore : bool)
    (shown : list FileItem) (from to : nat) : option (list FileItem * LibraryManager) :=
  if bool_decide (from = to) ||
     negb (match s with SortPlaylist => true | _ => false end) || hasMore
  then Some (shown, m)
  else
    match splice_out from shown with
    | (Some moved, rest) =>
        let updated := splice_in to moved rest in
        Some (updated, saveOrder m (i_id <$> updated))
    | (None, _) => None
    end.

(** ** The walk as a traversal of the tree *)

(** The record that the walk pushes for a video file. *)
Definition scanned_file (current nm : string) (st : Stats) : ScannedFile :=
  {| relativePath := join_path current nm;
     sf_name := nm;
     sf_ext := toLowerCase (extname nm);
     sf_size := st_size st;
     sf_mtime := st_mtimeMs st;
     sf_createdMs := st_birthtimeMs st |}.

(** The video files of one listing, in listing order. *)
Definition video_files (current : string) (entries : list DirEntry) : list ScannedFile :=
  flat_map (fun e =>
              match e with
              | EntryFile nm (Some st) =>
                  if bool_decide (nm = ".cache") then []
                  else if isVideoFile nm then [scanned_file current nm st] else []
              | _ => []
              end) entries.

(** The files below a subdirectory entry: its own video files first, then
    those of its subdirectories, the last listed subdirectory first. *)
Fixpoint walk_entry (current : string) (e : DirEntry) : list ScannedFile :=
  match e with
  | EntryDir nm (Some entries) =>
      if bool_decide (nm = ".cache") then []
      else
        let p := join_path current nm in
        video_files p entries ++ concat (rev (List.map (walk_entry p) entries))
  | _ => []
  end.

Definition walk_listing (current : string) (listing : option (list DirEntry))
  : list ScannedFile :=
  match listing with
  | Some entries =>
      video_files current entries ++ concat (rev (List.map (walk_entry current) entries))
  | None => []
  end.

(** What the walk records of a file it reports. *)
Definition reported (file : ScannedFile) : Prop :=
  isVideoFile (sf_name file) = true ∧
  sf_ext file = toLowerCase (extname (sf_name file)) ∧
  sf_ext file ∈ VIDEO_EXTENSIONS ∧
  sf_name file ≠ ".cache" ∧
  ∃ current, relativePath file = join_path current (sf_name file).

(** ** Memberships added by a scan *)

(** The order index of [a] is below that of [b]. *)
Definition index_lt (a b : FilePlaylistRow) : Prop :=
  ∃ i j, fp_order_index a = Some i ∧ fp_order_index b = Some j ∧ i < j.

(** What holds of the memberships while the transaction of [scanLibrary]
    runs, [rows0] being the rows and [next0] the value of [nextOrder] at its
    start: rows are only appended, each in the scanned playlist with the
    value [nextOrder] had, which only grows. *)
Record appended (pl : Z) (rows0 : list FilePlaylistRow) (next0 : Z) (s : ScanState)
  : Prop := {
  app_rows : ∃ new,
    file_playlists (s_db s) = (rows0 ++ new)%list ∧
    Forall (fun r => fp_playlist_id r = pl ∧
                     ∃ i, fp_order_index r = Some i ∧ next0 ≤ i < nextOrder s) new ∧
    StronglySorted index_lt new;
  app_next : next0 ≤ nextOrder s
}.

(** ** The tag list *)

(** INSERT OR IGNORE INTO tags (name) VALUES (?).  A name that exists is
    skipped by UNIQUE(name).  SQLite leaves open whether the rowid prepared
    for a skipped row is used again: [burnt] tells whether the AUTOINCREMENT
    counter has moved. *)
Definition insert_or_ignore_tag (burnt : bool) (tagName : string) (d : DB) : DB :=
  if bool_decide (tagName ∈ t_name <$> tags d) then
    {| files := files d; files_seq := files_seq d;
       file_playlists := file_playlists d;
       tags := tags d;
       tags_seq := if burnt then tags_seq d + 1 else tags_seq d;
       file_tags := file_tags d; file_tags_seq := file_tags_seq d |}
  else
    let tagId := tags_seq d + 1 in
    {| files := files d; files_seq := files_seq d;
       file_playlists := file_playlists d;
       tags := tags d ++ [{| t_id := tagId; t_name := tagName |}];
       tags_seq := tagId;
       file_tags := file_tags d; file_tags_seq := file_tags_seq d |}.

Definition addTag (m : LibraryManager) (burnt : bool) (tagName : string) : LibraryManager :=
  match db m with
  | None => m
  | Some d => with_db m (insert_or_ignore_tag burnt tagName d)
  end.

(** ORDER BY t.name COLLATE NOCASE ASC, t.name ASC: [a] is not after [b]. *)
Definition tag_le (a b : string) : bool :=
  match String.compare (nocase a) (nocase b) with
  | Lt => true
  | Gt => false
  | Eq => match String.compare a b with Gt => false | _ => true end
  end.

(** SELECT t.name FROM tags t GROUP BY t.id ORDER BY ...: one group for each
    row, [id] being the primary key. *)
Definition getTopTags (m : LibraryManager) : list string :=
  match db m with
  | None => []
  | Some d => merge_sort (fun a b => tag_le a b) (t_name <$> tags d)
  end.

(** ** Settings *)

(** A row of the settings table: [name TEXT UNIQUE NOT NULL, value TEXT].
    The [id] column is never read.  The table is kept beside [DB]; no other
    statement touches it. *)
Record SettingRow := {
  s_name : string;
  s_value : option string
}.

Abbreviation Settings := (list SettingRow).

(** [getSetting]: [row?.value ?? null], on SELECT value FROM settings WHERE name = ? *)
Definition getSetting (m : LibraryManager) (st : Settings) (name : string) : option string :=
  match db m with
  | None => None
  | Some _ =>
      match List.find (fun r => bool_decide (s_name r = name)) st with
      | Some r => s_value r
      | None => None
      end
  end.

(** [setSetting]: INSERT INTO settings (name, value) VALUES (?, ?)
    ON CONFLICT(name) DO UPDATE SET value = excluded.value *)
Definition setSetting (m : LibraryManager) (st : Settings) (name : string)
    (value : option string) : Settings :=
  match db m with
  | None => st
  | Some _ =>
      if bool_decide (name ∈ s_name <$> st)
      then (fun r => if bool_decide (s_name r = name)
                     then {| s_name := s_name r; s_value := value |} else r) <$> st
      else st ++ [{| s_name := name; s_value := value |}]
  end.

(** [parseBoolean] of the main process. *)
Definition parseBoolean (value : option string) (fallback : bool) : bool :=
  match value with
  | None => fallback
  | Some v =>
      if bool_decide (v = "1") || bool_decide (toLowerCase v = "true") then true
      else if bool_decide (v = "0") || bool_decide (toLowerCase v = "false") then false
      else fallback
  end.

(** The strings of the type [SortMode]. *)
Definition sort_name (s : SortMode) : string :=
  match s with
  | SortPlaylist => "playlist"
  | SortFilename => "filename"
  | SortCreated => "created"
  | SortRandom => "random"
  end.

(** [parseSortMode] of the main process. *)
Definition parseSortMode (value : option string) : SortMode :=
  match value with
  | Some v =>
      if bool_decide (v = "playlist") then SortPlaylist
      else if bool_decide (v = "filename") then SortFilename
      else if bool_decide (v = "created") then SortCreated
      else if bool_decide (v = "random") then SortRandom
      else SortPlaylist
  | None => SortPlaylist
  end.

(** ** Paging in the renderer *)

Definition PAGE_SIZE : number := 50.

(** The loop of [mergeUniqueById] over [[...existing, ...incoming]]. *)
Fixpoint merge_loop (seen : gset Z) (merged : list FileItem) (l : list FileItem)
  : list FileItem :=
  match l with
  | [] => merged
  | item :: rest =>
      if bool_decide (i_id item ∈ seen) then merge_loop seen merged rest
      else merge_loop ({[i_id item]} ∪ seen) (merged ++ [item]) rest
  end.

Definition mergeUniqueById (existing incoming : list FileItem) : list FileItem :=
  merge_loop ∅ [] (existing ++ incoming).

(** [buildPlaylistRequest]: the options of the renderer with the page
    window and, in random order, the seed of the session. *)
Definition buildPlaylistRequest (options : PlaylistRequest) (randomSeed : number)
    (off : number) : PlaylistRequest :=
  {| sort := sort options; ratingMin := ratingMin options; req_tags := req_tags options;
     limit := Some PAGE_SIZE;
     offset := Some off;
     seed := match sort options with SortRandom => Some randomSeed | _ => None end |}.

(** What the renderer keeps of the playlist: the items shown, the total of
    the last response and whether more can be loaded. *)
Record Paging := {
  pg_items : list FileItem;
  pg_total : Z;
  pg_hasMore : bool
}.

(** [loadPlaylistPage], on the manager of the main process. *)
Definition loadPlaylistPage (m : LibraryManager) (options : PlaylistRequest)
    (randomSeed : number) (st : Paging) (off : number) (reset : bool) : Paging :=
  let result := getPlaylist m (buildPlaylistRequest options randomSeed off) in
  let nextItems :=
    if reset then mergeUniqueById [] (items result)
    else mergeUniqueById (pg_items st) (items result) in
  {| pg_items := nextItems;
     pg_total := total result;
     pg_hasMore := bool_decide (Z.of_nat (length nextItems) < total result) |}.

(** [loadMore], when no load is under way. *)
Definition loadMore (m : LibraryManager) (options : PlaylistRequest)
    (randomSeed : number) (st : Paging) : Paging :=
  if negb (pg_hasMore st) then st
  else loadPlaylistPage m options randomSeed st
         (inject_Z (Z.of_nat (length (pg_items st)))) false.

(** ** Looking for the database of an opened file *)

(** The loop of [findDbRootUpwards] with [steps] iterations left after this
    one.  [has_db dir] is [fs.existsSync(path.join(dir, DB_FILENAME))] and
    [dirname] is [path.dirname]. *)
Fixpoint find_up (has_db : string → bool) (dirname : string → string)
    (steps : nat) (current : string) : option string :=
  if has_db current then Some current
  else
    match steps with
    | O => None
    | S steps' =>
        let parent := dirname current in
        if bool_decide (parent = current) then None
        else find_up has_db dirname steps' parent
    end.

(** [for (let i = 0; i <= levels; i += 1)]: no iteration when [levels] is
    negative. *)
Definition findDbRootUpwards (has_db : string → bool) (dirname : string → string)
    (startDir : string) (levels : Z) : option string :=
  if levels <? 0 then None else find_up has_db dirname (Z.to_nat levels) startDir.

(** ** Listings as a file system gives them *)

Definition entry_name (e : DirEntry) : string :=
  match e with
  | EntryDir nm _ => nm
  | EntryFile nm _ => nm
  | EntryOther nm => nm
  end.

(** A name of a directory entry is not empty and holds no separator. *)
Definition is_segment (nm : string) : bool :=
  negb (bool_decide (nm = "")) && negb (bool_decide ("/"%char ∈ list_ascii_of_string nm)).

(** No name twice in one listing. *)
Definition names_ok (entries : list DirEntry) : bool :=
  bool_decide (NoDup (entry_name <$> entries)) && forallb (fun e => is_segment (entry_name e)) entries.

Fixpoint entry_ok (e : DirEntry) : bool :=
  match e with
  | EntryDir _ (Some entries) => names_ok entries && forallb entry_ok entries
  | _ => true
  end.

Definition listing_ok (listing : option (list DirEntry)) : bool :=
  match listing with
  | Some entries => names_ok entries && forallb entry_ok entries
  | None => true
  end.

(** [headed n s]: the relative path [s] is [n] or goes through [n]. *)
Definition headed (n s : string) : Prop :=
  s = n ∨ ∃ rest, s = n ++ "/" ++ rest.

(** ** Items without their place in the playlist *)

(** A group with the order index that the memberships of [d] give its file. *)
Definition on_index (d : DB) (pl : Z) (g : GroupRow) : GroupRow :=
  {| g_file := g_file g;
     g_order_index := membership d pl (f_id (g_file g)) ≫= fp_order_index;
     g_names := g_names g |}.

Definition without_index (it : FileItem) : FileItem :=
  {| i_id := i_id it; i_path := i_path it; i_name := i_name it; i_ext := i_ext it;
     i_durationMs := i_durationMs it; i_rating := i_rating it; i_size := i_size it;
     i_mtime := i_mtime it; i_createdMs := i_createdMs it;
     i_orderIndex := 0; i_tags := i_tags it |}.

(** * Properties of the playlist query *)

Lemma NoDup_fmap_inj {A B} (key : A → B) (l : list A) x y :
  NoDup (key <$> l) → x ∈ l → y ∈ l → key x = key y → x = y.
Proof.
  induction l as [|a l IH]; intros Hnd Hx Hy Hk; [by apply elem_of_nil in Hx|].
  rewrite fmap_cons in Hnd. apply NoDup_cons in Hnd as [Ha Hnd].
  apply elem_of_cons in Hx as [->|Hx]; apply elem_of_cons in Hy as [->|Hy]; auto.
  - destruct Ha. rewrite Hk. by apply list_elem_of_fmap_2.
  - destruct Ha. rewrite <- Hk. by apply list_elem_of_fmap_2.
Qed.

Section Query.

Implicit Types (d : DB) (m : LibraryManager) (o : PlaylistRequest)
  (f : FileRow) (g : GroupRow) (q : QueryParts).

Lemma insert_row_Permutation ob x l : insert_row ob x l ≡ₚ x :: l.
Proof.
  induction l as [|y l IH]; simpl; [done|].
  destruct (order_le ob x y); [done|].
  rewrite IH. apply Permutation_swap.
Qed.

Lemma order_rows_Permutation ob l : order_rows ob l ≡ₚ l.
Proof.
  induction l as [|x l IH]; simpl; [done|].
  rewrite insert_row_Permutation. by f_equiv.
Qed.

Lemma order_rows_length ob l : length (order_rows ob l) = length l.
Proof. by rewrite order_rows_Permutation. Qed.

Lemma elem_of_baseSql d pl q g :
  g ∈ baseSql d pl q ↔
  ∃ f, f ∈ files d ∧ g = group_of d pl f ∧ where_clause q f ∧ having_clause q g.
Proof.
  unfold baseSql. rewrite list_elem_of_filter, list_elem_of_fmap.
  setoid_rewrite list_elem_of_filter. naive_solver.
Qed.

(** The ids of a response, when a database is open. *)
Lemma getPlaylist_open m d o :
  db m = Some d → no_root m = false →
  getPlaylist m o =
    let q := buildPlaylistQueryParts o in
    let sel := baseSql d (libraryPlaylistId m) q in
    {| items := to_item <$> limit_offset (page_limit o) (page_offset o)
                              (order_rows (orderBy q) sel);
       total := Z.of_nat (length sel) |}.
Proof. intros Hd Hr. unfold getPlaylist. by rewrite Hd, Hr. Qed.

Lemma omap_id_elem (names : list (option string)) (t : string) :
  t ∈ omap (fun n => n) names ↔ Some t ∈ names.
Proof. rewrite list_elem_of_omap. naive_solver. Qed.

Lemma count_distinct_in_nil names : count_distinct_in [] names = 0%nat.
Proof.
  unfold count_distinct_in.
  induction (omap _ names) as [|x l IH]; [done|].
  rewrite filter_cons. case_decide as Hx; [|done]. by apply elem_of_nil in Hx.
Qed.

(** Counting the distinct requested names among a file's tags reaches the
    number of requested names exactly when every requested name is there. *)
Lemma count_distinct_in_all (requested : list string) names :
  NoDup requested →
  count_distinct_in requested names = length requested ↔
  ∀ t, t ∈ requested → Some t ∈ names.
Proof.
  intros Hnd. unfold count_distinct_in.
  set (found := remove_dups _).
  assert (Hfound : ∀ t, t ∈ found ↔ t ∈ requested ∧ Some t ∈ names).
  { intros t. unfold found.
    rewrite elem_of_remove_dups, list_elem_of_filter, omap_id_elem. naive_solver. }
  assert (Hsub : found ⊆+ requested).
  { apply NoDup_submseteq; [apply NoDup_remove_dups|]. intros t Ht. by apply Hfound. }
  split.
  - intros Hlen t Ht.
    assert (Hp : found ≡ₚ requested).
    { apply submseteq_length_Permutation; [done|lia]. }
    rewrite <- Hp in Ht. by apply Hfound.
  - intros Hall.
    apply Nat.le_antisymm; [by apply submseteq_length|].
    apply submseteq_length, NoDup_submseteq; [done|].
    intros t Ht. apply Hfound. auto.
Qed.

(** C1. With a database open and no page limit, a file that is not flagged
    missing and passes the rating bound is in the response exactly when the
    number of distinct requested tag names found among its tags equals the
    number of requested names, which (for a tag set, i.e. a list without
    repetition) holds exactly when the file carries every requested name.
    With no requested name every such file is included. *)
Theorem getPlaylist_and_tag_filter m d o f :
  db m = Some d → no_root m = false →
  NoDup (f_id <$> files d) →
  NoDup (req_tags o) →
  page_limit o = None →
  f ∈ files d →
  f_is_missing f = false →
  (gt0 (ratingMin o) = true → Qle_bool (ratingMin o) (f_rating f) = true) →
  let n := count_distinct_in (req_tags o) (joined_names d (f_id f)) in
  (f_id f ∈ i_id <$> items (getPlaylist m o) ↔ n = length (req_tags o)) ∧
  (n = length (req_tags o) ↔ ∀ t, t ∈ req_tags o → Some t ∈ joined_names d (f_id f)).
Proof.
  intros Hd Hr Hids Hnd Hlim Hf Hmiss Hrate n.
  split; [|by apply count_distinct_in_all].
  rewrite (getPlaylist_open m d o Hd Hr). cbn [items]. rewrite Hlim. cbn [limit_offset].
  rewrite <- list_fmap_compose, order_rows_Permutation, list_elem_of_fmap.
  set (q := buildPlaylistQueryParts o).
  assert (Hw : where_clause q f).
  { unfold where_clause. rewrite Hmiss. cbn.
    destruct (gt0 (ratingMin o)) eqn:E; [|done]. by rewrite Hrate. }
  assert (Hh : ∀ g, g_names g = joined_names d (f_id f) →
                    having_clause q g ↔ n = length (req_tags o)).
  { intros g Hg. unfold having_clause. cbn.
    case_bool_decide as Hlen.
    - rewrite Hg, bool_decide_spec. done.
    - assert (req_tags o = []) as Hnil by (destruct (req_tags o); [done|simpl in Hlen; lia]).
      subst n. rewrite Hnil. by rewrite count_distinct_in_nil. }
  split.
  - intros (g & Hid & Hg). apply elem_of_baseSql in Hg as (f' & Hf' & -> & _ & Hhav).
    cbn in Hid. assert (f' = f) as ->.
    { by eapply (NoDup_fmap_inj f_id). }
    by apply (Hh (group_of d (libraryPlaylistId m) f)).
  - intros Hn. exists (group_of d (libraryPlaylistId m) f). split; [done|].
    apply elem_of_baseSql. exists f. split_and!; [done..|]. by apply Hh.
Qed.

Lemma getPlaylist_and_tag_filter_witness :
  1 ∈ i_id <$> items (getPlaylist Sample.tagged (Sample.request SortPlaylist ["a"; "b"])) ∧
  ¬ 1 ∈ i_id <$> items (getPlaylist Sample.tagged (Sample.request SortPlaylist ["a"; "d"])) ∧
  2 ∈ i_id <$> items (getPlaylist Sample.tagged (Sample.request SortPlaylist [])).
Proof.
  assert (Hids : NoDup (f_id <$> files Sample.tagged_db)).
  { apply (bool_decide_unpack _). vm_compute. exact I. }
  assert (Hnd : ∀ l : list string, bool_decide (NoDup l) = true → NoDup l).
  { intros l Hl. by apply bool_decide_eq_true in Hl. }
  split_and!.
  - destruct (getPlaylist_and_tag_filter Sample.tagged Sample.tagged_db
                (Sample.request SortPlaylist ["a"; "b"]) (Sample.file 1 "one.mp4" false))
      as [Hin _]; try reflexivity; try done.
    + apply Hnd. vm_compute. reflexivity.
    + constructor.
    + apply Hin. vm_compute. reflexivity.
  - destruct (getPlaylist_and_tag_filter Sample.tagged Sample.tagged_db
                (Sample.request SortPlaylist ["a"; "d"]) (Sample.file 1 "one.mp4" false))
      as [Hin _]; try reflexivity; try done.
    + apply Hnd. vm_compute. reflexivity.
    + constructor.
    + intros H. apply Hin in H. vm_compute in H. discriminate H.
  - destruct (getPlaylist_and_tag_filter Sample.tagged Sample.tagged_db
                (Sample.request SortPlaylist []) (Sample.file 2 "two.mp4" false))
      as [Hin _]; try reflexivity; try done.
    + constructor.
    + constructor. constructor.
    + apply Hin. vm_compute. reflexivity.
Defined.

Lemma baseSql_with_page d pl o lim off :
  baseSql d pl (buildPlaylistQueryParts (with_page o lim off)) =
  baseSql d pl (buildPlaylistQueryParts o).
Proof. reflexivity. Qed.

(** C4. The total of a response is the number of items the same request
    returns once its limit is removed, and it does not depend on the page
    window of the request. *)
Theorem getPlaylist_total_matches_filter m o lim off :
  total (getPlaylist m (with_page o lim off)) =
    Z.of_nat (length (items (getPlaylist m (with_page o None off)))) ∧
  total (getPlaylist m (with_page o lim off)) = total (getPlaylist m o).
Proof.
  unfold getPlaylist. destruct (db m) as [d|]; [|done].
  destruct (no_root m); [done|]. cbn [items total].
  split; [|done].
  unfold page_limit. cbn [limit with_page limit_offset].
  by rewrite length_fmap, order_rows_length.
Qed.

Lemma gt0_false (x : number) : (x <= 0)%Q → gt0 x = false.
Proof. intros Hx. unfold gt0. by rewrite (proj2 (Qle_bool_iff x 0) Hx). Qed.

(** C9. When the limit is absent, zero or negative, the response holds the
    whole filtered sequence whatever the offset: the same items as with
    offset 0, and as with no page window at all; and that sequence is
    complete.  With a database open under a root, the items are those of the
    rows that pass WHERE and HAVING, each once and no other: the item of
    every such row is in the response, every id in the response is that of
    such a row, and the number of items is [total]. *)
Theorem getPlaylist_offset_ignored_without_limit m o lim off :
  match lim with Some l => (l <= 0)%Q | None => True end →
  items (getPlaylist m (with_page o lim off)) =
    items (getPlaylist m (with_page o lim (Some 0%Q))) ∧
  items (getPlaylist m (with_page o lim off)) =
    items (getPlaylist m (with_page o None None)) ∧
  Z.of_nat (length (items (getPlaylist m (with_page o lim off)))) =
    total (getPlaylist m (with_page o lim off)) ∧
  ∀ d, db m = Some d → no_root m = false →
    let q := buildPlaylistQueryParts o in
    let pl := libraryPlaylistId m in
    items (getPlaylist m (with_page o lim off)) ≡ₚ to_item <$> baseSql d pl q ∧
    (∀ f, f ∈ files d → where_clause q f → having_clause q (group_of d pl f) →
          to_item (group_of d pl f) ∈ items (getPlaylist m (with_page o lim off)) ∧
          f_id f ∈ i_id <$> items (getPlaylist m (with_page o lim off))) ∧
    (∀ i, i ∈ i_id <$> items (getPlaylist m (with_page o lim off)) →
          ∃ f, f ∈ files d ∧ f_id f = i ∧ where_clause q f ∧
               having_clause q (group_of d pl f)).
Proof.
  intros Hlim.
  assert (Hp : ∀ k, page_limit (with_page o lim k) = None).
  { intros k. unfold page_limit. cbn [limit with_page].
    destruct lim as [l|]; [|done]. by rewrite gt0_false. }
  split_and!.
  - unfold getPlaylist. destruct (db m) as [d|]; [|done].
    destruct (no_root m); [done|]. cbn [items]. by rewrite !Hp.
  - unfold getPlaylist. destruct (db m) as [d|]; [|done].
    destruct (no_root m); [done|]. cbn [items]. by rewrite !Hp.
  - unfold getPlaylist. destruct (db m) as [d|]; [|done].
    destruct (no_root m); [done|]. cbn [items total]. rewrite Hp. cbn [limit_offset].
    by rewrite length_fmap, order_rows_length.
  - intros d Hd Hroot q pl.
    assert (Hitems : items (getPlaylist m (with_page o lim off)) ≡ₚ to_item <$> baseSql d pl q).
    { rewrite (getPlaylist_open m d _ Hd Hroot). cbn [items]. rewrite Hp. cbn [limit_offset].
      by rewrite order_rows_Permutation, baseSql_with_page. }
    split_and!; [exact Hitems| |].
    + intros f Hf Hw Hh.
      assert (Hin : to_item (group_of d pl f) ∈ items (getPlaylist m (with_page o lim off))).
      { rewrite Hitems. apply list_elem_of_fmap_2, elem_of_baseSql. by exists f. }
      split; [exact Hin|].
      change (f_id f) with (i_id (to_item (group_of d pl f))). by apply list_elem_of_fmap_2.
    + intros i. rewrite Hitems, <- list_fmap_compose.
      intros (g & -> & Hg)%list_elem_of_fmap.
      apply elem_of_baseSql in Hg as (f & Hf & -> & Hw & Hh). by exists f.
Qed.

Lemma getPlaylist_offset_ignored_without_limit_witness :
  items (getPlaylist Sample.tagged
           (with_page (Sample.request SortPlaylist []) (Some (-3)%Q) (Some 1%Q))) =
  items (getPlaylist Sample.tagged
           (with_page (Sample.request SortPlaylist []) None None)) ∧
  Z.of_nat (length (items (getPlaylist Sample.tagged
           (with_page (Sample.request SortPlaylist []) (Some (-3)%Q) (Some 1%Q))))) = 2 ∧
  2 ∈ i_id <$> items (getPlaylist Sample.tagged
           (with_page (Sample.request SortPlaylist []) (Some (-3)%Q) (Some 1%Q))).
Proof.
  destruct (getPlaylist_offset_ignored_without_limit Sample.tagged
              (Sample.request SortPlaylist []) (Some (-3)%Q) (Some 1%Q))
    as (_ & Hsame & Hlen & Hall).
  { vm_compute. discriminate. }
  destruct (Hall Sample.tagged_db eq_refl eq_refl) as (_ & Hin & _).
  split_and!; [exact Hsame|exact Hlen|].
  apply (Hin (Sample.file 2 "two.mp4" false)).
  - apply list_elem_of_further, list_elem_of_here.
  - exact I.
  - exact I.
Defined.

(** C2. For any catalog, filter, sort mode and seed, the page at offset 0
    with limit 2 followed by the page at offset 2 with limit 2 is the page at
    offset 0 with limit 4. *)
Theorem getPlaylist_pagination_composes m o :
  (items (getPlaylist m (with_page o (Some 2%Q) (Some 0%Q))) ++
   items (getPlaylist m (with_page o (Some 2%Q) (Some 2%Q))))%list =
  items (getPlaylist m (with_page o (Some 4%Q) (Some 0%Q))).
Proof.
  unfold getPlaylist. destruct (db m) as [d|]; [|done].
  destruct (no_root m); [done|]. cbn [items].
  rewrite !baseSql_with_page.
  change (orderBy (buildPlaylistQueryParts (with_page o _ _)))
    with (orderBy (buildPlaylistQueryParts o)).
  set (rows := order_rows _ _).
  change (page_limit (with_page o (Some 2%Q) _)) with (Some 2).
  change (page_limit (with_page o (Some 4%Q) _)) with (Some 4).
  change (page_offset (with_page o _ (Some 0%Q))) with 0.
  change (page_offset (with_page o _ (Some 2%Q))) with 2.
  unfold limit_offset. cbn [truthy Z.eqb negb].
  rewrite <- fmap_app. f_equal.
  change (Z.to_nat 0) with 0%nat. change (Z.to_nat 2) with 2%nat.
  change (Z.to_nat 4) with (2 + 2)%nat.
  rewrite drop_0. apply take_take_drop.
Qed.

(** *** Ordering *)

Lemma insert_row_sorted ob x l :
  total_le ob → trans_le ob →
  StronglySorted (order_le ob) l → StronglySorted (order_le ob) (insert_row ob x l).
Proof.
  intros Htot Htr. induction 1 as [|y l Hl IH Hy]; simpl.
  - repeat constructor.
  - destruct (order_le ob x y) eqn:Hxy.
    + constructor; [by constructor|].
      constructor; [by rewrite Hxy|].
      eapply Forall_impl; [exact Hy|]. intros z Hz. apply Is_true_true.
      eapply Htr; [exact Hxy|]. by apply Is_true_true.
    + constructor; [done|].
      rewrite insert_row_Permutation. constructor; [|done].
      apply Is_true_true. by apply Htot.
Qed.

Lemma order_rows_sorted ob l :
  total_le ob → trans_le ob → StronglySorted (order_le ob) (order_rows ob l).
Proof.
  intros Htot Htr. induction l as [|x l IH]; simpl; [constructor|].
  by apply insert_row_sorted.
Qed.

Lemma random_total s : total_le (ByRandom s).
Proof. intros a b. cbn [order_le]. rewrite Z.leb_gt, Z.leb_le. lia. Qed.

Lemma random_trans s : trans_le (ByRandom s).
Proof. intros a b c. cbn [order_le]. rewrite !Z.leb_le. lia. Qed.

Lemma order_index_total : total_le ByOrderIndex.
Proof.
  intros a b. cbn.
  rewrite orb_false_iff, andb_false_iff, orb_true_iff, andb_true_iff.
  rewrite !Z.ltb_ge, !Z.ltb_lt, !Z.eqb_neq, !Z.eqb_eq, Z.leb_gt, Z.leb_le. lia.
Qed.

Lemma order_index_trans : trans_le ByOrderIndex.
Proof.
  intros a b c. cbn.
  rewrite !orb_true_iff, !andb_true_iff, !Z.ltb_lt, !Z.eqb_eq, !Z.leb_le. lia.
Qed.

Lemma StronglySorted_limit_offset {A} (R : relation A) lim off (l : list A) :
  StronglySorted R l → StronglySorted R (limit_offset lim off l).
Proof.
  intros Hl. unfold limit_offset. destruct lim as [n|]; [|done].
  destruct (truthy n); [|done].
  rewrite <- (take_drop (Z.to_nat off) l) in Hl.
  apply StronglySorted_app_1_r in Hl.
  rewrite <- (take_drop (Z.to_nat n) (drop _ l)) in Hl.
  by apply StronglySorted_app_1_l in Hl.
Qed.

(** *** The seed *)

Lemma Math_trunc_small (x : number) : (-1 < x)%Q → (x < 1)%Q → Math_trunc x = 0.
Proof.
  destruct x as [n dn]. unfold Qlt, Math_trunc. cbn [Qnum Qden].
  intros Hlo Hhi.
  destruct (Z.le_gt_cases 0 n) as [Hn|Hn].
  - apply Z.quot_small. lia.
  - rewrite <- (Z.opp_involutive n), Z.quot_opp_l by lia.
    rewrite Z.quot_small; lia.
Qed.

Lemma effective_seed_pos s : 0 < effective_seed s.
Proof.
  unfold effective_seed, truthy.
  destruct (Z.eqb_spec (Z.abs (Math_trunc (default 1%Q s))) 0); cbn; lia.
Qed.

(** While the product stays below 2^53 the key is that of exact integer
    arithmetic. *)
Lemma sql_random_key_exact (id seed : Z) :
  0 < seed → Z.abs (id * seed) < 9007199254740992 →
  sql_random_key id seed = Z.rem (id * seed) 2147483647.
Proof.
  intros Hseed Hsmall. unfold sql_random_key.
  assert (Hid : Z.abs id < 9007199254740992) by nia.
  unfold round_to_double at 2. rewrite (proj2 (Z.ltb_lt _ _) Hid).
  unfold round_to_double. rewrite (proj2 (Z.ltb_lt _ _) Hsmall).
  unfold to_int64.
  rewrite (proj2 (Z.leb_gt _ _)) by lia. by rewrite (proj2 (Z.leb_gt _ _)) by lia.
Qed.

(** Past 2^53 it is not: with the seed 1793148845246 (a value of
    [Date.now()]) the product for id 10047 rounds to a double that leaves
    the remainder 10045, below the key 10046 of id 10046, where exact
    arithmetic gives 10047; and with a seed of 2^1000 every product
    saturates, so that every key is 1. *)
Remark sql_random_key_rounds :
  sql_random_key 10047 1793148845246 = 10045 ∧
  sql_random_key 10046 1793148845246 = 10046 ∧
  Z.rem (10047 * 1793148845246) 2147483647 = 10047 ∧
  sql_random_key 5 (2 ^ 1000) = 1 ∧ sql_random_key 7 (2 ^ 1000) = 1.
Proof. split_and!; by vm_compute. Qed.

(** C10. The random order is a function of the effective seed.  The
    effective seed is the absolute value of the truncated seed, or 1 when the
    seed is missing or truncates to zero (as every seed strictly between -1
    and 1 does); it is positive.  Two requests in random order that agree on
    the filter and page window and whose seeds have the same effective seed
    get the same response, whose items are in ascending order of the key
    [(id * seed) % 2147483647] as SQLite computes it on a seed bound as a
    REAL ([sql_random_key]: the product is rounded to a double and cast to
    INTEGER before the remainder is taken). *)
Theorem random_order_deterministic m o1 o2 :
  sort o1 = SortRandom → sort o2 = SortRandom →
  ratingMin o1 = ratingMin o2 → req_tags o1 = req_tags o2 →
  limit o1 = limit o2 → offset o1 = offset o2 →
  effective_seed (seed o1) = effective_seed (seed o2) →
  getPlaylist m o1 = getPlaylist m o2 ∧
  StronglySorted (fun a b => item_key (effective_seed (seed o1)) a
                             ≤ item_key (effective_seed (seed o1)) b)
    (items (getPlaylist m o1)) ∧
  0 < effective_seed (seed o1) ∧
  effective_seed (seed o1) =
    match seed o1 with
    | None => 1
    | Some x => if Z.abs (Math_trunc x) =? 0 then 1 else Z.abs (Math_trunc x)
    end ∧
  (∀ x, seed o1 = Some x → (-1 < x)%Q → (x < 1)%Q → effective_seed (seed o1) = 1).
Proof.
  intros Hs1 Hs2 Hr Ht Hl Ho Hseed.
  split_and!.
  - unfold getPlaylist, buildPlaylistQueryParts, buildOrderBy, page_limit, page_offset.
    by rewrite Hs1, Hs2, Hr, Ht, Hl, Ho, Hseed.
  - unfold getPlaylist. destruct (db m) as [d|]; [|constructor].
    destruct (no_root m); [constructor|]. cbn [items].
    apply StronglySorted_fmap with (R1 := fun a b => order_le (ByRandom (effective_seed (seed o1))) a b).
    + intros a b Hab. cbn [order_le] in Hab. apply Is_true_true in Hab.
      by apply Z.leb_le in Hab.
    + apply StronglySorted_limit_offset.
      unfold buildPlaylistQueryParts, buildOrderBy. cbn [orderBy]. rewrite Hs1.
      apply order_rows_sorted; [apply random_total|apply random_trans].
  - apply effective_seed_pos.
  - unfold effective_seed, truthy. destruct (seed o1) as [x|]; simpl; [|done].
    by destruct (Z.abs (Math_trunc x) =? 0).
  - intros x Hx Hlo Hhi. rewrite Hx. unfold effective_seed. simpl.
    by rewrite Math_trunc_small.
Qed.

Lemma random_order_deterministic_witness :
  getPlaylist Sample.tagged (Sample.page SortRandom (Some (-37 # 10)%Q) 0 2) =
  getPlaylist Sample.tagged (Sample.page SortRandom (Some 3%Q) 0 2).
Proof.
  apply (random_order_deterministic Sample.tagged
           (Sample.page SortRandom (Some (-37 # 10)%Q) 0 2)
           (Sample.page SortRandom (Some 3%Q) 0 2)); reflexivity.
Defined.

End Query.

(** * Properties of the mutation API *)

Section Mutations.

Implicit Types (d : DB) (m : LibraryManager) (f : FileRow).

Lemma with_db_same m d : db m = Some d → with_db m d = m.
Proof. destruct m as [r o p]. cbn. by intros ->. Qed.

Lemma set_files_same d : set_files d (files d) = d.
Proof. by destruct d. Qed.

(** An UPDATE whose WHERE clause matches no row changes nothing. *)
Lemma update_files_where_id_unknown fileId upd d :
  fileId ∉ f_id <$> files d → update_files_where_id fileId upd d = d.
Proof.
  intros Hid. unfold update_files_where_id.
  transitivity (set_files d (files d)); [|apply set_files_same]. f_equal.
  transitivity ((fun f => f) <$> files d); [|apply list_fmap_id].
  apply list_fmap_ext. intros i f Hf.
  case_bool_decide as Heq; [|done].
  destruct Hid. rewrite <- Heq. apply list_elem_of_fmap_2.
  by eapply list_elem_of_lookup_2.
Qed.

Lemma find_none_iff {A} (p : A → bool) (l : list A) :
  List.find p l = None ↔ ∀ x, x ∈ l → p x = false.
Proof.
  induction l as [|a l IH]; simpl.
  - split; [|done]. intros _ x Hx. by apply elem_of_nil in Hx.
  - destruct (p a) eqn:Hpa.
    + split; [done|]. intros H. specialize (H a (list_elem_of_here _ _)). congruence.
    + rewrite IH. split.
      * intros H x Hx. apply elem_of_cons in Hx as [->|Hx]; auto.
      * intros H x Hx. apply H. by apply list_elem_of_further.
Qed.

Lemma find_some_elem {A} (p : A → bool) (l : list A) x :
  List.find p l = Some x → x ∈ l ∧ p x = true.
Proof.
  intros H. apply List.find_some in H as [H1 H2]. by rewrite list_elem_of_In.
Qed.

Lemma select_file_tag_unknown d fileId tagId :
  Forall (fun r => ft_file_id r ∈ f_id <$> files d) (file_tags d) →
  fileId ∉ f_id <$> files d →
  select_file_tag d fileId tagId = None ∧
  (fileId, tagId) ∉ (fun r => (ft_file_id r, ft_tag_id r)) <$> file_tags d.
Proof.
  intros Hfk Hid. rewrite Forall_forall in Hfk. split.
  - unfold select_file_tag.
    rewrite (proj2 (find_none_iff _ _)); [done|].
    intros r Hr. apply bool_decide_eq_false. intros [<- _]. by apply Hid, Hfk.
  - intros (r & Heq & Hr)%list_elem_of_fmap. inversion Heq; subst.
    by apply Hid, Hfk.
Qed.

(** C7, as the code has it.  On a file id that has no row, [setRating],
    [setDuration] and [setLastPlayed] change nothing.  [toggleTag] is not a
    no-op: it creates the tag row when the name is new, and then throws on
    the foreign key of file_tags, writing no association. *)
Theorem mutation_on_unknown_id m d fileId (r ms : number) (now : Z) tagName :
  db m = Some d → wf_db d →
  fileId ∉ f_id <$> files d →
  setRating m fileId r = m ∧
  setDuration m fileId ms = m ∧
  setLastPlayed m now fileId = m ∧
  ∃ d', toggleTag m fileId tagName = (Thrown ForeignKeyConstraintFailed, with_db m d') ∧
        files d' = files d ∧
        file_playlists d' = file_playlists d ∧
        file_tags d' = file_tags d ∧
        tags d' = if bool_decide (tagName ∈ t_name <$> tags d) then tags d
                  else (tags d ++ [{| t_id := tags_seq d + 1; t_name := tagName |}])%list.
Proof.
  intros Hd Hwf Hid.
  unfold setRating, setDuration, setLastPlayed, toggleTag. rewrite Hd.
  rewrite !update_files_where_id_unknown by done.
  rewrite with_db_same by done. split_and!; [done..|].
  destruct Hwf as [_ _ _ _ _ Htags Hfk].
  unfold select_tag_id.
  destruct (List.find _ (tags d)) as [t|] eqn:Hfind; cbn [fmap option_fmap option_map].
  - apply find_some_elem in Hfind as [Ht Hname]. apply bool_decide_eq_true in Hname.
    rewrite Forall_forall in Htags. specialize (Htags t Ht).
    assert (truthy (t_id t) = true) as ->.
    { unfold truthy. apply negb_true_iff, Z.eqb_neq. lia. }
    destruct (select_file_tag_unknown d fileId (t_id t) Hfk Hid) as [-> Hpair].
    unfold insert_or_ignore_file_tag.
    rewrite bool_decide_eq_false_2 by done.
    rewrite bool_decide_eq_false_2 by (intros [? _]; done).
    exists d. split_and!; [done..|].
    rewrite bool_decide_eq_true_2; [done|].
    rewrite <- Hname. by apply list_elem_of_fmap_2.
  - assert (Hnew : tagName ∉ t_name <$> tags d).
    { intros (t & -> & Ht)%list_elem_of_fmap.
      apply (proj1 (find_none_iff _ _)) with (x := t) in Hfind; [|done].
      by apply bool_decide_eq_false in Hfind. }
    unfold insert_tag. rewrite bool_decide_eq_false_2 by done.
    set (d1 := Build_DB _ _ _ _ _ _ _).
    destruct (select_file_tag_unknown d1 fileId (tags_seq d + 1) Hfk Hid) as [-> Hpair].
    unfold insert_or_ignore_file_tag.
    rewrite bool_decide_eq_false_2 by done.
    rewrite bool_decide_eq_false_2 by (intros [? _]; done).
    by exists d1.
Qed.

Lemma sample_tagged_wf : wf_db Sample.tagged_db.
Proof.
  split; apply (bool_decide_unpack _); vm_compute; exact I.
Qed.

Lemma mutation_on_unknown_id_witness :
  setRating Sample.tagged 99 5 = Sample.tagged ∧
  fst (toggleTag Sample.tagged 99 "a") = Thrown ForeignKeyConstraintFailed.
Proof.
  destruct (mutation_on_unknown_id Sample.tagged Sample.tagged_db 99 5 0 0 "a")
    as (Hr & _ & _ & d' & Ht & _).
  - reflexivity.
  - exact sample_tagged_wf.
  - apply (bool_decide_unpack _). vm_compute. exact I.
  - split; [exact Hr|]. by rewrite Ht.
Defined.

(** C7 as stated fails for [toggleTag]: on the unknown id 99 and the new
    name zzz the call throws, and the tags table has grown by one row. *)
Lemma toggleTag_unknown_id_not_noop :
  ¬ 99 ∈ f_id <$> files Sample.tagged_db ∧
  fst (toggleTag Sample.tagged 99 "zzz") = Thrown ForeignKeyConstraintFailed ∧
  (length ∘ tags) <$> db (snd (toggleTag Sample.tagged 99 "zzz")) = Some 5%nat ∧
  (length ∘ tags) <$> db Sample.tagged = Some 4%nat.
Proof.
  split_and!; [|reflexivity..].
  apply (bool_decide_unpack _). vm_compute. exact I.
Qed.

End Mutations.

(** * Properties of the scanner *)

Section Scanner.

Implicit Types (e : DirEntry) (entries : list DirEntry) (stack : Stack)
  (results : list ScannedFile).

Lemma scan_entries_throws current entries stack results :
  existsb stat_fails entries = true →
  scan_entries current entries stack results = Thrown FsError.
Proof.
  revert stack results. induction entries as [|e entries IH]; intros stack results; [done|].
  cbn [existsb scan_entries]. destruct e as [nm l|nm [st|]|nm]; cbn [stat_fails orb].
  - intros H. case_bool_decide; by apply IH.
  - intros H. case_bool_decide; [by apply IH|].
    destruct (isVideoFile nm); cbn [negb]; by apply IH.
  - case_bool_decide; cbn [negb andb orb]; [by apply IH|].
    destruct (isVideoFile nm); cbn [negb orb]; [done|by apply IH].
  - by apply IH.
Qed.

Lemma scan_entries_returns current entries stack results :
  existsb stat_fails entries = false →
  ∃ results', scan_entries current entries stack results =
              Normal ((pushed current entries ++ stack)%list, results').
Proof.
  revert stack results. induction entries as [|e entries IH]; intros stack results.
  { intros _. by exists results. }
  cbn [existsb scan_entries pushed]. destruct e as [nm l|nm [st|]|nm]; cbn [stat_fails orb].
  - intros H. case_bool_decide; [by apply IH|].
    destruct (IH ((join_path current nm, l) :: stack) results H) as [r ->].
    exists r. by rewrite <- app_assoc.
  - intros H. case_bool_decide; [by apply IH|].
    destruct (isVideoFile nm); cbn [negb]; by apply IH.
  - case_bool_decide; cbn [negb andb orb]; [by apply IH|].
    destruct (isVideoFile nm); cbn [negb orb]; [done|by apply IH].
  - by apply IH.
Qed.

Lemma stack_count_app stack1 stack2 :
  stack_count (stack1 ++ stack2) = (stack_count stack1 + stack_count stack2)%nat.
Proof. unfold stack_count. by rewrite List.map_app, list_sum_app. Qed.

Lemma stack_count_cons current listing stack :
  stack_count ((current, listing) :: stack) = (listing_count listing + stack_count stack)%nat.
Proof. reflexivity. Qed.

Lemma stack_count_pushed current entries :
  (stack_count (pushed current entries) ≤ list_sum (List.map dir_count entries))%nat.
Proof.
  induction entries as [|e entries IH]; [done|].
  cbn [pushed List.map]. unfold list_sum in *. cbn [foldr].
  destruct e as [nm l|nm st|nm].
  - case_bool_decide; [lia|].
    rewrite stack_count_app. unfold stack_count at 2. cbn.
    destruct l; cbn; lia.
  - cbn. lia.
  - cbn. lia.
Qed.

Lemma existsb_app_bool {A} (p : A → bool) (l1 l2 : list A) :
  existsb p (l1 ++ l2) = existsb p l1 || existsb p l2.
Proof. apply List.existsb_app. Qed.

(** A listing fails when one of its own video files cannot be stat-ed or
    one of the directories it pushes fails. *)
Lemma existsb_entry_fails current entries :
  existsb entry_fails entries =
  existsb stat_fails entries || existsb (fun p => listing_fails (snd p)) (pushed current entries).
Proof.
  induction entries as [|e entries IH]; [done|].
  cbn [existsb pushed]. rewrite IH. destruct e as [nm l|nm [st|]|nm]; cbn [entry_fails stat_fails].
  - case_bool_decide; cbn [negb andb orb]; [done|].
    rewrite existsb_app_bool. cbn [existsb snd]. unfold listing_fails at 3.
    destruct (existsb stat_fails entries); cbn [orb]; [by rewrite orb_true_r|].
    rewrite orb_false_r. apply orb_comm.
  - by rewrite andb_false_r.
  - destruct (negb _ && _); cbn [orb andb]; [done|]. done.
  - done.
Qed.

(** The loop ends within as many iterations as there are directories, with
    an exception exactly when some pending directory fails. *)
Lemma collect_loop_fuel fuel stack results :
  (stack_count stack ≤ fuel)%nat →
  if existsb (fun p => listing_fails (snd p)) stack
  then collect_loop fuel stack results = Some (Thrown FsError)
  else ∃ found, collect_loop fuel stack results = Some (Normal found).
Proof.
  revert stack results. induction fuel as [|fuel IH]; intros stack results Hfuel.
  - destruct stack as [|[current listing] stack]; [by exists results|].
    rewrite stack_count_cons in Hfuel. destruct listing; cbn [listing_count] in Hfuel; lia.
  - destruct stack as [|[current listing] stack]; [by exists results|].
    cbn [existsb snd collect_loop]. destruct listing as [entries|]; [|done].
    cbn [listing_fails]. rewrite (existsb_entry_fails current).
    destruct (existsb stat_fails entries) eqn:Hstat; cbn [orb].
    + by rewrite scan_entries_throws.
    + destruct (scan_entries_returns current entries stack results Hstat) as [r ->].
      rewrite <- existsb_app_bool. apply IH.
      rewrite stack_count_app. pose proof (stack_count_pushed current entries).
      rewrite stack_count_cons in Hfuel. cbn [listing_count] in Hfuel. lia.
Qed.

Lemma collectFiles_spec tree :
  if listing_fails tree then collectFiles tree = Thrown FsError
  else ∃ found, collectFiles tree = Normal found.
Proof.
  unfold collectFiles.
  pose proof (collect_loop_fuel (listing_count tree) [("", tree)] []) as H.
  cbn [existsb snd] in H. rewrite orb_false_r in H.
  destruct (listing_fails tree).
  - rewrite H; [done|]. unfold stack_count. cbn. lia.
  - destruct H as [found ->]; [|by exists found]. unfold stack_count. cbn. lia.
Qed.

(** C8, as the code has it.  The walk has no error handling: when
    [readdirSync] throws on a directory or [statSync] throws on a video file
    (outside [.cache]), [collectFiles] throws and [scanLibrary] throws with
    it, before its transaction, so the catalog is as it was.  Otherwise the
    walk returns.  Entries that are neither directories nor regular files
    (symbolic links, broken or not) are passed over. *)
Theorem scan_traversal_error_aborts m d tree now :
  db m = Some d → no_root m = false →
  (if listing_fails tree
   then collectFiles tree = Thrown FsError ∧ scanLibrary m tree now = (Thrown FsError, m)
   else ∃ found, collectFiles tree = Normal found) ∧
  (∀ current nm rest stack results,
     scan_entries current (EntryOther nm :: rest) stack results =
     scan_entries current rest stack results).
Proof.
  intros Hd Hr. split; [|done].
  pose proof (collectFiles_spec tree) as H.
  destruct (listing_fails tree); [|done].
  split; [done|]. unfold scanLibrary. by rewrite Hd, Hr, H.
Qed.

Lemma scan_traversal_error_aborts_witness :
  scanLibrary Sample.fresh Sample.tree_unreadable Sample.clock = (Thrown FsError, Sample.fresh).
Proof.
  destruct (scan_traversal_error_aborts Sample.fresh Sample.empty_db
              Sample.tree_unreadable Sample.clock eq_refl eq_refl) as [H _].
  exact (proj2 H).
Defined.

(** C8 as stated fails: with an unreadable folder next to two videos the
    walk does not return the two videos, it throws, and so does the scan. *)
Lemma collectFiles_unreadable_folder_throws :
  collectFiles Sample.tree_unreadable = Thrown FsError ∧
  fst (scanLibrary Sample.fresh Sample.tree_unreadable Sample.clock) = Thrown FsError ∧
  ∃ found, collectFiles (Some [EntryFile "a.mp4" (Some Sample.stats0);
                               EntryFile "b.webm" (Some Sample.stats0)]) = Normal found ∧
           relativePath <$> found = ["a.mp4"; "b.webm"].
Proof. split_and!; [reflexivity..|]. eexists. split; reflexivity. Qed.

End Scanner.

(** * Properties of the manual order *)

Section Reorder.

Implicit Types (d : DB) (m : LibraryManager) (r : FilePlaylistRow) (ids : list Z).

Lemma set_file_playlists_same d : set_file_playlists d (file_playlists d) = d.
Proof. by destruct d. Qed.

Lemma save_order_from_rows pl index ids d :
  save_order_from pl index ids d =
  set_file_playlists d (renumber_from pl index ids <$> file_playlists d).
Proof.
  revert index d. induction ids as [|i ids IH]; intros index d; cbn [save_order_from].
  - change (renumber_from pl index []) with (fun r : FilePlaylistRow => r).
    by rewrite list_fmap_id, set_file_playlists_same.
  - rewrite IH. unfold update_order_index, set_file_playlists. cbn.
    by rewrite <- list_fmap_compose.
Qed.

Lemma renumber_from_key pl index ids r :
  fp_file_id (renumber_from pl index ids r) = fp_file_id r ∧
  fp_playlist_id (renumber_from pl index ids r) = fp_playlist_id r.
Proof.
  revert index r. induction ids as [|i ids IH]; intros index r; [done|].
  cbn [renumber_from]. destruct (IH (index + 1) (renumber pl index i r)) as [-> ->].
  unfold renumber. by case_bool_decide.
Qed.

Lemma renumber_from_unlisted pl index ids r :
  fp_file_id r ∉ ids ∨ fp_playlist_id r ≠ pl → renumber_from pl index ids r = r.
Proof.
  revert index. induction ids as [|i ids IH]; intros index H; [done|].
  cbn [renumber_from]. unfold renumber.
  rewrite bool_decide_eq_false_2.
  - apply IH. destruct H as [H|H]; [left|by right]. by apply not_elem_of_cons in H as [_ H].
  - intros [Hi Hp]. destruct H as [H|H]; [|done]. apply H. rewrite Hi. by left.
Qed.

(** A listed member gets its position in the list as order index. *)
Lemma renumber_from_listed pl index ids r (k : nat) :
  NoDup ids → ids !! k = Some (fp_file_id r) → fp_playlist_id r = pl →
  fp_order_index (renumber_from pl index ids r) = Some (index + Z.of_nat k).
Proof.
  revert index k r. induction ids as [|i ids IH]; intros index k r Hnd Hk Hp; [done|].
  apply NoDup_cons in Hnd as [Hi Hnd]. cbn [renumber_from]. destruct k as [|k].
  - cbn in Hk. injection Hk as ->. unfold renumber. rewrite bool_decide_eq_true_2 by done.
    rewrite renumber_from_unlisted by (by left). cbn. f_equal. lia.
  - cbn in Hk. unfold renumber. rewrite bool_decide_eq_false_2.
    + rewrite (IH (index + 1) k r Hnd Hk Hp). f_equal. lia.
    + intros [Heq _]. apply Hi. rewrite <- Heq. by eapply list_elem_of_lookup_2.
Qed.

Lemma find_fmap_key {A} (p : A → bool) (g : A → A) (l : list A) :
  (∀ x, p (g x) = p x) → List.find p (g <$> l) = g <$> List.find p l.
Proof.
  intros Hg. induction l as [|x l IH]; [done|].
  cbn. rewrite Hg. by destruct (p x).
Qed.

Lemma membership_save_order pl index ids d fileId :
  membership (save_order_from pl index ids d) pl fileId =
  renumber_from pl index ids <$> membership d pl fileId.
Proof.
  rewrite save_order_from_rows. unfold membership. cbn [file_playlists set_file_playlists].
  apply find_fmap_key. intros r.
  by destruct (renumber_from_key pl index ids r) as [-> ->].
Qed.

Lemma membership_some d pl fileId :
  (fileId, pl) ∈ (fun r => (fp_file_id r, fp_playlist_id r)) <$> file_playlists d →
  ∃ r, membership d pl fileId = Some r ∧ fp_file_id r = fileId ∧ fp_playlist_id r = pl.
Proof.
  intros (r & Heq & Hr)%list_elem_of_fmap. unfold membership.
  destruct (List.find _ _) as [r'|] eqn:Hfind.
  - apply find_some_elem in Hfind as [_ Hp]. apply bool_decide_eq_true in Hp as [? ?]. eauto.
  - apply (proj1 (find_none_iff _ _)) with (x := r) in Hfind; [|done].
    apply bool_decide_eq_false in Hfind. inversion Heq; subst. by destruct Hfind.
Qed.

Lemma order_index_after_saveOrder pl ids d fileId (k : nat) :
  NoDup ids → ids !! k = Some fileId →
  (fileId, pl) ∈ (fun r => (fp_file_id r, fp_playlist_id r)) <$> file_playlists d →
  membership (save_order_from pl 0 ids d) pl fileId ≫= fp_order_index = Some (Z.of_nat k).
Proof.
  intros Hnd Hk Hmem. rewrite membership_save_order.
  destruct (membership_some d pl fileId Hmem) as (r & -> & <- & Hp).
  cbn. by rewrite (renumber_from_listed pl 0 ids r k).
Qed.

Lemma filter_fmap_list {A B} (key : A → B) (P : B → Prop) `{!∀ x, Decision (P x)}
    (l : list A) :
  filter P (key <$> l) = key <$> filter (fun x => P (key x)) l.
Proof.
  induction l as [|x l IH]; [done|].
  rewrite fmap_cons, !filter_cons. case_decide; [|done]. by rewrite fmap_cons, IH.
Qed.

Lemma StronglySorted_filter {A} (R : relation A) (P : A → Prop) `{!∀ x, Decision (P x)}
    (l : list A) :
  StronglySorted R l → StronglySorted R (filter P l).
Proof.
  induction 1 as [|x l Hl IH Hx]; [constructor|].
  rewrite filter_cons. case_decide; [|done].
  constructor; [done|].
  apply Forall_forall. intros y Hy%list_elem_of_filter.
  rewrite Forall_forall in Hx. apply Hx. by destruct Hy.
Qed.

Lemma StronglySorted_strengthen {A} (R : relation A) (P : A → Prop) (l : list A) :
  StronglySorted R l → Forall P l → StronglySorted (fun a b => R a b ∧ P a ∧ P b) l.
Proof.
  induction 1 as [|x l Hl IH Hx]; intros HP; [constructor|].
  apply Forall_cons in HP as [HPx HP]. constructor; [by apply IH|].
  rewrite Forall_forall in Hx, HP |- *. auto.
Qed.

Lemma before_antisymm ids : NoDup ids → AntiSymm eq (before ids).
Proof.
  intros Hnd x y (i & j & Hi & Hj & Hij) (j' & i' & Hj' & Hi' & Hji).
  assert (i = i') by by eapply NoDup_lookup.
  assert (j = j') by by eapply NoDup_lookup.
  assert (i = j) by lia. congruence.
Qed.

Lemma before_sorted_suffix (pre ids : list Z) :
  StronglySorted (before (pre ++ ids)) ids.
Proof.
  revert pre. induction ids as [|x ids IH]; intros pre; [constructor|].
  constructor.
  - specialize (IH (pre ++ [x])%list). by rewrite <- app_assoc in IH.
  - apply Forall_forall. intros y Hy.
    apply list_elem_of_lookup in Hy as [j Hj].
    exists (length pre), (length pre + S j)%nat. split_and!; [| |lia].
    + by rewrite lookup_app_r, Nat.sub_diag by lia.
    + rewrite lookup_app_r by lia.
      replace (length pre + S j - length pre)%nat with (S j) by lia. done.
Qed.

Lemma before_sorted ids : StronglySorted (before ids) ids.
Proof. apply (before_sorted_suffix [] ids). Qed.

Lemma filter_all {A} (P : A → Prop) `{!∀ x, Decision (P x)} (l : list A) :
  (∀ x, x ∈ l → P x) → filter P l = l.
Proof.
  induction l as [|x l IH]; intros Hall; [done|].
  rewrite filter_cons_True by (apply Hall; by left).
  f_equal. apply IH. intros y Hy. apply Hall. by right.
Qed.

(** The ids of the selected groups are distinct. *)
Lemma baseSql_ids_NoDup d pl q :
  NoDup (f_id <$> files d) → NoDup ((f_id ∘ g_file) <$> baseSql d pl q).
Proof.
  intros Hnd. unfold baseSql.
  rewrite (filter_fmap_list (group_of d pl) (fun g => having_clause q g)).
  rewrite <- list_fmap_compose.
  eapply sublist_NoDup; [exact Hnd|].
  apply fmap_sublist. etrans; apply sublist_filter.
Qed.

(** C6, as the code has it.  Let the members of the default collection be
    exactly the ids of the list, each listed once.  After [saveOrder] the
    order index of each listed member is its position in the list (0, 1, 2,
    ...).  A query in playlist order returns the listed ids that it selects
    (not flagged missing, passing the filter) in the order of the list; when
    the selected ids are exactly the listed ones, the result is the list.
    (A file that has no membership is sorted with order index 0, by id, and
    does not follow the list.) *)
Theorem saveOrder_then_playlist_order m d ids o :
  db m = Some d → no_root m = false →
  NoDup (f_id <$> files d) → NoDup ids →
  (∀ i, i ∈ ids ↔
        (i, libraryPlaylistId m) ∈
          (fun r => (fp_file_id r, fp_playlist_id r)) <$> file_playlists d) →
  sort o = SortPlaylist → page_limit o = None →
  let m' := saveOrder m ids in
  let result := i_id <$> items (getPlaylist m' o) in
  (∀ (k : nat) i, ids !! k = Some i →
     ∃ d', db m' = Some d' ∧
           membership d' (libraryPlaylistId m) i ≫= fp_order_index = Some (Z.of_nat k)) ∧
  filter (fun i => i ∈ ids) result = filter (fun i => i ∈ result) ids ∧
  ((∀ i, i ∈ result ↔ i ∈ ids) → result = ids).
Proof.
  intros Hd Hr Hfiles Hnd Hmem Hsort Hlim m' result.
  set (pl := libraryPlaylistId m) in *.
  set (d' := save_order_from pl 0 ids d).
  assert (Hm' : m' = with_db m d') by (unfold m', saveOrder; by rewrite Hd).
  assert (Hidx : ∀ (k : nat) i, ids !! k = Some i →
                 membership d' pl i ≫= fp_order_index = Some (Z.of_nat k)).
  { intros k i Hk. apply order_index_after_saveOrder; [done..|].
    apply Hmem. by eapply list_elem_of_lookup_2. }
  assert (Hfiles' : files d' = files d).
  { unfold d'. by rewrite save_order_from_rows. }
  assert (Hmain : filter (fun i => i ∈ ids) result = filter (fun i => i ∈ result) ids).
  { assert (Hres : ∃ rows, result = (f_id ∘ g_file) <$> rows ∧
                     rows ≡ₚ baseSql d' pl (buildPlaylistQueryParts o) ∧
                     StronglySorted (order_le ByOrderIndex) rows).
    { exists (order_rows ByOrderIndex (baseSql d' pl (buildPlaylistQueryParts o))).
      split_and!.
      - unfold result. rewrite Hm'.
        rewrite (getPlaylist_open (with_db m d') d' o eq_refl Hr). cbn [items].
        rewrite Hlim. cbn [limit_offset].
        rewrite <- list_fmap_compose.
        unfold buildPlaylistQueryParts at 1. cbn [orderBy]. unfold buildOrderBy.
        by rewrite Hsort.
      - apply order_rows_Permutation.
      - apply order_rows_sorted; [apply order_index_total|apply order_index_trans]. }
    destruct Hres as (rows & Hresult & Hperm & Hsorted).
    pose proof (before_antisymm ids Hnd) as Hanti.
    apply (StronglySorted_unique (before ids)).
    - rewrite Hresult, filter_fmap_list.
      set (P := fun g : GroupRow => ∃ k : nat, ids !! k = Some (f_id (g_file g)) ∧
                                     g_order_index g = Some (Z.of_nat k)).
      apply StronglySorted_fmap
        with (R1 := fun a b => Is_true (order_le ByOrderIndex a b) ∧ P a ∧ P b).
      + intros a b (Hle & (ka & Hka & Hoa) & (kb & Hkb & Hob)).
        exists ka, kb. split_and!; [done..|].
        apply Is_true_true in Hle. cbn in Hle. rewrite Hoa, Hob in Hle. cbn in Hle.
        rewrite orb_true_iff, andb_true_iff, Z.ltb_lt, Z.eqb_eq in Hle. lia.
      + apply StronglySorted_strengthen; [by apply StronglySorted_filter|].
        apply Forall_forall. intros g [Hg Hin]%list_elem_of_filter.
        rewrite Hperm in Hin.
        apply elem_of_baseSql in Hin as (f & _ & -> & _).
        cbn in Hg. apply list_elem_of_lookup in Hg as [k Hk].
        exists k. cbn. split; [done|]. by apply Hidx.
    - apply StronglySorted_filter, before_sorted.
    - apply NoDup_Permutation.
      + apply NoDup_filter. rewrite Hresult, Hperm.
        apply baseSql_ids_NoDup. by rewrite Hfiles'.
      + by apply NoDup_filter.
      + intros x. rewrite !list_elem_of_filter. tauto. }
  split_and!.
  - intros k i Hk. exists d'. split; [by rewrite Hm'|]. by apply Hidx.
  - exact Hmain.
  - intros Hsame. rewrite <- (filter_all (fun i => i ∈ ids) result) by apply Hsame.
    rewrite Hmain. apply filter_all. intros x. apply Hsame.
Qed.

Lemma saveOrder_then_playlist_order_witness :
  i_id <$> items (getPlaylist (saveOrder Sample.three [3; 1; 2])
                    (Sample.request SortPlaylist [])) = [3; 1; 2] ∧
  ∃ d', db (saveOrder Sample.three [3; 1; 2]) = Some d' ∧
        membership d' 1 3 ≫= fp_order_index = Some 0.
Proof.
  destruct (saveOrder_then_playlist_order Sample.three Sample.three_db [3; 1; 2]
              (Sample.request SortPlaylist [])) as (Hidx & _ & Hsame);
    try reflexivity.
  - apply (bool_decide_unpack _). vm_compute. exact I.
  - apply (bool_decide_unpack _). vm_compute. exact I.
  - intros i. cbn. rewrite !elem_of_cons, !elem_of_nil.
    split; [intros [->|[->|[->|[]]]]; tauto|].
    intros [H|[H|[H|[]]]]; injection H as ->; tauto.
  - split; [|exact (Hidx 0%nat 3 eq_refl)].
    apply Hsame. intros i.
    change (i_id <$> items (getPlaylist (saveOrder Sample.three [3; 1; 2])
                              (Sample.request SortPlaylist []))) with [3; 1; 2].
    done.
Defined.

(** C6 as stated fails.  With a non-missing file 4 that has no membership,
    the members are exactly 3, 1, 2 and the query after [saveOrder [3; 1; 2]]
    returns 3, 4, 1, 2.  With file 1 flagged missing by a rescan, the members
    are still 1, 2, 3 and the query returns 3, 2. *)
Lemma saveOrder_result_not_list_then_rest :
  i_id <$> items (getPlaylist (saveOrder Sample.stray [3; 1; 2])
                    (Sample.request SortPlaylist [])) = [3; 4; 1; 2] ∧
  (fun r => (fp_file_id r, fp_playlist_id r)) <$> file_playlists Sample.stray_db
    = [(1, 1); (2, 1); (3, 1)] ∧
  i_id <$> items (getPlaylist (saveOrder Sample.rescanned [3; 1; 2])
                    (Sample.request SortPlaylist [])) = [3; 2] ∧
  (fun d => (fun r => (fp_file_id r, fp_playlist_id r)) <$> file_playlists d)
    <$> db Sample.rescanned = Some [(1, 1); (2, 1); (3, 1)].
Proof. split_and!; reflexivity. Qed.

End Reorder.

(** * Properties of the reconciler *)

Section Reconcile.

Implicit Types (d : DB) (m : LibraryManager) (f : FileRow) (file : ScannedFile)
  (s : ScanState).

(** *** The statements *)

Lemma update_files_ids fileId upd d :
  (∀ f, f_id (upd f) = f_id f) →
  f_id <$> files (update_files_where_id fileId upd d) = f_id <$> files d.
Proof.
  intros Hupd. cbn. rewrite <- list_fmap_compose. apply list_fmap_ext.
  intros i f _. cbn. by case_bool_decide.
Qed.

Lemma update_files_paths fileId upd d :
  (∀ f, f_path (upd f) = f_path f) →
  f_path <$> files (update_files_where_id fileId upd d) = f_path <$> files d.
Proof.
  intros Hupd. cbn. rewrite <- list_fmap_compose. apply list_fmap_ext.
  intros i f _. cbn. by case_bool_decide.
Qed.

Lemma elem_of_update_files fileId upd d f' :
  f' ∈ files (update_files_where_id fileId upd d) ↔
  ∃ f, f ∈ files d ∧ f' = if bool_decide (f_id f = fileId) then upd f else f.
Proof. cbn. rewrite list_elem_of_fmap. naive_solver. Qed.

(** An UPDATE that rewrites the one matching row to itself changes nothing. *)
Lemma update_files_fixed fileId upd d :
  (∀ f, f ∈ files d → f_id f = fileId → upd f = f) →
  update_files_where_id fileId upd d = d.
Proof.
  intros Hfix. unfold update_files_where_id.
  transitivity (set_files d (files d)); [|apply set_files_same]. f_equal.
  transitivity ((fun f => f) <$> files d); [|apply list_fmap_id].
  apply list_fmap_ext. intros i f Hf. case_bool_decide; [|done].
  apply Hfix; [|done]. by eapply list_elem_of_lookup_2.
Qed.

Lemma with_disk_attrs_idemp file f :
  with_disk_attrs file (with_disk_attrs file f) = with_disk_attrs file f.
Proof. done. Qed.

Lemma with_missing_fixed f : f_is_missing f = true → with_missing f = f.
Proof. destruct f. cbn. by intros ->. Qed.

Lemma insertFilePlaylist_spec fileId pl index d :
  fileId ∈ f_id <$> files d →
  ∃ d', insertFilePlaylist fileId pl index d = Normal d' ∧
        files d' = files d ∧ files_seq d' = files_seq d ∧
        tags d' = tags d ∧ tags_seq d' = tags_seq d ∧
        file_tags d' = file_tags d ∧ file_tags_seq d' = file_tags_seq d ∧
        (fileId, pl) ∈ member_keys d' ∧
        (member_keys d' = member_keys d ∨
         (¬ (fileId, pl) ∈ member_keys d ∧
          member_keys d' = (member_keys d ++ [(fileId, pl)])%list)).
Proof.
  intros Hid. unfold insertFilePlaylist. fold (member_keys d).
  case_bool_decide as Hin.
  - exists d. split_and!; auto.
  - rewrite bool_decide_eq_true_2 by done.
    eexists. split; [done|]. unfold member_keys. cbn. rewrite fmap_app. cbn.
    split_and!; try done.
    + apply elem_of_app. right. by left.
    + right. done.
Qed.

Lemma insertFilePlaylist_present fileId pl index d :
  (fileId, pl) ∈ member_keys d → insertFilePlaylist fileId pl index d = Normal d.
Proof. intros Hin. unfold insertFilePlaylist. fold (member_keys d). by rewrite bool_decide_eq_true_2. Qed.

(** *** The lookup table *)

Lemma build_map_not_in (acc : gmap string (Z * option Z)) (existing : list ExistingRow) p :
  p ∉ e_path <$> existing →
  foldl (fun acc row => <[e_path row := (e_id row, e_order_index row)]> acc) acc existing !! p
  = acc !! p.
Proof.
  revert acc. induction existing as [|row existing IH]; intros acc Hp; [done|].
  rewrite fmap_cons in Hp. apply not_elem_of_cons in Hp as [Hne Hp].
  cbn [foldl]. rewrite IH by done. by rewrite lookup_insert_ne.
Qed.

Lemma build_map_in (acc : gmap string (Z * option Z)) (existing : list ExistingRow) row :
  NoDup (e_path <$> existing) → row ∈ existing →
  foldl (fun acc row => <[e_path row := (e_id row, e_order_index row)]> acc) acc existing
    !! e_path row = Some (e_id row, e_order_index row).
Proof.
  revert acc. induction existing as [|row' existing IH]; intros acc Hnd Hrow.
  { by apply elem_of_nil in Hrow. }
  rewrite fmap_cons in Hnd. apply NoDup_cons in Hnd as [Hfirst Hnd].
  cbn [foldl]. apply elem_of_cons in Hrow as [->|Hrow].
  - rewrite build_map_not_in by done. by rewrite lookup_insert_eq.
  - by apply IH.
Qed.

Lemma select_existing_paths d pl : e_path <$> select_existing d pl = f_path <$> files d.
Proof. unfold select_existing. by rewrite <- list_fmap_compose. Qed.

Lemma select_existing_ids d pl : e_id <$> select_existing d pl = f_id <$> files d.
Proof. unfold select_existing. by rewrite <- list_fmap_compose. Qed.

Lemma map_lookup_none d pl p :
  p ∉ f_path <$> files d → build_map (select_existing d pl) !! p = None.
Proof.
  intros Hp. unfold build_map. rewrite build_map_not_in; [done|].
  by rewrite select_existing_paths.
Qed.

Lemma map_lookup_some d pl f :
  NoDup (f_path <$> files d) → f ∈ files d →
  build_map (select_existing d pl) !! f_path f =
  Some (f_id f, membership d pl (f_id f) ≫= fp_order_index).
Proof.
  intros Hnd Hf. unfold build_map.
  set (row := {| e_id := f_id f; e_path := f_path f;
                 e_order_index := membership d pl (f_id f) ≫= fp_order_index |}).
  change (f_path f) with (e_path row).
  rewrite build_map_in; [done|by rewrite select_existing_paths|].
  unfold select_existing. apply list_elem_of_fmap. by exists f.
Qed.

Lemma membership_is_some d pl fileId r :
  membership d pl fileId = Some r → (fileId, pl) ∈ member_keys d.
Proof.
  intros [Hr Hp]%find_some_elem. apply bool_decide_eq_true in Hp as [<- <-].
  unfold member_keys. apply list_elem_of_fmap. by exists r.
Qed.

(** *** The transaction body *)

Lemma scan_inv_start d0 pl next :
  wf_db d0 →
  scan_inv d0 pl [] {| s_db := d0; nextOrder := next; added := 0; updated := 0; seenIds := ∅ |}.
Proof.
  intros [Hids Hpaths Hseq Hkeys Hfk _ _].
  split; cbn [s_db seenIds added updated]; try done.
  - intros f Hf. left. by exists f.
  - intros f0 file _ Hfile. by apply elem_of_nil in Hfile.
  - intros file Hfile. by apply elem_of_nil in Hfile.
Qed.

(** A scanned file whose path the catalog already holds. *)
Lemma scan_file_existing d0 pl now done s file f0 :
  NoDup (f_id <$> files d0) → NoDup (f_path <$> files d0) →
  scan_inv d0 pl done s →
  relativePath file ∉ relativePath <$> done →
  f0 ∈ files d0 → f_path f0 = relativePath file →
  ∃ s', scan_file (build_map (select_existing d0 pl)) pl now s file = Normal s' ∧
        scan_inv d0 pl (done ++ [file]) s' ∧
        added s' = added s ∧ updated s' = updated s + 1.
Proof.
  intros Hids0 Hpaths0 Hinv Hnew Hf0 Hpath.
  destruct Hinv as [Hids Hpaths Hseq Hkeys Hfk Htags Hold Horigin Hunt Hupd Hdone Hseen Hcnt].
  set (d := s_db s) in *.
  assert (Hf0d : f0 ∈ files d) by (apply Hunt; [done|by rewrite Hpath]).
  unfold scan_file. rewrite <- Hpath, (map_lookup_some d0 pl f0) by done. fold d.
  set (oi := membership d0 pl (f_id f0) ≫= fp_order_index).
  set (d1 := updateFile (f_id f0) file d).
  assert (Hids1 : f_id <$> files d1 = f_id <$> files d) by by apply update_files_ids.
  assert (Hpaths1 : f_path <$> files d1 = f_path <$> files d) by by apply update_files_paths.
  assert (Hkeys1 : member_keys d1 = member_keys d) by done.
  (* a row of [d] other than the matched one is still there *)
  assert (Hkeep : ∀ f, f ∈ files d → f_path f ≠ f_path f0 → f ∈ files d1).
  { intros f Hf Hne. apply elem_of_update_files. exists f. split; [done|].
    rewrite bool_decide_eq_false_2; [done|]. intros Heq. apply Hne.
    by rewrite (NoDup_fmap_inj f_id (files d) f f0 Hids Hf Hf0d Heq). }
  assert (Hmatched : with_disk_attrs file f0 ∈ files d1).
  { apply elem_of_update_files. exists f0. split; [done|]. by rewrite bool_decide_eq_true_2. }
  assert (Himage : ∀ f', f' ∈ files d1 →
             ∃ f, f ∈ files d ∧ f_id f' = f_id f ∧ f_path f' = f_path f).
  { intros f' (f & Hf & ->)%elem_of_update_files. exists f. by case_bool_decide. }
  assert (Hback : ∃ d2 next,
             (match oi with
              | None =>
                  match insertFilePlaylist (f_id f0) pl (nextOrder s) d1 with
                  | Thrown e => Thrown e
                  | Normal d2 => Normal (d2, nextOrder s + 1)
                  end
              | Some _ => Normal (d1, nextOrder s)
              end) = Normal (d2, next) ∧
             files d2 = files d1 ∧ files_seq d2 = files_seq d ∧
             tags d2 = tags d ∧ tags_seq d2 = tags_seq d ∧
             file_tags d2 = file_tags d ∧ file_tags_seq d2 = file_tags_seq d ∧
             (f_id f0, pl) ∈ member_keys d2 ∧
             (member_keys d2 = member_keys d ∨
              (¬ (f_id f0, pl) ∈ member_keys d ∧
               member_keys d2 = (member_keys d ++ [(f_id f0, pl)])%list))).
  { destruct oi as [i|] eqn:Hoi.
    - exists d1, (nextOrder s). split_and!; try done; [|by left].
      apply Hold. unfold oi in Hoi.
      destruct (membership d0 pl (f_id f0)) as [r|] eqn:Hm; [|done].
      by eapply membership_is_some.
    - destruct (insertFilePlaylist_spec (f_id f0) pl (nextOrder s) d1)
        as (d2 & -> & H1 & H2 & H3 & H4 & H5 & H6 & H7 & H8).
      { rewrite Hids1. by apply list_elem_of_fmap_2. }
      exists d2, (nextOrder s + 1). rewrite Hkeys1 in H8. split_and!; done. }
  destruct Hback as (d2 & next & -> & Hfiles2 & Hseq2 & Ht1 & Ht2 & Ht3 & Ht4 & Hkey2 & Hkeys2).
  assert (Hsub : ∀ k, k ∈ member_keys d → k ∈ member_keys d2).
  { intros k Hk. destruct Hkeys2 as [->|[_ ->]]; [done|]. apply elem_of_app. by left. }
  eexists. split; [done|]. split; [|done].
  split; cbn [s_db seenIds added updated]; rewrite ?Hfiles2, ?Hseq2, ?Hids1, ?Hpaths1; try done.
  - apply Forall_forall. intros f' (f & Hf & Hid & _)%Himage. rewrite Hid.
    rewrite Forall_forall in Hseq. by apply Hseq.
  - destruct Hkeys2 as [->|[Hnin ->]]; [done|].
    apply NoDup_app. split_and!; [done| |apply NoDup_singleton].
    intros k Hk Hk'. apply list_elem_of_singleton in Hk'. by subst.
  - destruct Hkeys2 as [->|[Hnin ->]]; [done|].
    apply Forall_app. split; [done|]. apply Forall_singleton. cbn.
    by apply list_elem_of_fmap_2.
  - destruct Htags as (? & ? & ? & ?). split_and!; congruence.
  - auto.
  - intros f' (f & Hf & Hid & Hp)%Himage. rewrite Hid, Hp.
    destruct (Horigin f Hf) as [?|Hin]; [by left|right].
    rewrite fmap_app. apply elem_of_app. by left.
  - intros f0' Hf0' Hnot. rewrite fmap_app in Hnot.
    apply not_elem_of_app in Hnot as [Hnot Hne]. apply Hkeep; [by apply Hunt|].
    rewrite Hpath. intros Heq. apply Hne. rewrite Heq. by left.
  - intros f0' file' Hf0' Hfile' Hp'. apply elem_of_app in Hfile' as [Hfile'|Hfile'].
    + apply Hkeep; [by apply Hupd|]. cbn. rewrite <- Hp', Hpath. intros Heq.
      apply Hnew. rewrite <- Heq. by apply list_elem_of_fmap_2.
    + apply list_elem_of_singleton in Hfile' as ->.
      assert (f0' = f0) as ->; [|done].
      apply (NoDup_fmap_inj f_path (files d0)); [done..|]. congruence.
  - intros file' Hfile'. apply elem_of_app in Hfile' as [Hfile'|Hfile'].
    + destruct (Hdone file' Hfile') as (f & Hf & Hp & Hfix & Hk & Hs).
      exists f. split_and!; try done.
      * apply Hkeep; [done|]. rewrite Hp, Hpath. intros Heq.
        apply Hnew. rewrite <- Heq. by apply list_elem_of_fmap_2.
      * by apply Hsub.
      * set_solver.
    + apply list_elem_of_singleton in Hfile' as ->.
      exists (with_disk_attrs file f0). split_and!; try done. set_solver.
  - intros i Hi. apply elem_of_union in Hi as [Hi|Hi].
    + apply elem_of_singleton in Hi as ->.
      exists (with_disk_attrs file f0). split_and!; try done.
      cbn. rewrite Hpath, fmap_app. apply elem_of_app. right. by left.
    + destruct (Hseen i Hi) as (f & Hf & Hid & Hp).
      destruct (decide (f_path f = f_path f0)) as [Heq|Hne].
      * exfalso. apply Hnew. by rewrite <- Hpath, <- Heq.
      * exists f. split_and!; try done; [by apply Hkeep|].
        rewrite fmap_app. apply elem_of_app. by left.
  - rewrite length_app. cbn. lia.
Qed.

(** A scanned file whose path the catalog does not hold yet. *)
Lemma scan_file_new d0 pl now done s file :
  scan_inv d0 pl done s →
  relativePath file ∉ relativePath <$> done →
  relativePath file ∉ f_path <$> files d0 →
  ∃ s', scan_file (build_map (select_existing d0 pl)) pl now s file = Normal s' ∧
        scan_inv d0 pl (done ++ [file]) s' ∧
        added s' = added s + 1 ∧ updated s' = updated s.
Proof.
  intros Hinv Hnew Hnot0.
  destruct Hinv as [Hids Hpaths Hseq Hkeys Hfk Htags Hold Horigin Hunt Hupd Hdone Hseen Hcnt].
  set (d := s_db s) in *.
  assert (Hfree : relativePath file ∉ f_path <$> files d).
  { intros (f & Hp & Hf)%list_elem_of_fmap.
    destruct (Horigin f Hf) as [(f0 & Hf0 & _ & Hp0)|Hin].
    - apply Hnot0. rewrite Hp, <- Hp0. by apply list_elem_of_fmap_2.
    - apply Hnew. by rewrite Hp. }
  unfold scan_file. rewrite map_lookup_none by done.
  unfold insertFile. fold d. rewrite bool_decide_eq_false_2 by done.
  set (fileId := files_seq d + 1).
  set (row := Build_FileRow fileId _ _ _ _ _ _ _ _ _ _ _ _).
  set (d1 := Build_DB _ _ _ _ _ _ _).
  assert (Hfresh : fileId ∉ f_id <$> files d).
  { intros (f & Hid & Hf)%list_elem_of_fmap. rewrite Forall_forall in Hseq.
    specialize (Hseq f Hf). unfold fileId in Hid. lia. }
  destruct (insertFilePlaylist_spec fileId pl (nextOrder s) d1)
    as (d2 & -> & Hfiles2 & Hseq2 & Ht1 & Ht2 & Ht3 & Ht4 & Hkey2 & Hkeys2).
  { cbn. rewrite fmap_app. apply elem_of_app. right. by left. }
  change (member_keys d1) with (member_keys d) in Hkeys2.
  assert (Hsub : ∀ k, k ∈ member_keys d → k ∈ member_keys d2).
  { intros k Hk. destruct Hkeys2 as [->|[_ ->]]; [done|]. apply elem_of_app. by left. }
  assert (Hfiles : files d2 = (files d ++ [row])%list) by done.
  eexists. split; [done|]. split; [|done].
  split; cbn [s_db seenIds added updated]; rewrite ?Hfiles, ?Hseq2; try done.
  - rewrite fmap_app. apply NoDup_app. split_and!; [done| |apply NoDup_singleton].
    intros i Hi Hi'. apply list_elem_of_singleton in Hi'. cbn in Hi'. by subst.
  - rewrite fmap_app. apply NoDup_app. split_and!; [done| |apply NoDup_singleton].
    intros q Hq Hq'. apply list_elem_of_singleton in Hq'. cbn in Hq'. by subst.
  - apply Forall_app. split.
    + eapply Forall_impl; [exact Hseq|]. intros f Hf. cbn in *. unfold fileId. lia.
    + apply Forall_singleton. cbn. lia.
  - destruct Hkeys2 as [->|[Hnin ->]]; [done|].
    apply NoDup_app. split_and!; [done| |apply NoDup_singleton].
    intros k Hk Hk'. apply list_elem_of_singleton in Hk'. by subst.
  - assert (Hgrow : Forall (fun k : Z * Z => k.1 ∈ f_id <$> (files d ++ [row])%list)
                      (member_keys d)).
    { eapply Forall_impl; [exact Hfk|]. intros k Hk. rewrite fmap_app.
      apply elem_of_app. by left. }
    destruct Hkeys2 as [->|[Hnin ->]]; [done|].
    apply Forall_app. split; [done|]. apply Forall_singleton. cbn.
    rewrite fmap_app. apply elem_of_app. right. by left.
  - destruct Htags as (? & ? & ? & ?).
    split_and!; [rewrite Ht1|rewrite Ht2|rewrite Ht3|rewrite Ht4]; assumption.
  - auto.
  - intros f Hf. apply elem_of_app in Hf as [Hf|Hf].
    + destruct (Horigin f Hf) as [?|Hin]; [by left|right].
      rewrite fmap_app. apply elem_of_app. by left.
    + apply list_elem_of_singleton in Hf as ->. right. cbn.
      rewrite fmap_app. apply elem_of_app. right. by left.
  - intros f0 Hf0 Hnot. rewrite fmap_app in Hnot.
    apply not_elem_of_app in Hnot as [Hnot _]. apply elem_of_app. left. by apply Hunt.
  - intros f0 file' Hf0 Hfile' Hp'. apply elem_of_app in Hfile' as [Hfile'|Hfile'].
    + apply elem_of_app. left. by apply Hupd.
    + apply list_elem_of_singleton in Hfile' as ->.
      destruct Hnot0. rewrite Hp'. by apply list_elem_of_fmap_2.
  - intros file' Hfile'. apply elem_of_app in Hfile' as [Hfile'|Hfile'].
    + destruct (Hdone file' Hfile') as (f & Hf & Hp & Hfix & Hk & Hs).
      exists f. split_and!; try done.
      * apply elem_of_app. by left.
      * by apply Hsub.
      * set_solver.
    + apply list_elem_of_singleton in Hfile' as ->.
      exists row. split_and!; try done.
      * apply elem_of_app. right. by left.
      * set_solver.
  - intros i Hi. apply elem_of_union in Hi as [Hi|Hi].
    + apply elem_of_singleton in Hi as ->.
      exists row. split_and!; try done.
      * apply elem_of_app. right. by left.
      * cbn. rewrite fmap_app. apply elem_of_app. right. by left.
    + destruct (Hseen i Hi) as (f & Hf & Hid & Hp).
      exists f. split_and!; try done.
      * apply elem_of_app. by left.
      * rewrite fmap_app. apply elem_of_app. by left.
  - rewrite length_app. cbn. lia.
Qed.

(** The whole loop over a list of files with distinct paths. *)
Lemma scan_files_inv d0 pl now done rest s :
  NoDup (f_id <$> files d0) → NoDup (f_path <$> files d0) →
  scan_inv d0 pl done s →
  NoDup (relativePath <$> (done ++ rest)%list) →
  ∃ s', scan_files (build_map (select_existing d0 pl)) pl now rest s = Normal s' ∧
        scan_inv d0 pl (done ++ rest) s' ∧
        (updated s' - updated s =
         Z.of_nat (length (filter (fun file => relativePath file ∈ f_path <$> files d0) rest))).
Proof.
  intros Hids0 Hpaths0. revert done s.
  induction rest as [|file rest IH]; intros done s Hinv Hnd.
  { exists s. rewrite app_nil_r. split_and!; [done..|]. cbn. lia. }
  assert (Hnew : relativePath file ∉ relativePath <$> done).
  { rewrite fmap_app in Hnd. apply NoDup_app in Hnd as (_ & Hdisj & _).
    intros Hin. apply (Hdisj _ Hin). rewrite fmap_cons. by left. }
  cbn [scan_files]. rewrite filter_cons.
  destruct (decide (relativePath file ∈ f_path <$> files d0)) as [Hin|Hnin].
  - apply list_elem_of_fmap in Hin as (f0 & Hp & Hf0).
    destruct (scan_file_existing d0 pl now done s file f0) as (s1 & -> & Hinv1 & Ha & Hu);
      [done..|].
    destruct (IH (done ++ [file])%list s1) as (s' & Hrun & Hinv' & Hu').
    { done. } { by rewrite <- app_assoc. }
    exists s'. rewrite <- app_assoc in Hinv'. split_and!; [done..|].
    cbn [length]. lia.
  - destruct (scan_file_new d0 pl now done s file) as (s1 & -> & Hinv1 & Ha & Hu);
      [done..|].
    destruct (IH (done ++ [file])%list s1) as (s' & Hrun & Hinv' & Hu').
    { done. } { by rewrite <- app_assoc. }
    exists s'. rewrite <- app_assoc in Hinv'. split_and!; [done..|]. lia.
Qed.

(** *** Flagging the rows that were not seen *)

Lemma if_bool_decide_ext {A} (P Q : Prop) `{!Decision P, !Decision Q} (x y : A) :
  (P ↔ Q) → (if bool_decide P then x else y) = (if bool_decide Q then x else y).
Proof. intros HPQ. by rewrite (bool_decide_ext P Q HPQ). Qed.

Lemma mark_unseen_files existing (seen : gset Z) d :
  mark_unseen existing seen d =
  set_files d ((fun f => if bool_decide (f_id f ∈ e_id <$> existing ∧ f_id f ∉ seen)
                         then with_missing f else f) <$> files d).
Proof.
  revert d. induction existing as [|row existing IH]; intros d.
  - cbn [mark_unseen foldl]. rewrite <- (set_files_same d) at 1. f_equal.
    rewrite <- (list_fmap_id (files d)) at 1. apply list_fmap_ext. intros i f _.
    rewrite bool_decide_eq_false_2; [done|]. intros [Hin _]. by apply elem_of_nil in Hin.
  - unfold mark_unseen in *. cbn [foldl]. rewrite IH.
    case_bool_decide as Hseen.
    + f_equal. apply list_fmap_ext. intros i f _.
      apply if_bool_decide_ext. rewrite fmap_cons, elem_of_cons.
      split; [tauto|]. intros [[Heq|Hin] Hf]; [|done]. destruct Hf. congruence.
    + unfold markMissing, update_files_where_id, set_files. cbn. f_equal.
      rewrite <- list_fmap_compose. apply list_fmap_ext. intros i f _. cbn.
      destruct (decide (f_id f = e_id row)) as [Heq|Hne].
      * rewrite (bool_decide_eq_true_2 (f_id f = e_id row)) by done. cbn.
        rewrite (bool_decide_eq_true_2 (_ ∈ e_id row :: _ ∧ _)).
        2:{ split; [rewrite Heq; by left|by rewrite Heq]. }
        by case_bool_decide.
      * rewrite (bool_decide_eq_false_2 (f_id f = e_id row)) by done.
        apply if_bool_decide_ext. rewrite elem_of_cons. tauto.
Qed.

(** *** One scan *)

(** What a scan of a tree whose walk lists each path once leaves behind. *)
Lemma scanLibrary_post m d0 tree scanned now :
  db m = Some d0 → no_root m = false → wf_db d0 →
  collectFiles tree = Normal scanned → NoDup (relativePath <$> scanned) →
  ∃ r d1, scanLibrary m tree now = (Normal r, with_db m d1) ∧
    wf_db d1 ∧
    tags d1 = tags d0 ∧ file_tags d1 = file_tags d0 ∧
    (∀ k, k ∈ member_keys d0 → k ∈ member_keys d1) ∧
    (∀ f0, f0 ∈ files d0 → f_path f0 ∉ relativePath <$> scanned →
           with_missing f0 ∈ files d1) ∧
    (∀ f0 file, f0 ∈ files d0 → file ∈ scanned → relativePath file = f_path f0 →
                with_disk_attrs file f0 ∈ files d1) ∧
    synced scanned (libraryPlaylistId m) d1 ∧
    r_updated r =
      Z.of_nat (length (filter (fun file => relativePath file ∈ f_path <$> files d0) scanned)) ∧
    r_added r = Z.of_nat (length scanned) - r_updated r.
Proof.
  intros Hd Hr Hwf Hwalk Hnd.
  pose proof Hwf as [Hids0 Hpaths0 Hseq0 Hkeys0 Hfk0 Htags0 Hftfk0].
  set (pl := libraryPlaylistId m).
  set (next := default 0 (max_order d0 pl) + 1).
  destruct (scan_files_inv d0 pl now [] scanned
              {| s_db := d0; nextOrder := next; added := 0; updated := 0; seenIds := ∅ |})
    as (s' & Hrun & Hinv & Hupd); [done|done|by apply scan_inv_start|done|].
  cbn [app updated] in Hinv, Hupd.
  destruct Hinv as [Hids Hpaths Hseq Hkeys Hfk Htags Hold Horigin Hunt Hupdated Hdone Hseen Hcnt].
  set (d := s_db s') in *. set (seen := seenIds s') in *.
  unfold scanLibrary. rewrite Hd, Hr, Hwalk. fold pl next. rewrite Hrun. fold d seen.
  rewrite mark_unseen_files, select_existing_ids.
  set (g := fun f => if bool_decide (f_id f ∈ f_id <$> files d0 ∧ f_id f ∉ seen)
                     then with_missing f else f).
  set (d1 := set_files d (g <$> files d)).
  assert (Hgid : ∀ f, f_id (g f) = f_id f) by (intros f; unfold g; by case_bool_decide).
  assert (Hgpath : ∀ f, f_path (g f) = f_path f) by (intros f; unfold g; by case_bool_decide).
  assert (Hids1 : f_id <$> files d1 = f_id <$> files d).
  { cbn. rewrite <- list_fmap_compose. apply list_fmap_ext. intros ? f _. apply Hgid. }
  assert (Hpaths1 : f_path <$> files d1 = f_path <$> files d).
  { cbn. rewrite <- list_fmap_compose. apply list_fmap_ext. intros ? f _. apply Hgpath. }
  (* a row of a scanned path has been seen *)
  assert (Hseen_path : ∀ f, f ∈ files d → f_path f ∈ relativePath <$> scanned →
                            f_id f ∈ seen).
  { intros f Hf (file & Hp & Hfile)%list_elem_of_fmap.
    destruct (Hdone file Hfile) as (f' & Hf' & Hp' & _ & _ & Hs).
    assert (f' = f) as <-; [|done].
    apply (NoDup_fmap_inj f_path (files d)); [done..|]. congruence. }
  (* and only those *)
  assert (Hunseen : ∀ f, f ∈ files d → f_path f ∉ relativePath <$> scanned →
                         f_id f ∉ seen).
  { intros f Hf Hnot Hin. destruct (Hseen _ Hin) as (f' & Hf' & Hid & Hp').
    assert (f' = f) as ->; [|done].
    by apply (NoDup_fmap_inj f_id (files d)). }
  assert (Hkept : ∀ f, f ∈ files d → f_id f ∈ seen → f ∈ files d1).
  { intros f Hf Hs. cbn. apply list_elem_of_fmap. exists f. split; [|done].
    unfold g. rewrite bool_decide_eq_false_2; [done|]. tauto. }
  assert (Hidsub : ∀ i, i ∈ f_id <$> files d0 → i ∈ f_id <$> files d).
  { intros i (f0 & -> & Hf0)%list_elem_of_fmap.
    destruct (decide (f_path f0 ∈ relativePath <$> scanned)) as [Hin|Hnin].
    - apply list_elem_of_fmap in Hin as (file & Hp & Hfile).
      change (f_id f0) with (f_id (with_disk_attrs file f0)).
      apply list_elem_of_fmap_2. by apply Hupdated.
    - apply list_elem_of_fmap_2. by apply Hunt. }
  destruct Htags as (Ht1 & Ht2 & Ht3 & Ht4).
  eexists _, d1. split; [reflexivity|]. split_and!.
  - split.
    + by rewrite Hids1.
    + by rewrite Hpaths1.
    + apply Forall_forall. intros f' (f & -> & Hf)%list_elem_of_fmap.
      rewrite Hgid. rewrite Forall_forall in Hseq. by apply Hseq.
    + done.
    + by rewrite Hids1.
    + change (tags d1) with (tags d). change (tags_seq d1) with (tags_seq d).
      by rewrite Ht1, Ht2.
    + change (file_tags d1) with (file_tags d). rewrite Ht3, Hids1.
      eapply Forall_impl; [exact Hftfk0|]. intros r. apply Hidsub.
  - done.
  - done.
  - done.
  - intros f0 Hf0 Hnot. cbn. apply list_elem_of_fmap. exists f0. split; [|by apply Hunt].
    unfold g. rewrite bool_decide_eq_true_2; [done|].
    split; [by apply list_elem_of_fmap_2|]. apply Hunseen; [by apply Hunt|done].
  - intros f0 file Hf0 Hfile Hp. apply Hkept; [by apply Hupdated|].
    apply Hseen_path; [by apply Hupdated|]. cbn. rewrite <- Hp. by apply list_elem_of_fmap_2.
  - split.
    + intros file Hfile. destruct (Hdone file Hfile) as (f & Hf & Hp & Hfix & Hk & Hs).
      exists f. split_and!; try done. by apply Hkept.
    + intros f' (f & -> & Hf)%list_elem_of_fmap. rewrite Hgpath. intros Hnot.
      unfold g. rewrite bool_decide_eq_true_2; [done|]. split; [|by apply Hunseen].
      destruct (Horigin f Hf) as [(f0 & Hf0 & Hid & _)|?]; [|done].
      rewrite <- Hid. by apply list_elem_of_fmap_2.
  - cbn [r_updated]. lia.
  - cbn [r_added r_updated]. lia.
Qed.

(** *** A scan of a catalog that is in step with the disk *)

Lemma scan_files_synced d pl now scanned rest :
  NoDup (f_id <$> files d) → NoDup (f_path <$> files d) →
  synced scanned pl d →
  ∀ done s,
    s_db s = d →
    (∀ file, file ∈ rest → file ∈ scanned) →
    NoDup (relativePath <$> (done ++ rest)%list) →
    seen_for d done (seenIds s) →
    ∃ s', scan_files (build_map (select_existing d pl)) pl now rest s = Normal s' ∧
          s_db s' = d ∧ added s' = added s ∧
          updated s' = updated s + Z.of_nat (length rest) ∧
          seen_for d (done ++ rest) (seenIds s').
Proof.
  intros Hids Hpaths [Hsync _].
  induction rest as [|file rest IH]; intros done s Hdb Hsub Hnd Hseen.
  { exists s. rewrite app_nil_r. split_and!; try done. cbn. lia. }
  destruct (Hsync file) as (f & Hf & Hp & Hfix & Hkey); [apply Hsub; by left|].
  assert (Hnew : relativePath file ∉ relativePath <$> done).
  { rewrite fmap_app in Hnd. apply NoDup_app in Hnd as (_ & Hdisj & _).
    intros Hin. apply (Hdisj _ Hin). rewrite fmap_cons. by left. }
  cbn [scan_files]. unfold scan_file.
  rewrite <- Hp, (map_lookup_some d pl f) by done. rewrite Hdb.
  assert (Hsame : updateFile (f_id f) file d = d).
  { apply update_files_fixed. intros f' Hf' Hid.
    by rewrite (NoDup_fmap_inj f_id (files d) f' f Hids Hf' Hf Hid). }
  rewrite Hsame.
  assert (Hback : ∃ next,
             (match membership d pl (f_id f) ≫= fp_order_index with
              | None =>
                  match insertFilePlaylist (f_id f) pl (nextOrder s) d with
                  | Thrown e => Thrown e
                  | Normal d2 => Normal (d2, nextOrder s + 1)
                  end
              | Some _ => Normal (d, nextOrder s)
              end) = Normal (d, next)).
  { destruct (membership d pl (f_id f) ≫= fp_order_index).
    - by eexists.
    - rewrite insertFilePlaylist_present by done. by eexists. }
  destruct Hback as [next ->].
  set (s1 := Build_ScanState _ _ _ _ _).
  destruct (IH (done ++ [file])%list s1) as (s' & Hrun & Hdb' & Ha & Hu & Hseen').
  - done.
  - intros file' Hfile'. apply Hsub. by right.
  - by rewrite <- app_assoc.
  - destruct Hseen as (l & Hl & Hlnd & Hlen & Hmem).
    assert (Hnotin : f_id f ∉ l).
    { intros Hin. apply Hmem in Hin as (f' & Hf' & Hid & Hpin).
      rewrite (NoDup_fmap_inj f_id (files d) f' f Hids Hf' Hf Hid) in Hpin.
      apply Hnew. by rewrite <- Hp. }
    exists (f_id f :: l). split_and!.
    + cbn. by rewrite Hl.
    + by apply NoDup_cons.
    + rewrite length_app. cbn. lia.
    + intros i. rewrite elem_of_cons, Hmem, fmap_app. split.
      * intros [->|(f' & Hf' & Hid & Hpin)].
        -- exists f. split_and!; try done. apply elem_of_app. right. rewrite Hp. by left.
        -- exists f'. split_and!; try done. apply elem_of_app. by left.
      * intros (f' & Hf' & Hid & [Hpin|Hpin]%elem_of_app).
        -- right. by exists f'.
        -- left. apply list_elem_of_singleton in Hpin. cbn in Hpin. rewrite <- Hid. f_equal.
           apply (NoDup_fmap_inj f_path (files d)); [done..|]. congruence.
  - exists s'. rewrite <- app_assoc in Hseen'. split_and!; try done.
    rewrite Hu. cbn [updated s1 length]. lia.
Qed.

Lemma scanLibrary_synced m d tree scanned now :
  db m = Some d → no_root m = false →
  NoDup (f_id <$> files d) → NoDup (f_path <$> files d) →
  collectFiles tree = Normal scanned → NoDup (relativePath <$> scanned) →
  synced scanned (libraryPlaylistId m) d →
  scanLibrary m tree now =
    (Normal {| r_added := 0;
               r_removed := Z.of_nat (length (files d)) - Z.of_nat (length scanned);
               r_updated := Z.of_nat (length scanned) |}, m).
Proof.
  intros Hd Hr Hids Hpaths Hwalk Hnd Hsync.
  set (pl := libraryPlaylistId m) in *.
  set (next := default 0 (max_order d pl) + 1).
  destruct (scan_files_synced d pl now scanned scanned Hids Hpaths Hsync []
              {| s_db := d; nextOrder := next; added := 0; updated := 0; seenIds := ∅ |})
    as (s' & Hrun & Hdb & Ha & Hu & (l & Hl & Hlnd & Hlen & Hmem)); [done..| |].
  { exists []. split_and!; [done|apply NoDup_nil_2|done|]. intros i. split.
    - intros Hi. by apply elem_of_nil in Hi.
    - intros (f & _ & _ & Hp). by apply elem_of_nil in Hp. }
  cbn [app added updated] in *.
  unfold scanLibrary. rewrite Hd, Hr, Hwalk. fold pl next. rewrite Hrun, Hdb, Ha, Hu, Hl.
  rewrite size_list_to_set by done. rewrite Hlen.
  unfold select_existing at 1. rewrite length_fmap.
  rewrite Z.add_0_l. f_equal.
  rewrite mark_unseen_files.
  transitivity (with_db m d); [|by apply with_db_same]. f_equal.
  transitivity (set_files d (files d)); [|apply set_files_same]. f_equal.
  transitivity ((fun f => f) <$> files d); [|apply list_fmap_id].
  apply list_fmap_ext. intros i f Hf%list_elem_of_lookup_2.
  case_bool_decide as Hcase; [|done]. destruct Hcase as [_ Hunseen].
  apply with_missing_fixed. apply Hsync; [done|]. intros Hin.
  apply Hunseen. rewrite elem_of_list_to_set. apply Hmem. by exists f.
Qed.

(** *** Counting the rows that are not on disk *)

Lemma length_filter_split {A} (P : A → Prop) `{!∀ x, Decision (P x)} (l : list A) :
  length l = (length (filter P l) + length (filter (fun x => ¬ P x) l))%nat.
Proof.
  induction l as [|x l IH]; [done|].
  rewrite !filter_cons. destruct (decide (P x)).
  - rewrite decide_False by tauto. cbn. lia.
  - rewrite decide_True by done. cbn. lia.
Qed.

Lemma synced_row_count scanned pl d :
  NoDup (f_path <$> files d) → NoDup (relativePath <$> scanned) →
  synced scanned pl d →
  Z.of_nat (length (files d)) - Z.of_nat (length scanned) =
  Z.of_nat (length (filter (fun f => f_path f ∉ relativePath <$> scanned) (files d))).
Proof.
  intros Hpaths Hnd [Hsync _].
  rewrite (length_filter_split (fun f => f_path f ∈ relativePath <$> scanned) (files d)).
  assert (Hperm : f_path <$> filter (fun f => f_path f ∈ relativePath <$> scanned) (files d)
                  ≡ₚ relativePath <$> scanned).
  { apply NoDup_Permutation; [|done|].
    - eapply sublist_NoDup; [exact Hpaths|]. apply fmap_sublist, sublist_filter.
    - intros q. rewrite list_elem_of_fmap. setoid_rewrite list_elem_of_filter. split.
      + by intros (f & -> & Hin & _).
      + intros Hq. pose proof Hq as (file & -> & Hfile)%list_elem_of_fmap.
        destruct (Hsync file Hfile) as (f & Hf & Hp & _).
        exists f. rewrite Hp. done. }
  apply Permutation_length in Hperm. rewrite !length_fmap in Hperm.
  rewrite Hperm. lia.
Qed.

(** C3, as the code has it.  A scan of a tree whose walk lists each path
    once succeeds, and a second scan of the same tree right after it reports
    added = 0 and updated = n, the number of files on disk, and leaves the
    whole catalog as the first scan left it: the same file rows, the same
    membership rows, no (file, playlist) pair twice.  Its removed count is
    the number of catalog rows whose path is not on disk; these rows are
    kept, so the count is 0 only when there is none. *)
Theorem scanLibrary_twice m d tree scanned now1 now2 :
  db m = Some d → no_root m = false → wf_db d →
  collectFiles tree = Normal scanned → NoDup (relativePath <$> scanned) →
  ∃ r1 d1,
    scanLibrary m tree now1 = (Normal r1, with_db m d1) ∧
    scanLibrary (with_db m d1) tree now2 =
      (Normal {| r_added := 0;
                 r_removed :=
                   Z.of_nat (length (filter (fun f => f_path f ∉ relativePath <$> scanned)
                                            (files d1)));
                 r_updated := Z.of_nat (length scanned) |},
       with_db m d1) ∧
    NoDup (member_keys d1).
Proof.
  intros Hd Hr Hwf Hwalk Hnd.
  destruct (scanLibrary_post m d tree scanned now1 Hd Hr Hwf Hwalk Hnd)
    as (r1 & d1 & Hrun & Hwf1 & _ & _ & _ & _ & _ & Hsync & _).
  exists r1, d1. destruct Hwf1 as [Hids1 Hpaths1 _ Hkeys1 _ _ _].
  split_and!; [done| |done].
  rewrite <- (synced_row_count scanned (libraryPlaylistId m) d1) by done.
  by apply scanLibrary_synced.
Qed.

Lemma scanLibrary_twice_witness :
  ∃ r1 d1,
    scanLibrary Sample.fresh Sample.tree Sample.clock = (Normal r1, with_db Sample.fresh d1) ∧
    fst (scanLibrary (with_db Sample.fresh d1) Sample.tree Sample.clock) =
      Normal {| r_added := 0; r_removed := 0; r_updated := 3 |}.
Proof.
  destruct (scanLibrary_twice Sample.fresh Sample.empty_db Sample.tree
              (Sample.walk Sample.tree)
              Sample.clock Sample.clock) as (r1 & d1 & H1 & H2 & _).
  - reflexivity.
  - reflexivity.
  - split; apply (bool_decide_unpack _); vm_compute; exact I.
  - reflexivity.
  - apply (bool_decide_unpack _). vm_compute. exact I.
  - exists r1, d1. split; [exact H1|]. rewrite H2. cbn [fst]. f_equal.
    assert (Hd1 : d1 = match db Sample.scanned with Some x => x | None => d1 end).
    { unfold Sample.scanned. rewrite H1. reflexivity. }
    rewrite Hd1. reflexivity.
Defined.

(** The removed count subtracts every seen id, also those of the rows the
    scan itself added, from the number of rows it found at its start: the
    first scan of a fresh catalog adds three rows and reports removed = -3. *)
Remark scanLibrary_first_scan_removed_count :
  fst (scanLibrary Sample.fresh Sample.tree Sample.clock) =
    Normal {| r_added := 3; r_removed := -3; r_updated := 0 |}.
Proof. reflexivity. Qed.

(** C3 as stated fails on its removed count.  After [a.mp4] was deleted and
    the folder scanned (the first pass, which flags the row), a second pass
    over the unchanged folder reports removed = 1 again, not 0. *)
Lemma scanLibrary_second_pass_removed_not_zero :
  fst (scanLibrary Sample.scanned Sample.tree_without_a Sample.clock) =
    Normal {| r_added := 0; r_removed := 1; r_updated := 2 |} ∧
  Sample.rescanned = snd (scanLibrary Sample.scanned Sample.tree_without_a Sample.clock) ∧
  fst (scanLibrary Sample.rescanned Sample.tree_without_a Sample.clock) =
    Normal {| r_added := 0; r_removed := 1; r_updated := 2 |}.
Proof. split_and!; reflexivity. Qed.

(** *** Missing rows and the playlist *)

Lemma elem_of_limit_offset {A} lim off (l : list A) x :
  x ∈ limit_offset lim off l → x ∈ l.
Proof.
  unfold limit_offset. destruct lim as [n|]; [|done]. destruct (truthy n); [|done].
  intros Hx. eapply elem_of_sublist; [exact Hx|].
  etrans; [apply sublist_take|apply sublist_drop].
Qed.

(** Every item of a response comes from a row that the WHERE clause keeps. *)
Lemma getPlaylist_item_row m d o i :
  db m = Some d → no_root m = false →
  i ∈ i_id <$> items (getPlaylist m o) →
  ∃ f, f ∈ files d ∧ f_id f = i ∧ where_clause (buildPlaylistQueryParts o) f.
Proof.
  intros Hd Hr. rewrite (getPlaylist_open m d o Hd Hr). cbn [items].
  rewrite <- list_fmap_compose.
  intros (g & -> & Hg%elem_of_limit_offset)%list_elem_of_fmap.
  rewrite order_rows_Permutation in Hg.
  apply elem_of_baseSql in Hg as (f & Hf & -> & Hw & _). by exists f.
Qed.

(** Without a page limit, a row that passes the WHERE clause and the
    HAVING clause is in the response. *)
Lemma getPlaylist_row_item m d o f :
  db m = Some d → no_root m = false → page_limit o = None →
  f ∈ files d →
  where_clause (buildPlaylistQueryParts o) f →
  having_clause (buildPlaylistQueryParts o) (group_of d (libraryPlaylistId m) f) →
  f_id f ∈ i_id <$> items (getPlaylist m o).
Proof.
  intros Hd Hr Hlim Hf Hw Hh. rewrite (getPlaylist_open m d o Hd Hr). cbn [items].
  rewrite Hlim. cbn [limit_offset]. rewrite <- list_fmap_compose.
  apply list_elem_of_fmap. exists (group_of d (libraryPlaylistId m) f). split; [done|].
  rewrite order_rows_Permutation. apply elem_of_baseSql. by exists f.
Qed.

Lemma joined_names_same_tags d d' fileId :
  tags d' = tags d → file_tags d' = file_tags d →
  joined_names d' fileId = joined_names d fileId.
Proof. intros Ht Hft. unfold joined_names, tag_name. by rewrite Ht, Hft. Qed.

(** C5.  A row whose path a scan does not find is kept and flagged missing:
    the same row but for the flag, with its id and rating, and the tags and
    their associations are untouched.  From then on no playlist query returns
    it, whatever the filter, sort and page.  When a file is back at that path
    at a later scan, the same row (same id, rating, tags) has the flag
    cleared and the queries whose filter it passes return it again. *)
Theorem missing_not_deleted m d tree scanned now tree' scanned' now' f file' :
  db m = Some d → no_root m = false → wf_db d →
  collectFiles tree = Normal scanned → NoDup (relativePath <$> scanned) →
  f ∈ files d → f_path f ∉ relativePath <$> scanned →
  collectFiles tree' = Normal scanned' → NoDup (relativePath <$> scanned') →
  file' ∈ scanned' → relativePath file' = f_path f →
  ∃ r1 d1 r2 d2,
    scanLibrary m tree now = (Normal r1, with_db m d1) ∧
    with_missing f ∈ files d1 ∧
    tags d1 = tags d ∧ file_tags d1 = file_tags d ∧
    (∀ o, f_id f ∉ i_id <$> items (getPlaylist (with_db m d1) o)) ∧
    scanLibrary (with_db m d1) tree' now' = (Normal r2, with_db m d2) ∧
    with_disk_attrs file' f ∈ files d2 ∧
    tags d2 = tags d ∧ file_tags d2 = file_tags d ∧
    (∀ o, page_limit o = None → NoDup (req_tags o) →
          (gt0 (ratingMin o) = true → Qle_bool (ratingMin o) (f_rating f) = true) →
          (∀ t, t ∈ req_tags o → Some t ∈ joined_names d (f_id f)) →
          f_id f ∈ i_id <$> items (getPlaylist (with_db m d2) o)).
Proof.
  intros Hd Hr Hwf Hwalk Hnd Hf Hgone Hwalk' Hnd' Hfile' Hpath'.
  destruct (scanLibrary_post m d tree scanned now Hd Hr Hwf Hwalk Hnd)
    as (r1 & d1 & Hrun1 & Hwf1 & Ht1 & Hft1 & _ & Hflag & _ & _ & _).
  destruct (scanLibrary_post (with_db m d1) d1 tree' scanned' now' eq_refl Hr Hwf1 Hwalk' Hnd')
    as (r2 & d2 & Hrun2 & Hwf2 & Ht2 & Hft2 & _ & _ & Hback & _ & _).
  exists r1, d1, r2, d2.
  pose proof (Hflag f Hf Hgone) as Hrow1.
  pose proof (Hback (with_missing f) file' Hrow1 Hfile' Hpath') as Hrow2.
  change (with_disk_attrs file' (with_missing f)) with (with_disk_attrs file' f) in Hrow2.
  split_and!; try done; try congruence.
  - intros o Hin.
    apply (getPlaylist_item_row (with_db m d1) d1 o _ eq_refl Hr) in Hin
      as (f1 & Hf1 & Hid & Hw).
    assert (f1 = with_missing f) as ->.
    { eapply (NoDup_fmap_inj f_id); [apply Hwf1|done..]. }
    unfold where_clause in Hw. cbn in Hw. done.
  - intros o Hlim Hreq Hrate Htags.
    change (f_id f) with (f_id (with_disk_attrs file' f)).
    apply (getPlaylist_row_item (with_db m d2) d2 o _ eq_refl Hr Hlim Hrow2).
    + unfold where_clause. cbn.
      destruct (gt0 (ratingMin o)) eqn:E; [|done]. by rewrite Hrate.
    + unfold having_clause. cbn. case_bool_decide as Hlen; [|done].
      apply bool_decide_spec. apply count_distinct_in_all; [done|].
      intros t Ht. rewrite (joined_names_same_tags d d2) by congruence. by apply Htags.
Qed.

Lemma missing_not_deleted_witness :
  (∀ o, ¬ 1 ∈ i_id <$> items (getPlaylist Sample.rescanned o)) ∧
  1 ∈ i_id <$> items (getPlaylist (snd (scanLibrary Sample.rescanned Sample.tree Sample.clock))
                        (Sample.request SortPlaylist [])).
Proof.
  destruct (missing_not_deleted Sample.scanned Sample.scanned_db
              Sample.tree_without_a (Sample.walk Sample.tree_without_a) Sample.clock
              Sample.tree (Sample.walk Sample.tree) Sample.clock
              Sample.row_a Sample.file_a)
    as (r1 & d1 & r2 & d2 & H1 & _ & _ & _ & Hout & H2 & _ & _ & _ & Hin).
  - reflexivity.
  - reflexivity.
  - split; apply (bool_decide_unpack _); vm_compute; exact I.
  - reflexivity.
  - apply (bool_decide_unpack _). vm_compute. exact I.
  - unfold Sample.scanned_db. cbn. left.
  - apply (bool_decide_unpack _). vm_compute. exact I.
  - reflexivity.
  - apply (bool_decide_unpack _). vm_compute. exact I.
  - vm_compute. left.
  - reflexivity.
  - assert (Hre : Sample.rescanned = with_db Sample.scanned d1).
    { unfold Sample.rescanned. by rewrite H1. }
    rewrite Hre. split; [exact Hout|].
    rewrite H2. cbn [snd]. apply Hin.
    + reflexivity.
    + constructor.
    + intros Hgt. vm_compute in Hgt. discriminate Hgt.
    + intros t Ht. exact (False_ind _ (proj1 (elem_of_nil t) Ht)).
Defined.

End Reconcile.

(** * Further properties of the playlist query *)

Section QueryMore.

Implicit Types (d : DB) (m : LibraryManager) (o : PlaylistRequest)
  (f : FileRow) (g : GroupRow) (q : QueryParts).

(** *** Comparing names *)

Lemma ascii_compare_lt_trans (a b c : ascii) :
  Ascii.compare a b = Lt → Ascii.compare b c = Lt → Ascii.compare a c = Lt.
Proof.
  unfold Ascii.compare. rewrite !N.compare_lt_iff. apply N.lt_trans.
Qed.

Lemma string_compare_lt_trans (s1 s2 s3 : string) :
  String.compare s1 s2 = Lt → String.compare s2 s3 = Lt → String.compare s1 s3 = Lt.
Proof.
  revert s2 s3. induction s1 as [|a s1 IH]; intros [|b s2] [|c s3]; cbn; try done.
  destruct (Ascii.compare a b) eqn:Hab; [| |done].
  - apply Ascii.compare_eq_iff in Hab as ->.
    destruct (Ascii.compare b c); [apply IH|done|done].
  - intros _. destruct (Ascii.compare b c) eqn:Hbc; [| |done].
    + apply Ascii.compare_eq_iff in Hbc as <-. by rewrite Hab.
    + by rewrite (ascii_compare_lt_trans a b c).
Qed.

Lemma string_compare_gt_lt (s1 s2 : string) :
  String.compare s1 s2 = Gt ↔ String.compare s2 s1 = Lt.
Proof.
  rewrite (String.compare_antisym s1 s2). destruct (String.compare s2 s1); cbn; split; done.
Qed.

Lemma name_total : total_le ByName.
Proof.
  intros a b. cbn.
  destruct (String.compare (nocase (f_name (g_file a))) (nocase (f_name (g_file b)))) eqn:Hab.
  - apply String.compare_eq_iff in Hab. rewrite Hab.
    assert (String.compare (nocase (f_name (g_file b))) (nocase (f_name (g_file b))) = Eq)
      as ->.
    { pose proof (String.compare_antisym (nocase (f_name (g_file b)))
                    (nocase (f_name (g_file b)))) as H.
      destruct (String.compare _ _); done. }
    rewrite Z.leb_gt, Z.leb_le. lia.
  - done.
  - intros _. apply string_compare_gt_lt in Hab. by rewrite Hab.
Qed.

Lemma name_trans : trans_le ByName.
Proof.
  intros a b c. cbn.
  set (na := nocase (f_name (g_file a))). set (nb := nocase (f_name (g_file b))).
  set (nc := nocase (f_name (g_file c))).
  destruct (String.compare na nb) eqn:Hab; [| |done].
  - apply String.compare_eq_iff in Hab. rewrite Hab.
    destruct (String.compare nb nc); [|done..].
    rewrite !Z.leb_le. lia.
  - intros _. destruct (String.compare nb nc) eqn:Hbc; [| |done].
    + apply String.compare_eq_iff in Hbc. by rewrite <- Hbc, Hab.
    + by rewrite (string_compare_lt_trans na nb nc).
Qed.

Lemma created_total : total_le ByCreated.
Proof.
  intros a b. cbn.
  rewrite <- (Qcompare_antisym (f_created_ms (g_file b)) (f_created_ms (g_file a))).
  destruct (Qcompare (f_created_ms (g_file b)) (f_created_ms (g_file a))); cbn; try done.
  rewrite Z.leb_gt, Z.leb_le. lia.
Qed.

Lemma created_le_spec a b :
  order_le ByCreated a b = true ↔
  (f_created_ms (g_file b) < f_created_ms (g_file a))%Q ∨
  ((f_created_ms (g_file b) == f_created_ms (g_file a))%Q ∧
   f_id (g_file b) ≤ f_id (g_file a)).
Proof.
  cbn. destruct (Qcompare_spec (f_created_ms (g_file b)) (f_created_ms (g_file a)))
    as [H|H|H].
  - rewrite Z.leb_le. split; [by right|]. intros [Hlt|[_ ?]]; [|done].
    rewrite H in Hlt. by apply Qlt_irrefl in Hlt.
  - split; [by left|done].
  - split; [done|]. intros [Hlt|[Heq _]].
    + exfalso. eapply Qlt_irrefl, Qlt_trans; eauto.
    + rewrite Heq in H. by apply Qlt_irrefl in H.
Qed.

Lemma created_trans : trans_le ByCreated.
Proof.
  intros a b c. rewrite !created_le_spec. intros [H1|[H1 I1]] [H2|[H2 I2]].
  - left. eapply Qlt_trans; eauto.
  - left. by rewrite H2.
  - left. by rewrite <- H1.
  - right. split; [by rewrite H2|lia].
Qed.

(** *** The order of a response *)

(** X1.  Whatever the filter and the page window, the items of a response are in
    the order of the request's sort mode: by order index then id, by name
    without regard to ASCII case then id, by creation time and id both
    descending, or by the random key [(id * seed) % 2147483647] as SQLite
    computes it on the REAL seed ([sql_random_key]: double product, cast to
    INTEGER, remainder). *)
Theorem getPlaylist_sorted m o :
  StronglySorted (sorted_for o) (items (getPlaylist m o)).
Proof.
  unfold getPlaylist. destruct (db m) as [d|]; [|constructor].
  destruct (no_root m); [constructor|]. cbn [items].
  set (q := buildPlaylistQueryParts o).
  apply StronglySorted_fmap with (R1 := fun a b => order_le (orderBy q) a b).
  - intros a b Hab. apply Is_true_true in Hab. revert Hab.
    unfold sorted_for, q, buildPlaylistQueryParts, buildOrderBy. cbn [orderBy].
    destruct (sort o).
    + unfold playlist_before. cbn.
      rewrite orb_true_iff, andb_true_iff, Z.ltb_lt, Z.eqb_eq, Z.leb_le. tauto.
    + unfold filename_before. cbn. destruct (String.compare _ _); [|done..].
      by rewrite Z.leb_le.
    + rewrite created_le_spec. unfold created_before. cbn.
      intros [?|[Heq ?]]; [by left|right]. split; [by symmetry|done].
    + cbn. by rewrite Z.leb_le.
  - apply StronglySorted_limit_offset, order_rows_sorted.
    + unfold q, buildPlaylistQueryParts, buildOrderBy. cbn [orderBy].
      destruct (sort o);
        [apply order_index_total|apply name_total|apply created_total|apply random_total].
    + unfold q, buildPlaylistQueryParts, buildOrderBy. cbn [orderBy].
      destruct (sort o);
        [apply order_index_trans|apply name_trans|apply created_trans|apply random_trans].
Qed.

(** *** No file twice *)

Lemma limit_offset_sublist {A} lim off (l : list A) : limit_offset lim off l `sublist_of` l.
Proof.
  unfold limit_offset. destruct lim as [n|]; [|done]. destruct (truthy n); [|done].
  etrans; [apply sublist_take|apply sublist_drop].
Qed.

(** X2.  No response holds the same file id twice, whatever the request. *)
Theorem getPlaylist_ids_distinct m o :
  (∀ d, db m = Some d → NoDup (f_id <$> files d)) →
  NoDup (i_id <$> items (getPlaylist m o)).
Proof.
  intros Hids. unfold getPlaylist. destruct (db m) as [d|]; [|constructor].
  destruct (no_root m); [constructor|]. cbn [items].
  rewrite <- list_fmap_compose.
  eapply sublist_NoDup; [|apply fmap_sublist, limit_offset_sublist].
  rewrite order_rows_Permutation. apply baseSql_ids_NoDup. by apply Hids.
Qed.

Lemma getPlaylist_ids_distinct_witness :
  NoDup (i_id <$> items (getPlaylist Sample.tagged (Sample.request SortFilename ["a"]))).
Proof.
  apply getPlaylist_ids_distinct. intros d Hd. injection Hd as <-.
  apply (bool_decide_unpack _). vm_compute. exact I.
Defined.

(** *** The page window *)

Lemma gt0_true (x : number) : (0 < x)%Q → gt0 x = true.
Proof.
  intros Hx. unfold gt0. destruct (Qle_bool x 0) eqn:E; [|done].
  apply Qle_bool_iff in E. exfalso. eapply Qlt_irrefl, Qlt_le_trans; eauto.
Qed.

Lemma Math_trunc_ge_1 (x : number) : (1 <= x)%Q → 1 ≤ Math_trunc x.
Proof.
  destruct x as [n dn]. unfold Qle, Math_trunc. cbn [Qnum Qden]. intros H.
  assert (0 < Z.quot n (Z.pos dn)); [|lia]. apply Z.quot_str_pos. lia.
Qed.

Lemma Math_trunc_nonneg (x : number) : (0 <= x)%Q → 0 ≤ Math_trunc x.
Proof.
  destruct x as [n dn]. unfold Qle, Math_trunc. cbn [Qnum Qden]. intros H.
  apply Z.quot_pos; lia.
Qed.

Lemma page_offset_trunc o lim (k : number) :
  (0 <= k)%Q → page_offset (with_page o lim (Some k)) = Math_trunc k.
Proof.
  intros Hk. unfold page_offset. cbn [offset with_page].
  destruct (gt0 k) eqn:E; [done|].
  unfold gt0 in E. apply negb_false_iff, Qle_bool_iff in E.
  assert (Hz : (k == 0)%Q) by by apply Qle_antisym.
  destruct k as [n dn]. unfold Qeq in Hz. cbn in Hz. unfold Math_trunc. cbn.
  assert (n = 0) as -> by lia. by rewrite Z.quot_0_l.
Qed.

(** X3.  A request with a limit of at least 1 and an offset that is not negative
    gets the slice of the unpaged response that skips trunc(offset) items
    and takes the next trunc(limit): never more items than the limit, and
    as many as are left after the offset. *)
Theorem getPlaylist_page_window m o (l k : number) :
  (1 <= l)%Q → (0 <= k)%Q →
  let unpaged := items (getPlaylist m (with_page o None None)) in
  let page := items (getPlaylist m (with_page o (Some l) (Some k))) in
  page = take (Z.to_nat (Math_trunc l)) (drop (Z.to_nat (Math_trunc k)) unpaged) ∧
  Z.of_nat (length page) =
    Z.min (Math_trunc l) (Z.max 0 (total (getPlaylist m o) - Math_trunc k)).
Proof.
  intros Hl Hk unpaged page.
  pose proof (Math_trunc_ge_1 l Hl) as Hl1. pose proof (Math_trunc_nonneg k Hk) as Hk0.
  assert (Hpage : page = take (Z.to_nat (Math_trunc l))
                              (drop (Z.to_nat (Math_trunc k)) unpaged)).
  { unfold page, unpaged, getPlaylist.
    destruct (db m) as [d|]; [|cbn [items]; by rewrite drop_nil, take_nil].
    destruct (no_root m); [cbn [items]; by rewrite drop_nil, take_nil|]. cbn [items].
    rewrite !baseSql_with_page.
    change (orderBy (buildPlaylistQueryParts (with_page o _ _)))
      with (orderBy (buildPlaylistQueryParts o)).
    rewrite page_offset_trunc by done.
    unfold page_limit. cbn [limit with_page].
    rewrite gt0_true by (eapply Qlt_le_trans; [|exact Hl]; done).
    unfold limit_offset, truthy.
    destruct (Z.eqb_spec (Math_trunc l) 0) as [?|_]; [lia|]. cbn [negb].
    by rewrite fmap_take, fmap_drop. }
  split; [done|].
  rewrite Hpage, length_take, length_drop.
  assert (Htotal : total (getPlaylist m o) = Z.of_nat (length unpaged)).
  { unfold unpaged, getPlaylist. destruct (db m) as [d|]; [|done].
    destruct (no_root m); [done|]. cbn [items total].
    rewrite baseSql_with_page. unfold page_limit. cbn [limit with_page limit_offset].
    by rewrite length_fmap, order_rows_length. }
  rewrite Htotal. lia.
Qed.

Lemma getPlaylist_page_window_witness :
  items (getPlaylist Sample.three (with_page (Sample.request SortPlaylist [])
                                      (Some (5 # 2)%Q) (Some 1%Q))) =
  take 2 (drop 1 (items (getPlaylist Sample.three
                           (with_page (Sample.request SortPlaylist []) None None)))).
Proof.
  apply (getPlaylist_page_window Sample.three (Sample.request SortPlaylist [])
           (5 # 2)%Q 1%Q); vm_compute; discriminate.
Defined.

(** X4.  A positive limit below 1 truncates to 0, which counts as no limit: the
    whole filtered sequence is returned and the offset is not applied. *)
Theorem getPlaylist_fractional_limit m o (l : number) off :
  (0 < l)%Q → (l < 1)%Q →
  items (getPlaylist m (with_page o (Some l) off)) =
  items (getPlaylist m (with_page o None None)).
Proof.
  intros Hpos Hlt. unfold getPlaylist. destruct (db m) as [d|]; [|done].
  destruct (no_root m); [done|]. cbn [items].
  rewrite !baseSql_with_page.
  change (orderBy (buildPlaylistQueryParts (with_page o _ _)))
    with (orderBy (buildPlaylistQueryParts o)).
  unfold page_limit. cbn [limit with_page].
  rewrite gt0_true by done. rewrite Math_trunc_small; [done| |done].
  eapply Qlt_trans; [|exact Hpos]. done.
Qed.

Lemma getPlaylist_fractional_limit_witness :
  items (getPlaylist Sample.three (with_page (Sample.request SortPlaylist [])
                                      (Some (1 # 2)%Q) (Some 2%Q))) =
  items (getPlaylist Sample.three (with_page (Sample.request SortPlaylist []) None None)).
Proof.
  apply (getPlaylist_fractional_limit Sample.three (Sample.request SortPlaylist [])
           (1 # 2)%Q (Some 2%Q)); reflexivity.
Defined.

(** *** The rating filter *)

Lemma where_clause_spec o f :
  where_clause (buildPlaylistQueryParts o) f = true ↔
  f_is_missing f = false ∧ ((ratingMin o <= 0)%Q ∨ (ratingMin o <= f_rating f)%Q).
Proof.
  unfold where_clause, buildPlaylistQueryParts. cbn [ratingParams].
  rewrite andb_true_iff, negb_true_iff. unfold gt0.
  destruct (Qle_bool (ratingMin o) 0) eqn:E; cbn [negb].
  - apply Qle_bool_iff in E. tauto.
  - rewrite Qle_bool_iff. split; [tauto|]. intros [? [H0|?]]; [|done].
    apply Qle_bool_iff in H0. congruence.
Qed.

(** X5.  With no required tag and no page limit, the response holds exactly the
    files that are not flagged missing and whose rating is at least
    [ratingMin]; a [ratingMin] of 0 or less filters nothing. *)
Theorem getPlaylist_rating_filter m d o i :
  db m = Some d → no_root m = false →
  page_limit o = None → req_tags o = [] →
  i ∈ i_id <$> items (getPlaylist m o) ↔
  ∃ f, f ∈ files d ∧ f_id f = i ∧ f_is_missing f = false ∧
       ((ratingMin o <= 0)%Q ∨ (ratingMin o <= f_rating f)%Q).
Proof.
  intros Hd Hr Hlim Htags. split.
  - intros Hin. apply (getPlaylist_item_row m d o i Hd Hr) in Hin as (f & Hf & Hid & Hw).
    exists f. split_and!; [done..| |]; apply Is_true_true, where_clause_spec in Hw; tauto.
  - intros (f & Hf & <- & Hmiss & Hrate).
    apply (getPlaylist_row_item m d o f Hd Hr Hlim Hf).
    + apply Is_true_true, where_clause_spec. tauto.
    + unfold having_clause, buildPlaylistQueryParts. cbn [tagParams]. by rewrite Htags.
Qed.

Lemma getPlaylist_rating_filter_witness :
  2 ∈ i_id <$> items (getPlaylist Sample.tagged (Sample.request SortCreated [])).
Proof.
  apply (getPlaylist_rating_filter Sample.tagged Sample.tagged_db
           (Sample.request SortCreated []) 2); try reflexivity.
  exists (Sample.file 2 "two.mp4" false). split_and!; try reflexivity.
  - right. left.
  - left. vm_compute. discriminate.
Defined.

End QueryMore.

(** * Further properties of the mutation API *)

Section Tags.

Implicit Types (d : DB) (m : LibraryManager) (f : FileRow) (t : TagRow) (r : FileTagRow).

Lemma find_first_unique {A B} (key : A → B) `{!EqDecision B} (l : list A) x :
  NoDup (key <$> l) → x ∈ l →
  List.find (fun y => bool_decide (key y = key x)) l = Some x.
Proof.
  intros Hnd Hx.
  destruct (List.find _ l) as [y|] eqn:Hfind.
  - apply find_some_elem in Hfind as [Hy Hk]. apply bool_decide_eq_true in Hk.
    f_equal. by apply (NoDup_fmap_inj key l).
  - apply (proj1 (find_none_iff _ _)) with (x := x) in Hfind; [|done].
    by apply bool_decide_eq_false in Hfind.
Qed.

Lemma tag_name_spec d tagId name :
  NoDup (t_id <$> tags d) →
  tag_name d tagId = Some name ↔ ∃ t, t ∈ tags d ∧ t_id t = tagId ∧ t_name t = name.
Proof.
  intros Hnd. unfold tag_name. split.
  - destruct (List.find _ _) as [t|] eqn:Hfind; [|done]. cbn. intros [= <-].
    apply find_some_elem in Hfind as [Ht Hid]. apply bool_decide_eq_true in Hid. eauto.
  - intros (t & Ht & <- & <-). by rewrite (find_first_unique t_id (tags d) t).
Qed.

(** A file carries a name when an association row joins it to the tag of
    that name. *)
Lemma carries_spec d fileId name :
  NoDup (t_id <$> tags d) →
  carries d fileId name ↔
  ∃ t, t ∈ tags d ∧ t_name t = name ∧ (fileId, t_id t) ∈ tag_keys d.
Proof.
  intros Hnd. unfold carries, joined_names, tag_keys.
  rewrite list_elem_of_fmap. setoid_rewrite list_elem_of_filter. split.
  - intros (r & Hname & Hfile & Hr). symmetry in Hname. cbn in Hname.
    apply tag_name_spec in Hname as (t & Ht & Hid & Hn); [|done].
    exists t. split_and!; [done..|]. apply list_elem_of_fmap. exists r.
    split; [|done]. by rewrite Hfile, Hid.
  - intros (t & Ht & Hn & (r & Heq & Hr)%list_elem_of_fmap). injection Heq as Hf Hid.
    exists r. split_and!; [|done..]. symmetry. cbn. apply tag_name_spec; [done|].
    exists t. by rewrite Hid.
Qed.

Lemma sublist_Forall_keep {A} (P : A → Prop) (l k : list A) :
  l `sublist_of` k → Forall P k → Forall P l.
Proof.
  intros Hsub. rewrite !Forall_forall. intros H x Hx. apply H.
  by eapply elem_of_sublist.
Qed.

(** The tag row that [toggleTag] settles on: the one of that name, or a new
    one. *)
Lemma ensure_tag_spec d name :
  wf_tags d →
  ∃ tagId d1,
    match select_tag_id d name with
    | Some tagId => if truthy tagId then Normal (tagId, d) else insert_tag name d
    | None => insert_tag name d
    end = Normal (tagId, d1) ∧
    wf_tags d1 ∧ files d1 = files d ∧ files_seq d1 = files_seq d ∧
    file_playlists d1 = file_playlists d ∧ file_tags d1 = file_tags d ∧
    {| t_id := tagId; t_name := name |} ∈ tags d1 ∧
    (tags d1 = tags d ∨
     (¬ name ∈ t_name <$> tags d ∧
      tags d1 = (tags d ++ [{| t_id := tagId; t_name := name |}])%list)).
Proof.
  intros Hwf. unfold select_tag_id.
  destruct (List.find _ (tags d)) as [t|] eqn:Hfind; cbn [fmap option_fmap option_map].
  - apply find_some_elem in Hfind as [Ht Hname]. apply bool_decide_eq_true in Hname.
    pose proof (wft_bound d Hwf) as Hb. rewrite Forall_forall in Hb.
    specialize (Hb t Ht). unfold truthy.
    destruct (Z.eqb_spec (t_id t) 0) as [|_]; [lia|]. cbn.
    exists (t_id t), d. split_and!; try done; [|by left].
    destruct t as [i n]; cbn in *. by subst.
  - assert (Hnew : name ∉ t_name <$> tags d).
    { intros (t & Hn & Ht)%list_elem_of_fmap.
      apply (proj1 (find_none_iff _ _)) with (x := t) in Hfind; [|done].
      by apply bool_decide_eq_false in Hfind. }
    unfold insert_tag. rewrite bool_decide_eq_false_2 by done.
    eexists _, _. split; [done|]. cbn.
    pose proof (wft_bound d Hwf) as Hb. pose proof (wft_seq d Hwf) as Hs.
    split_and!; try done.
    + destruct Hwf. constructor; cbn; try done.
      * rewrite fmap_app. apply NoDup_app. split_and!; [done| |apply NoDup_singleton].
        intros i (t & -> & Ht)%list_elem_of_fmap Hi. apply list_elem_of_singleton in Hi.
        rewrite Forall_forall in Hb. specialize (Hb t Ht). cbn in Hi. lia.
      * rewrite fmap_app. apply NoDup_app. split_and!; [done| |apply NoDup_singleton].
        intros n Hn Hi. apply list_elem_of_singleton in Hi. cbn in Hi. by subst.
      * lia.
      * apply Forall_app_2.
        -- eapply Forall_impl; [exact Hb|]. cbn. intros; lia.
        -- apply Forall_singleton. cbn. lia.
      * eapply Forall_impl; [exact wft_fk0|]. cbn. intros r [? ?]. split; [done|].
        rewrite fmap_app. apply elem_of_app. by left.
    + apply elem_of_app. right. by apply list_elem_of_singleton.
    + by right.
Qed.

(** The second half of [toggleTag]: the association of the file with the
    tag is deleted when there is one and inserted when there is none. *)
Lemma flip_file_tag_spec m d fileId tagId :
  wf_tags d → fileId ∈ f_id <$> files d → tagId ∈ t_id <$> tags d →
  ∃ d2,
    match select_file_tag d fileId tagId with
    | Some rowId => (Normal (), with_db m (delete_file_tag rowId d))
    | None =>
        match insert_or_ignore_file_tag fileId tagId d with
        | Normal d2 => (Normal (), with_db m d2)
        | Thrown e => (Thrown e, with_db m d)
        end
    end = (Normal (), with_db m d2) ∧
    wf_tags d2 ∧ files d2 = files d ∧ files_seq d2 = files_seq d ∧
    file_playlists d2 = file_playlists d ∧ tags d2 = tags d ∧
    ∀ p, p ∈ tag_keys d2 ↔
         (p ∈ tag_keys d ∧ p ≠ (fileId, tagId)) ∨ (p = (fileId, tagId) ∧ ¬ p ∈ tag_keys d).
Proof.
  intros Hwf Hfile Htag. unfold select_file_tag.
  destruct (List.find _ (file_tags d)) as [r0|] eqn:Hfind; cbn [fmap option_fmap option_map].
  - apply find_some_elem in Hfind as [Hr0 Hkey]. apply bool_decide_eq_true in Hkey.
    destruct Hkey as [Hf Ht].
    eexists. split; [done|]. unfold delete_file_tag; cbn.
    assert (Hrows : ∀ r, r ∈ filter (fun r => ft_id r ≠ ft_id r0) (file_tags d) ↔
                         r ∈ file_tags d ∧ r ≠ r0).
    { intros r. rewrite list_elem_of_filter. split.
      - intros [Hne Hr]. split; [done|]. by intros ->.
      - intros [Hr Hne]. split; [|done]. intros Heq. apply Hne.
        by apply (NoDup_fmap_inj ft_id (file_tags d)); [apply Hwf|..]. }
    split_and!; try done.
    + destruct Hwf. constructor; cbn; try done.
      * unfold tag_keys; cbn. eapply sublist_NoDup; [exact wft_keys0|].
        apply fmap_sublist, sublist_filter.
      * eapply sublist_NoDup; [exact wft_row_ids0|]. apply fmap_sublist, sublist_filter.
      * eapply sublist_Forall_keep; [apply sublist_filter|done].
      * eapply sublist_Forall_keep; [apply sublist_filter|done].
    + intros p. unfold tag_keys; cbn. rewrite !list_elem_of_fmap.
      setoid_rewrite Hrows. split.
      * intros (r & -> & Hr & Hne). left. split; [by exists r|].
        intros Heq. apply Hne.
        apply (NoDup_fmap_inj (fun r => (ft_file_id r, ft_tag_id r)) (file_tags d));
          [apply Hwf|done..|]. by rewrite Heq, Hf, Ht.
      * intros [[(r & -> & Hr) Hne]|[-> Hno]].
        -- exists r. split_and!; [done..|]. intros ->. apply Hne. by rewrite Hf, Ht.
        -- exfalso. apply Hno. exists r0. by rewrite Hf, Ht.
  - assert (Hno : ¬ (fileId, tagId) ∈ tag_keys d).
    { intros (r & Heq & Hr)%list_elem_of_fmap. injection Heq as Hf Ht.
      apply (proj1 (find_none_iff _ _)) with (x := r) in Hfind; [|done].
      apply bool_decide_eq_false in Hfind. by apply Hfind. }
    unfold insert_or_ignore_file_tag.
    rewrite bool_decide_eq_false_2 by exact Hno.
    rewrite bool_decide_eq_true_2 by done.
    eexists. split; [done|]. cbn. split_and!; try done.
    + destruct Hwf. constructor; cbn; try done.
      * unfold tag_keys; cbn. rewrite fmap_app. apply NoDup_app.
        split_and!; [done| |apply NoDup_singleton].
        intros p Hp Hi. apply list_elem_of_singleton in Hi. cbn in Hi. by subst.
      * rewrite fmap_app. apply NoDup_app. split_and!; [done| |apply NoDup_singleton].
        intros i (r & -> & Hr)%list_elem_of_fmap Hi. apply list_elem_of_singleton in Hi.
        rewrite Forall_forall in wft_row_bound0. specialize (wft_row_bound0 r Hr).
        cbn in Hi. lia.
      * apply Forall_app_2.
        -- eapply Forall_impl; [exact wft_row_bound0|]. cbn. intros; lia.
        -- apply Forall_singleton. cbn. lia.
      * apply Forall_app_2; [done|]. by apply Forall_singleton.
    + intros p. unfold tag_keys; cbn. rewrite fmap_app, elem_of_app. cbn.
      rewrite list_elem_of_singleton. fold (tag_keys d). split.
      * intros [Hp| ->]; [left|right]; [|done]. split; [done|]. by intros ->.
      * intros [[Hp _]|[-> _]]; [by left|by right].
Qed.

(** [toggleTag] on a file of the catalog. *)
Lemma toggleTag_spec m d fileId name :
  db m = Some d → wf_tags d → fileId ∈ f_id <$> files d →
  ∃ d' tagId,
    toggleTag m fileId name = (Normal (), with_db m d') ∧
    wf_tags d' ∧ files d' = files d ∧ files_seq d' = files_seq d ∧
    file_playlists d' = file_playlists d ∧
    {| t_id := tagId; t_name := name |} ∈ tags d' ∧
    (tags d' = tags d ∨
     (¬ name ∈ t_name <$> tags d ∧
      tags d' = (tags d ++ [{| t_id := tagId; t_name := name |}])%list)) ∧
    ∀ p, p ∈ tag_keys d' ↔
         (p ∈ tag_keys d ∧ p ≠ (fileId, tagId)) ∨ (p = (fileId, tagId) ∧ ¬ p ∈ tag_keys d).
Proof.
  intros Hdb Hwf Hfile. unfold toggleTag. rewrite Hdb.
  destruct (ensure_tag_spec d name Hwf)
    as (tagId & d1 & -> & Hwf1 & Hf1 & Hs1 & Hp1 & Hft1 & Hin1 & Htags1).
  destruct (flip_file_tag_spec m d1 fileId tagId Hwf1)
    as (d2 & -> & Hwf2 & Hf2 & Hs2 & Hp2 & Ht2 & Hkeys).
  { by rewrite Hf1. }
  { apply list_elem_of_fmap. by eexists; split; [|exact Hin1]. }
  exists d2, tagId. split; [done|]. split_and!; try done; try congruence.
  - intros p. rewrite Hkeys. unfold tag_keys. by rewrite Hft1.
Qed.

(** What a toggle does to the names the files carry: the one pair
    (file, name) flips, every other pair stays. *)
Lemma toggleTag_carries m d fileId name :
  db m = Some d → wf_tags d → fileId ∈ f_id <$> files d →
  ∃ d',
    toggleTag m fileId name = (Normal (), with_db m d') ∧
    wf_tags d' ∧ files d' = files d ∧ file_playlists d' = file_playlists d ∧
    name ∈ t_name <$> tags d' ∧
    (∀ n, n ∈ t_name <$> tags d → n ∈ t_name <$> tags d') ∧
    (carries d' fileId name ↔ ¬ carries d fileId name) ∧
    (∀ i n, (i, n) ≠ (fileId, name) → carries d' i n ↔ carries d i n).
Proof.
  intros Hdb Hwf Hfile.
  destruct (toggleTag_spec m d fileId name Hdb Hwf Hfile)
    as (d' & tagId & Hrun & Hwf' & Hf & _ & Hp & HT & Htags & Hkeys).
  exists d'. split; [done|].
  set (T := {| t_id := tagId; t_name := name |}) in *.
  assert (Hsub : ∀ t, t ∈ tags d → t ∈ tags d').
  { intros t Ht. destruct Htags as [->|[_ ->]]; [done|]. apply elem_of_app. by left. }
  assert (Hid : ∀ t, t ∈ tags d' → t_id t = tagId → t = T).
  { intros t Ht Hi. by apply (NoDup_fmap_inj t_id (tags d')); [apply Hwf'|..]. }
  assert (Hname : ∀ t, t ∈ tags d' → t_name t = name → t = T).
  { intros t Ht Hn. by apply (NoDup_fmap_inj t_name (tags d')); [apply Hwf'|..]. }
  assert (Hold : ∀ t i, t ∈ tags d' → (i, t_id t) ∈ tag_keys d → t ∈ tags d).
  { intros t i Ht (r & Heq & Hr)%list_elem_of_fmap. injection Heq as _ Hi.
    pose proof (wft_fk d Hwf) as Hfk. rewrite Forall_forall in Hfk.
    destruct (Hfk r Hr) as [_ (t0 & Hi0 & Ht0)%list_elem_of_fmap].
    assert (t = t0) as ->; [|done].
    apply (NoDup_fmap_inj t_id (tags d')); [apply Hwf'|auto..|congruence]. }
  split_and!; try done.
  - apply list_elem_of_fmap. by exists T.
  - intros n (t & -> & Ht)%list_elem_of_fmap. apply list_elem_of_fmap. exists t. auto.
  - rewrite !carries_spec by apply Hwf || apply Hwf'. split.
    + intros (t & Ht & Hn & Hk) (t0 & Ht0 & Hn0 & Hk0).
      rewrite (Hname t Ht Hn) in Hk. rewrite (Hname t0 (Hsub _ Ht0) Hn0) in Hk0.
      apply Hkeys in Hk as [[_ Hne]|[_ Hno]]; done.
    + intros Hno. exists T. split_and!; [done..|]. apply Hkeys. right. split; [done|].
      intros Hk. apply Hno. exists T. split_and!; [|done..]. by apply (Hold T fileId).
  - intros i n Hne. rewrite !carries_spec by apply Hwf || apply Hwf'. split.
    + intros (t & Ht & Hn & Hk). apply Hkeys in Hk as [[Hk _]|[Heq _]].
      * exists t. split_and!; [|done..]. by apply (Hold t i).
      * injection Heq as -> Hi. destruct Hne. f_equal. rewrite <- Hn.
        by rewrite (Hid t Ht Hi).
    + intros (t & Ht & Hn & Hk). exists t. split_and!; [auto|done|].
      apply Hkeys. left. split; [done|]. intros Heq. injection Heq as -> Hi.
      destruct Hne. f_equal. rewrite <- Hn. by rewrite (Hid t (Hsub _ Ht) Hi).
Qed.

(** X6.  [toggleTag] on a file of the catalog is a strict toggle of one
    (file, name) pair: it returns normally, the file carries the name
    afterwards exactly when it did not before, no other file and no other
    name is affected, the files and the memberships are untouched, and the
    tag row of that name exists afterwards, whichever way the toggle went. *)
Theorem toggleTag_flips_one_pair m d fileId name :
  db m = Some d → wf_tags d → fileId ∈ f_id <$> files d →
  ∃ d',
    toggleTag m fileId name = (Normal (), with_db m d') ∧
    files d' = files d ∧ file_playlists d' = file_playlists d ∧
    name ∈ t_name <$> tags d' ∧
    (carries d' fileId name ↔ ¬ carries d fileId name) ∧
    (∀ i n, (i, n) ≠ (fileId, name) → carries d' i n ↔ carries d i n).
Proof.
  intros Hdb Hwf Hfile.
  destruct (toggleTag_carries m d fileId name Hdb Hwf Hfile)
    as (d' & Hrun & _ & Hf & Hp & Hn & _ & Hflip & Hrest).
  by exists d'.
Qed.

(** X7.  Toggling the same tag on the same file twice gives every file the
    names it carried at the start; the files and memberships are unchanged
    and no tag name is lost, but the tag row created by the first call stays. *)
Theorem toggleTag_twice m d fileId name :
  db m = Some d → wf_tags d → fileId ∈ f_id <$> files d →
  ∃ m1 d2,
    toggleTag m fileId name = (Normal (), m1) ∧
    toggleTag m1 fileId name = (Normal (), with_db m d2) ∧
    files d2 = files d ∧ file_playlists d2 = file_playlists d ∧
    name ∈ t_name <$> tags d2 ∧
    (∀ n, n ∈ t_name <$> tags d → n ∈ t_name <$> tags d2) ∧
    ∀ i n, carries d2 i n ↔ carries d i n.
Proof.
  intros Hdb Hwf Hfile.
  destruct (toggleTag_carries m d fileId name Hdb Hwf Hfile)
    as (d1 & Hrun1 & Hwf1 & Hf1 & Hp1 & _ & Hn1 & Hflip1 & Hrest1).
  destruct (toggleTag_carries (with_db m d1) d1 fileId name eq_refl Hwf1)
    as (d2 & Hrun2 & _ & Hf2 & Hp2 & Hin2 & Hn2 & Hflip2 & Hrest2).
  { by rewrite Hf1. }
  exists (with_db m d1), d2. split_and!; try done; try congruence.
  - auto.
  - intros i n. destruct (decide ((i, n) = (fileId, name))) as [Heq|Hne].
    + injection Heq as -> ->. rewrite Hflip2, Hflip1.
      unfold carries. destruct (decide (Some name ∈ joined_names d fileId)); tauto.
    + by rewrite Hrest2, Hrest1.
Qed.

End Tags.

Section Updates.

Implicit Types (d : DB) (m : LibraryManager) (f : FileRow) (g : GroupRow).

Lemma insert_row_fmap ob (u : GroupRow → GroupRow) x l :
  (∀ a b, order_le ob (u a) (u b) = order_le ob a b) →
  insert_row ob (u x) (u <$> l) = u <$> insert_row ob x l.
Proof.
  intros Hle. induction l as [|y l IH]; [done|]. cbn. rewrite Hle.
  destruct (order_le ob x y); [done|]. by rewrite IH.
Qed.

(** ORDER BY commutes with a change of the rows that its terms do not read. *)
Lemma order_rows_fmap ob (u : GroupRow → GroupRow) l :
  (∀ a b, order_le ob (u a) (u b) = order_le ob a b) →
  order_rows ob (u <$> l) = u <$> order_rows ob l.
Proof.
  intros Hle. induction l as [|x l IH]; [done|]. cbn.
  fold (order_rows ob (u <$> l)). fold (order_rows ob l).
  rewrite IH. by apply insert_row_fmap.
Qed.

Lemma limit_offset_fmap {A B} (u : A → B) lim off (l : list A) :
  limit_offset lim off (u <$> l) = u <$> limit_offset lim off l.
Proof.
  unfold limit_offset. destruct lim as [n|]; [|done].
  destruct (truthy n); [|done]. by rewrite <- fmap_drop, <- fmap_take.
Qed.

(** The groups after an UPDATE that keeps the id and what WHERE reads. *)
Lemma baseSql_update d pl q fileId upd :
  (∀ f, f_id (upd f) = f_id f) →
  (∀ f, where_clause q (upd f) = where_clause q f) →
  baseSql (update_files_where_id fileId upd d) pl q =
  on_file (updated_row fileId upd) <$> baseSql d pl q.
Proof.
  intros Hid Hwhere. unfold baseSql, update_files_where_id. cbn [files set_files].
  set (u := updated_row fileId upd).
  assert (Hu : ∀ f, f_id (u f) = f_id f).
  { intros f. unfold u, updated_row. by destruct (bool_decide _). }
  assert (Hw : ∀ f, where_clause q (u f) = where_clause q f).
  { intros f. unfold u, updated_row. by destruct (bool_decide _). }
  change ((fun f => if bool_decide (f_id f = fileId) then upd f else f) <$> files d)
    with (u <$> files d).
  rewrite (filter_fmap_list u (fun f => where_clause q f)).
  rewrite (list_filter_iff _ (fun f => where_clause q f)) by (intros f; by rewrite Hw).
  rewrite <- list_fmap_compose.
  rewrite (list_fmap_ext _ (on_file u ∘ group_of d pl) (filter _ (files d))); last first.
  { intros _ f _. unfold group_of, on_file, membership, joined_names, tag_name; cbn.
    by rewrite Hu. }
  rewrite list_fmap_compose.
  rewrite (filter_fmap_list (on_file u) (fun g => having_clause q g)).
  f_equal.
Qed.

Lemma order_le_on_file ob u a b :
  (∀ f, f_id (u f) = f_id f ∧ f_name (u f) = f_name f ∧
        f_created_ms (u f) = f_created_ms f) →
  order_le ob (on_file u a) (on_file u b) = order_le ob a b.
Proof.
  intros Hkeep. destruct (Hkeep (g_file a)) as (Ha1 & Ha2 & Ha3).
  destruct (Hkeep (g_file b)) as (Hb1 & Hb2 & Hb3).
  destruct ob; cbn; unfold random_key; by rewrite ?Ha1, ?Ha2, ?Ha3, ?Hb1, ?Hb2, ?Hb3.
Qed.

(** The response after an UPDATE of one row that keeps what WHERE and
    ORDER BY read: the same rows in the same places, each mapped to its item
    from the updated row. *)
Lemma getPlaylist_update m d o fileId upd (v : FileItem → FileItem) :
  db m = Some d →
  (∀ f, f_id (upd f) = f_id f ∧ f_name (upd f) = f_name f ∧
        f_created_ms (upd f) = f_created_ms f) →
  (∀ f, where_clause (buildPlaylistQueryParts o) (upd f) =
        where_clause (buildPlaylistQueryParts o) f) →
  (∀ g, to_item (on_file (updated_row fileId upd) g) = v (to_item g)) →
  getPlaylist (with_db m (update_files_where_id fileId upd d)) o =
  {| items := v <$> items (getPlaylist m o); total := total (getPlaylist m o) |}.
Proof.
  intros Hdb Hkeep Hwhere Hitem. unfold getPlaylist. rewrite Hdb. cbn [db with_db].
  change (no_root (with_db m _)) with (no_root m).
  destruct (no_root m) eqn:Hroot; [done|].
  assert (Hu : ∀ f, f_id (updated_row fileId upd f) = f_id f ∧
                    f_name (updated_row fileId upd f) = f_name f ∧
                    f_created_ms (updated_row fileId upd f) = f_created_ms f).
  { intros f. unfold updated_row. destruct (bool_decide _); [apply Hkeep|done]. }
  cbn [libraryPlaylistId with_db total items].
  rewrite baseSql_update by (done || apply Hkeep).
  rewrite order_rows_fmap by (intros; by apply order_le_on_file).
  rewrite limit_offset_fmap, <- !list_fmap_compose, length_fmap. f_equal.
  apply list_fmap_ext. intros _ g _. apply Hitem.
Qed.

(** X8.  Recording a play never changes what the playlist query answers:
    [last_played] and [play_count] are neither selected, nor filtered on,
    nor sorted by. *)
Theorem setLastPlayed_invisible m now fileId o :
  getPlaylist (setLastPlayed m now fileId) o = getPlaylist m o.
Proof.
  unfold setLastPlayed. destruct (db m) as [d|] eqn:Hdb; [|done].
  rewrite (getPlaylist_update m d o fileId (with_play now) (fun it => it)); try done.
  - rewrite list_fmap_id. by destruct (getPlaylist m o).
  - intros g. unfold to_item, on_file, updated_row; cbn.
    by destruct (bool_decide _).
Qed.

(** X9.  A query after [setDuration] answers as before, with the new
    duration on the item of that file: same files, same places, same total. *)
Theorem setDuration_then_getPlaylist m fileId ms o :
  getPlaylist (setDuration m fileId ms) o =
  {| items := time_item fileId ms <$> items (getPlaylist m o);
     total := total (getPlaylist m o) |}.
Proof.
  unfold setDuration. destruct (db m) as [d|] eqn:Hdb.
  - apply getPlaylist_update; try done.
    intros g. unfold to_item, on_file, updated_row, time_item; cbn.
    by destruct (bool_decide _).
  - unfold getPlaylist. by rewrite Hdb.
Qed.

(** X10.  When the request has no rating filter, a query after [setRating]
    answers as before, with the new rating on the item of that file: same
    files, same places, same total. *)
Theorem setRating_then_getPlaylist m fileId rating o :
  (ratingMin o <= 0)%Q →
  getPlaylist (setRating m fileId rating) o =
  {| items := rate_item fileId rating <$> items (getPlaylist m o);
     total := total (getPlaylist m o) |}.
Proof.
  intros Hmin. unfold setRating. destruct (db m) as [d|] eqn:Hdb.
  - apply getPlaylist_update; try done.
    + intros f. unfold where_clause, buildPlaylistQueryParts; cbn.
      by rewrite gt0_false.
    + intros g. unfold to_item, on_file, updated_row, rate_item; cbn.
      by destruct (bool_decide _).
  - unfold getPlaylist. by rewrite Hdb.
Qed.

(** X12.  Plays add up: after [setLastPlayed] was called once for each
    time of a list, the row of the file has its play count raised by the
    length of the list and carries the last of the times; every other column
    and every other row is as before. *)
Theorem setLastPlayed_counts m d fileId (times : list Z) :
  db m = Some d →
  db (foldl (fun m now => setLastPlayed m now fileId) m times) =
  Some (set_files d (played fileId times <$> files d)).
Proof.
  revert m d. induction times as [|t ts IH]; intros m d Hdb; cbn [foldl].
  - rewrite Hdb. f_equal. destruct d as [fs ? ? ? ? ? ?]; unfold set_files; cbn. f_equal.
    rewrite <- (list_fmap_id fs) at 1. apply list_fmap_ext. intros _ f _.
    unfold played. destruct (bool_decide _); [|done].
    destruct f; cbn. f_equal. lia.
  - rewrite (IH (setLastPlayed m t fileId)
                 (update_files_where_id fileId (with_play t) d))
      by (unfold setLastPlayed; by rewrite Hdb).
    f_equal. unfold update_files_where_id, set_files; cbn.
    f_equal. rewrite <- list_fmap_compose. apply list_fmap_ext. intros _ f _. cbn.
    unfold played. destruct (bool_decide (f_id f = fileId)) eqn:Hid; cbn.
    + rewrite Hid. f_equal; [|lia]. rewrite last_cons. by destruct (last ts).
    + by rewrite Hid.
Qed.

Lemma setLastPlayed_counts_witness :
  db (foldl (fun m now => setLastPlayed m now 2) Sample.tagged [100; 200; 300]) =
  Some (set_files Sample.tagged_db (played 2 [100; 200; 300] <$> files Sample.tagged_db)).
Proof.
  apply (setLastPlayed_counts Sample.tagged Sample.tagged_db 2 [100; 200; 300]).
  reflexivity.
Defined.

Lemma setRating_then_getPlaylist_witness :
  getPlaylist (setRating Sample.tagged 2 4) (Sample.request SortFilename []) =
  {| items := rate_item 2 4 <$> items (getPlaylist Sample.tagged (Sample.request SortFilename []));
     total := total (getPlaylist Sample.tagged (Sample.request SortFilename [])) |}.
Proof.
  apply (setRating_then_getPlaylist Sample.tagged 2 4 (Sample.request SortFilename [])).
  cbn. unfold Qle. cbn. lia.
Defined.

End Updates.

Section TagFilter.

Implicit Types (d : DB) (m : LibraryManager) (f : FileRow).

Lemma sample_tagged_wf_tags : wf_tags Sample.tagged_db.
Proof.
  constructor; cbn; try lia; try (apply (bool_decide_unpack _); vm_compute; exact I).
Qed.

Lemma toggleTag_flips_one_pair_witness :
  ∃ d',
    toggleTag Sample.tagged 2 "b" = (Normal (), with_db Sample.tagged d') ∧
    files d' = files Sample.tagged_db ∧
    file_playlists d' = file_playlists Sample.tagged_db ∧
    "b" ∈ t_name <$> tags d' ∧
    (carries d' 2 "b" ↔ ¬ carries Sample.tagged_db 2 "b") ∧
    (∀ i n, (i, n) ≠ (2, "b") → carries d' i n ↔ carries Sample.tagged_db i n).
Proof.
  apply (toggleTag_flips_one_pair Sample.tagged Sample.tagged_db 2 "b").
  - reflexivity.
  - exact sample_tagged_wf_tags.
  - apply (bool_decide_unpack _). vm_compute. exact I.
Defined.

Lemma toggleTag_twice_witness :
  ∃ m1 d2,
    toggleTag Sample.tagged 2 "new" = (Normal (), m1) ∧
    toggleTag m1 2 "new" = (Normal (), with_db Sample.tagged d2) ∧
    files d2 = files Sample.tagged_db ∧
    file_playlists d2 = file_playlists Sample.tagged_db ∧
    "new" ∈ t_name <$> tags d2 ∧
    (∀ n, n ∈ t_name <$> tags Sample.tagged_db → n ∈ t_name <$> tags d2) ∧
    ∀ i n, carries d2 i n ↔ carries Sample.tagged_db i n.
Proof.
  apply (toggleTag_twice Sample.tagged Sample.tagged_db 2 "new").
  - reflexivity.
  - exact sample_tagged_wf_tags.
  - apply (bool_decide_unpack _). vm_compute. exact I.
Defined.

(** The ids of an unpaged response are the ids of the rows that pass WHERE
    and whose group passes HAVING. *)
Lemma getPlaylist_ids_spec m d o i :
  db m = Some d → no_root m = false → page_limit o = None →
  i ∈ i_id <$> items (getPlaylist m o) ↔
  ∃ f, f ∈ files d ∧ f_id f = i ∧
       where_clause (buildPlaylistQueryParts o) f ∧
       having_clause (buildPlaylistQueryParts o) (group_of d (libraryPlaylistId m) f).
Proof.
  intros Hdb Hroot Hlim. rewrite (getPlaylist_open m d o Hdb Hroot). cbn [items].
  rewrite Hlim. cbn [limit_offset]. rewrite <- list_fmap_compose, list_elem_of_fmap.
  setoid_rewrite order_rows_Permutation. setoid_rewrite elem_of_baseSql. split.
  - intros (g & -> & f & Hf & -> & Hw & Hh). by exists f.
  - intros (f & Hf & <- & Hw & Hh). exists (group_of d (libraryPlaylistId m) f).
    split; [done|]. by exists f.
Qed.

(** HAVING for a single requested name. *)
Lemma having_single o d pl f name :
  req_tags o = [name] →
  having_clause (buildPlaylistQueryParts o) (group_of d pl f) ↔ carries d (f_id f) name.
Proof.
  intros Hreq. unfold having_clause, buildPlaylistQueryParts; cbn [tagParams g_names group_of].
  rewrite Hreq. cbn [length]. rewrite (bool_decide_eq_true_2 (0 < 1)%nat) by lia.
  rewrite bool_decide_spec.
  rewrite (count_distinct_in_all [name] (joined_names d (f_id f))) by apply NoDup_singleton.
  unfold carries. split.
  - intros H. apply H. by apply list_elem_of_singleton.
  - by intros H t ->%list_elem_of_singleton.
Qed.

(** X11.  Under a filter on one tag name, toggling that tag on a file that
    passes the rest of the filter flips whether the unpaged response lists
    the file. *)
Theorem toggleTag_then_filter m d o f name :
  db m = Some d → no_root m = false → wf_tags d →
  f ∈ files d → f_is_missing f = false →
  (ratingMin o <= 0)%Q ∨ (ratingMin o <= f_rating f)%Q →
  page_limit o = None → req_tags o = [name] →
  f_id f ∈ i_id <$> items (getPlaylist (toggleTag m (f_id f) name).2 o) ↔
  ¬ f_id f ∈ i_id <$> items (getPlaylist m o).
Proof.
  intros Hdb Hroot Hwf Hf Hmiss Hrate Hlim Hreq.
  destruct (toggleTag_carries m d (f_id f) name Hdb Hwf)
    as (d' & Hrun & _ & Hfiles & _ & _ & _ & Hflip & _).
  { apply list_elem_of_fmap. by exists f. }
  rewrite Hrun. cbn [snd].
  assert (Hw : where_clause (buildPlaylistQueryParts o) f).
  { apply Is_true_true, where_clause_spec. done. }
  assert (Hids : ∀ d0, files d0 = files d →
            f_id f ∈ i_id <$> items (getPlaylist (with_db m d0) o) ↔ carries d0 (f_id f) name).
  { intros d0 Hf0.
    rewrite (getPlaylist_ids_spec (with_db m d0) d0 o (f_id f) eq_refl Hroot Hlim).
    rewrite Hf0. split.
    - intros (f' & _ & Hid & _ & Hh).
      apply (proj1 (having_single o d0 _ f' name Hreq)) in Hh. by rewrite Hid in Hh.
    - intros Hc. exists f. split_and!; [done..|].
      by apply (proj2 (having_single o d0 _ f name Hreq)). }
  rewrite (Hids d' Hfiles), Hflip.
  assert (Hm : with_db m d = m).
  { destruct m as [r dbm p]; cbn in *. by subst. }
  by rewrite <- (Hids d eq_refl), Hm.
Qed.

Lemma toggleTag_then_filter_witness :
  2 ∈ i_id <$> items (getPlaylist (toggleTag Sample.tagged 2 "b").2
                        (Sample.request SortPlaylist ["b"])) ↔
  ¬ 2 ∈ i_id <$> items (getPlaylist Sample.tagged (Sample.request SortPlaylist ["b"])).
Proof.
  apply (toggleTag_then_filter Sample.tagged Sample.tagged_db
           (Sample.request SortPlaylist ["b"]) (Sample.file 2 "two.mp4" false) "b").
  - reflexivity.
  - reflexivity.
  - exact sample_tagged_wf_tags.
  - apply list_elem_of_further, list_elem_of_here.
  - reflexivity.
  - left. cbn. unfold Qle. cbn. lia.
  - reflexivity.
  - reflexivity.
Defined.

End TagFilter.

(** * Reordering from the renderer *)

Section Moves.

Implicit Types (d : DB) (m : LibraryManager) (f : FileRow).

(** The listed files that a query in playlist order returns after
    [saveOrder] come in the order of the list, when each listed id is a
    member of the default collection. *)
Lemma saveOrder_listed_order m d ids o :
  db m = Some d → no_root m = false →
  NoDup (f_id <$> files d) → NoDup ids →
  (∀ i, i ∈ ids → (i, libraryPlaylistId m) ∈ member_keys d) →
  sort o = SortPlaylist → page_limit o = None →
  let result := i_id <$> items (getPlaylist (saveOrder m ids) o) in
  filter (fun i => i ∈ ids) result = filter (fun i => i ∈ result) ids.
Proof.
  intros Hd Hr Hfiles Hnd Hmem Hsort Hlim result.
  set (pl := libraryPlaylistId m) in *.
  set (d' := save_order_from pl 0 ids d).
  assert (Hm' : saveOrder m ids = with_db m d') by (unfold saveOrder; by rewrite Hd).
  assert (Hidx : ∀ (k : nat) i, ids !! k = Some i →
                 membership d' pl i ≫= fp_order_index = Some (Z.of_nat k)).
  { intros k i Hk. apply order_index_after_saveOrder; [done..|].
    apply Hmem. by eapply list_elem_of_lookup_2. }
  assert (Hfiles' : files d' = files d).
  { unfold d'. by rewrite save_order_from_rows. }
  assert (Hres : ∃ rows, result = (f_id ∘ g_file) <$> rows ∧
                   rows ≡ₚ baseSql d' pl (buildPlaylistQueryParts o) ∧
                   StronglySorted (order_le ByOrderIndex) rows).
  { exists (order_rows ByOrderIndex (baseSql d' pl (buildPlaylistQueryParts o))).
    split_and!.
    - unfold result. rewrite Hm'.
      rewrite (getPlaylist_open (with_db m d') d' o eq_refl Hr). cbn [items].
      rewrite Hlim. cbn [limit_offset].
      rewrite <- list_fmap_compose.
      unfold buildPlaylistQueryParts at 1. cbn [orderBy]. unfold buildOrderBy.
      by rewrite Hsort.
    - apply order_rows_Permutation.
    - apply order_rows_sorted; [apply order_index_total|apply order_index_trans]. }
  destruct Hres as (rows & Hresult & Hperm & Hsorted).
  pose proof (before_antisymm ids Hnd) as Hanti.
  apply (StronglySorted_unique (before ids)).
  - rewrite Hresult, filter_fmap_list.
    set (P := fun g : GroupRow => ∃ k : nat, ids !! k = Some (f_id (g_file g)) ∧
                                   g_order_index g = Some (Z.of_nat k)).
    apply StronglySorted_fmap
      with (R1 := fun a b => Is_true (order_le ByOrderIndex a b) ∧ P a ∧ P b).
    + intros a b (Hle & (ka & Hka & Hoa) & (kb & Hkb & Hob)).
      exists ka, kb. split_and!; [done..|].
      apply Is_true_true in Hle. cbn in Hle. rewrite Hoa, Hob in Hle. cbn in Hle.
      rewrite orb_true_iff, andb_true_iff, Z.ltb_lt, Z.eqb_eq in Hle. lia.
    + apply StronglySorted_strengthen; [by apply StronglySorted_filter|].
      apply Forall_forall. intros g [Hg Hin]%list_elem_of_filter.
      rewrite Hperm in Hin.
      apply elem_of_baseSql in Hin as (f & _ & -> & _).
      cbn in Hg. apply list_elem_of_lookup in Hg as [k Hk].
      exists k. cbn. split; [done|]. by apply Hidx.
  - apply StronglySorted_filter, before_sorted.
  - apply NoDup_Permutation.
    + apply NoDup_filter. rewrite Hresult, Hperm.
      apply baseSql_ids_NoDup. by rewrite Hfiles'.
    + by apply NoDup_filter.
    + intros x. rewrite !list_elem_of_filter. tauto.
Qed.

(** [saveOrder] changes the order of an unpaged response, not the files in
    it. *)
Lemma saveOrder_same_ids m d ids o i :
  db m = Some d → no_root m = false → page_limit o = None →
  i ∈ i_id <$> items (getPlaylist (saveOrder m ids) o) ↔
  i ∈ i_id <$> items (getPlaylist m o).
Proof.
  intros Hd Hr Hlim. unfold saveOrder. rewrite Hd.
  set (d' := save_order_from (libraryPlaylistId m) 0 ids d).
  rewrite (getPlaylist_ids_spec (with_db m d') d' o i eq_refl Hr Hlim).
  rewrite (getPlaylist_ids_spec m d o i Hd Hr Hlim).
  assert (Hfiles : files d' = files d) by (unfold d'; by rewrite save_order_from_rows).
  assert (Hh : ∀ q f pl, having_clause q (group_of d' pl f) =
                         having_clause q (group_of d pl f)).
  { intros q f pl. unfold having_clause, group_of; cbn [g_names].
    rewrite (joined_names_same_tags d d'); [done|unfold d'; by rewrite save_order_from_rows..]. }
  rewrite Hfiles. cbn [libraryPlaylistId with_db].
  by setoid_rewrite Hh.
Qed.

Lemma splice_Permutation {A} (from to : nat) (l : list A) x :
  l !! from = Some x → splice_in to x (delete from l) ≡ₚ l.
Proof.
  intros Hx. unfold splice_in. rewrite <- Permutation_middle.
  rewrite take_drop. symmetry. by apply delete_Permutation.
Qed.

(** X13.  A drag-and-drop move persists.  Let the renderer show the whole
    answer of a query in playlist order, every file of the catalog being a
    member of the default collection.  Moving the item at [from] to [to]
    gives a rearrangement of the shown list, and the same query on the
    manager after the [saveOrder] call returns the files in exactly that
    arrangement. *)
Theorem handleOrderMove_persists m d o (from to : nat) :
  db m = Some d → no_root m = false →
  NoDup (f_id <$> files d) →
  (∀ f, f ∈ files d → (f_id f, libraryPlaylistId m) ∈ member_keys d) →
  sort o = SortPlaylist → page_limit o = None →
  let shown := items (getPlaylist m o) in
  (from < length shown)%nat →
  ∃ updated m',
    handleOrderMove m (sort o) false shown from to = Some (updated, m') ∧
    updated ≡ₚ shown ∧
    (from ≠ to → updated !! (to `min` (length shown - 1))%nat = shown !! from) ∧
    i_id <$> items (getPlaylist m' o) = i_id <$> updated.
Proof.
  intros Hd Hr Hfiles Hmem Hsort Hlim shown Hfrom.
  unfold handleOrderMove. rewrite Hsort. cbn [negb orb].
  destruct (bool_decide_reflect (from = to)) as [Heq|Hne]; cbn [orb].
  { exists shown, m. split_and!; done. }
  destruct (lookup_lt_is_Some_2 shown from Hfrom) as [moved Hmoved].
  unfold splice_out. rewrite Hmoved.
  set (updated := splice_in to moved (delete from shown)).
  exists updated, (saveOrder m (i_id <$> updated)).
  assert (Hperm : updated ≡ₚ shown) by by apply splice_Permutation.
  assert (Hshown : NoDup (i_id <$> shown)).
  { unfold shown. rewrite (getPlaylist_open m d o Hd Hr). cbn [items].
    rewrite Hlim. cbn [limit_offset]. rewrite <- list_fmap_compose.
    rewrite order_rows_Permutation. by apply baseSql_ids_NoDup. }
  split_and!; [done|done| |].
  - intros _. unfold updated, splice_in.
    assert (Hlen : length (delete from shown) = (length shown - 1)%nat).
    { rewrite length_delete; [done|by eexists]. }
    destruct (decide (to ≤ length shown - 1)%nat) as [Hle|Hgt].
    + rewrite Nat.min_l by done. rewrite lookup_app_r; rewrite length_take, Hlen; [|lia].
      by replace (to - to `min` (length shown - 1))%nat with 0%nat by lia.
    + rewrite Nat.min_r by lia. rewrite take_ge by lia. rewrite drop_ge by lia.
      rewrite lookup_app_r by lia. by rewrite Hlen, Nat.sub_diag.
  - set (ids := i_id <$> updated).
    assert (Hnd : NoDup ids) by (unfold ids; by rewrite Hperm).
    assert (Hsame : ∀ i, i ∈ i_id <$> items (getPlaylist (saveOrder m ids) o) ↔ i ∈ ids).
    { intros i. rewrite (saveOrder_same_ids m d ids o i Hd Hr Hlim).
      unfold ids. by rewrite Hperm. }
    pose proof (saveOrder_listed_order m d ids o Hd Hr Hfiles Hnd) as Hord.
    cbn zeta in Hord.
    rewrite <- (filter_all (fun i => i ∈ ids) (i_id <$> items (getPlaylist (saveOrder m ids) o)))
      by apply Hsame.
    rewrite Hord; [|  |done..].
    + apply filter_all. intros x. apply Hsame.
    + intros i Hi. unfold ids in Hi. rewrite Hperm in Hi.
      apply (getPlaylist_item_row m d o i Hd Hr) in Hi as (f & Hf & <- & _). by apply Hmem.
Qed.

Lemma handleOrderMove_persists_witness :
  ∃ updated m',
    handleOrderMove Sample.three SortPlaylist false
      (items (getPlaylist Sample.three (Sample.request SortPlaylist []))) 0 2
      = Some (updated, m') ∧
    updated ≡ₚ items (getPlaylist Sample.three (Sample.request SortPlaylist [])) ∧
    (0%nat ≠ 2%nat → updated !! 2%nat =
       items (getPlaylist Sample.three (Sample.request SortPlaylist [])) !! 0%nat) ∧
    i_id <$> items (getPlaylist m' (Sample.request SortPlaylist [])) = i_id <$> updated.
Proof.
  apply (handleOrderMove_persists Sample.three Sample.three_db
           (Sample.request SortPlaylist []) 0 2); try reflexivity.
  - apply (bool_decide_unpack _). vm_compute. exact I.
  - intros f Hf. cbn in Hf.
    apply elem_of_cons in Hf as [->|Hf]; [apply (bool_decide_unpack _); vm_compute; exact I|].
    apply elem_of_cons in Hf as [->|Hf]; [apply (bool_decide_unpack _); vm_compute; exact I|].
    apply elem_of_cons in Hf as [->|Hf]; [apply (bool_decide_unpack _); vm_compute; exact I|].
    exact (False_ind _ (proj1 (elem_of_nil f) Hf)).
  - vm_compute. lia.
Defined.

End Moves.

(** * Further properties of the walk *)

Section Walk.

Lemma scan_entries_video_files current entries stack results :
  existsb stat_fails entries = false →
  scan_entries current entries stack results =
  Normal ((pushed current entries ++ stack)%list, (results ++ video_files current entries)%list).
Proof.
  revert stack results. induction entries as [|e entries IH]; intros stack results.
  { intros _. cbn. by rewrite app_nil_r. }
  cbn [existsb scan_entries pushed video_files flat_map].
  fold (video_files current entries).
  destruct e as [nm l|nm [st|]|nm]; cbn [stat_fails orb].
  - intros H. case_bool_decide; [by apply IH|].
    rewrite IH by done. by rewrite <- app_assoc.
  - intros H. case_bool_decide; [by apply IH|].
    destruct (isVideoFile nm); cbn [negb]; [|by apply IH].
    rewrite IH by done. by rewrite <- app_assoc.
  - case_bool_decide; cbn [negb andb orb]; [by apply IH|].
    destruct (isVideoFile nm); cbn [negb orb]; [done|by apply IH].
  - by apply IH.
Qed.

(** The directories pushed for a listing hold, taken from the top of the
    stack, the files below its subdirectories, last listed first. *)
Lemma walk_pushed current entries :
  concat (List.map (fun p => walk_listing p.1 p.2) (pushed current entries)) =
  concat (rev (List.map (walk_entry current) entries)).
Proof.
  induction entries as [|e entries IH]; [done|].
  cbn [pushed List.map rev]. rewrite concat_app. cbn [concat]. rewrite app_nil_r.
  destruct e as [nm l|nm st|nm].
  - case_bool_decide as Hc.
    + rewrite IH. cbn [walk_entry]. destruct l; rewrite ?bool_decide_eq_true_2 by done;
        by rewrite app_nil_r.
    + rewrite List.map_app, concat_app, IH. cbn [List.map concat fst snd].
      rewrite app_nil_r. f_equal. cbn [walk_entry walk_listing].
      destruct l; [|done]. by rewrite bool_decide_eq_false_2 by done.
  - rewrite IH. cbn [walk_entry]. by rewrite app_nil_r.
  - rewrite IH. cbn [walk_entry]. by rewrite app_nil_r.
Qed.

Lemma collect_loop_walk fuel stack results :
  (stack_count stack ≤ fuel)%nat →
  existsb (fun p => listing_fails (snd p)) stack = false →
  collect_loop fuel stack results =
  Some (Normal (results ++ concat (List.map (fun p => walk_listing p.1 p.2) stack))%list).
Proof.
  revert stack results. induction fuel as [|fuel IH]; intros stack results Hfuel Hok.
  - destruct stack as [|[current listing] stack]; [cbn; by rewrite app_nil_r|].
    rewrite stack_count_cons in Hfuel. destruct listing; cbn [listing_count] in Hfuel; lia.
  - destruct stack as [|[current listing] stack]; [cbn; by rewrite app_nil_r|].
    cbn [existsb snd] in Hok. apply orb_false_iff in Hok as [Hl Hstack].
    cbn [collect_loop]. destruct listing as [entries|]; [|done].
    cbn [listing_fails] in Hl. rewrite (existsb_entry_fails current) in Hl.
    apply orb_false_iff in Hl as [Hstat Hpushed].
    rewrite scan_entries_video_files by done.
    rewrite IH.
    + do 2 f_equal. rewrite List.map_app, concat_app, walk_pushed.
      cbn [List.map concat fst snd walk_listing]. by rewrite <- !app_assoc.
    + rewrite stack_count_app. pose proof (stack_count_pushed current entries).
      rewrite stack_count_cons in Hfuel. cbn [listing_count] in Hfuel. lia.
    + rewrite existsb_app_bool. by rewrite Hpushed, Hstack.
Qed.

(** X14.  When no directory and no video file of the tree fails, the stack
    loop of [collectFiles] returns the depth-first traversal of the tree:
    for each directory its own video files in listing order, then the files
    below its subdirectories, the last listed subdirectory first; whatever
    is named [.cache] is left out. *)
Theorem collectFiles_walk tree :
  listing_fails tree = false →
  collectFiles tree = Normal (walk_listing "" tree).
Proof.
  intros Hok. unfold collectFiles.
  rewrite collect_loop_walk.
  - cbn. by rewrite app_nil_r.
  - unfold stack_count. cbn. lia.
  - cbn. by rewrite Hok.
Qed.

Lemma collectFiles_walk_witness :
  collectFiles Sample.tree = Normal (walk_listing "" Sample.tree) ∧
  relativePath <$> walk_listing "" Sample.tree = ["a.mp4"; "b.webm"; "sub/c.MKV"].
Proof.
  split; [|reflexivity]. apply (collectFiles_walk Sample.tree). reflexivity.
Defined.

Lemma scan_entries_reported current entries stack results stack' results' :
  Forall reported results →
  scan_entries current entries stack results = Normal (stack', results') →
  Forall reported results'.
Proof.
  revert stack results. induction entries as [|e entries IH]; intros stack results Hres.
  { cbn. by intros [= _ <-]. }
  cbn [scan_entries]. destruct e as [nm l|nm st|nm].
  - case_bool_decide; by apply IH.
  - case_bool_decide as Hc; [by apply IH|].
    destruct (isVideoFile nm) eqn:Hv; cbn [negb]; [|by apply IH].
    destruct st as [st|]; [|done]. apply IH.
    apply Forall_app_2; [done|]. apply Forall_singleton.
    unfold reported; cbn. split_and!; [done..| |done|by exists current].
    unfold isVideoFile in Hv. by apply bool_decide_eq_true in Hv.
  - by apply IH.
Qed.

Lemma collect_loop_reported fuel stack results found :
  Forall reported results →
  collect_loop fuel stack results = Some (Normal found) →
  Forall reported found.
Proof.
  revert stack results. induction fuel as [|fuel IH]; intros stack results Hres.
  - destruct stack as [|[current listing] stack]; [|done]. cbn. by intros [= <-].
  - destruct stack as [|[current listing] stack]; [cbn; by intros [= <-]|].
    cbn [collect_loop]. destruct listing as [entries|]; [|done].
    destruct (scan_entries current entries stack results) as [[stack' results']|] eqn:Hscan;
      [|done].
    apply IH. by eapply scan_entries_reported.
Qed.

(** X15.  Whatever [collectFiles] returns, every file in it has one of the
    five video extensions, compared and recorded in lower case; its path is
    its name joined to a directory path, and nothing named [.cache] is
    reported. *)
Theorem collectFiles_reports_videos tree found :
  collectFiles tree = Normal found → Forall reported found.
Proof.
  unfold collectFiles.
  destruct (collect_loop _ _ _) as [[r|]|] eqn:Hloop; [|done..].
  intros [= <-]. eapply collect_loop_reported; [|exact Hloop]. constructor.
Qed.

Lemma collectFiles_reports_videos_witness :
  Forall reported (Sample.walk Sample.tree).
Proof.
  apply (collectFiles_reports_videos Sample.tree). reflexivity.
Defined.

Lemma from_last_dot_dotless (s : string) :
  ¬ "."%char ∈ list_ascii_of_string s → from_last_dot s = None.
Proof.
  induction s as [|c s IH]; [done|]. cbn. rewrite not_elem_of_cons. intros [Hc Hs].
  rewrite IH by done. by rewrite bool_decide_eq_false_2.
Qed.

Lemma from_last_dot_app (base ext : string) :
  ¬ "."%char ∈ list_ascii_of_string ext →
  from_last_dot (base ++ String "." ext) = Some (String "." ext).
Proof.
  intros Hext. induction base as [|c base IH].
  - change (from_last_dot (String "." ext) = Some (String "." ext)). cbn [from_last_dot].
    rewrite (from_last_dot_dotless ext Hext). by rewrite bool_decide_eq_true_2.
  - change (from_last_dot (String c (base ++ String "." ext)) = Some (String "." ext)).
    cbn [from_last_dot]. by rewrite IH.
Qed.

Lemma toLowerCase_dot (ext : string) :
  toLowerCase (String "." ext) = String "." (toLowerCase ext).
Proof. reflexivity. Qed.

(** On a name of ASCII characters [toLowerCase] is the ASCII folding. *)
Lemma toLowerCase_ascii (s : string) :
  Forall (fun c => (nat_of_ascii c < 128)%nat) (list_ascii_of_string s) →
  toLowerCase s = nocase s.
Proof.
  induction s as [|c s IH]; [done|]. cbn [list_ascii_of_string].
  intros [Hc Hs]%Forall_cons. cbn [nocase]. rewrite <- (IH Hs).
  destruct c as [[] [] [] [] [] [] [] []]; try reflexivity;
    exfalso; revert Hc; vm_compute; lia.
Qed.

(** X16.  A name is a video file exactly by what follows its last dot,
    lower-cased as [toLowerCase] does it (the ASCII letters, and the Kelvin
    sign U+212A to [k]): mov, avi, mp4, webm or mkv.  A name with no dot
    after its first character (so also a dot file such as [.mp4]) is not a
    video file.  On an ASCII extension the lower-casing is the ASCII
    folding. *)
Theorem isVideoFile_by_extension (c : ascii) (base ext : string) :
  ¬ "."%char ∈ list_ascii_of_string ext →
  isVideoFile (String c base ++ String "." ext) =
    bool_decide (toLowerCase ext ∈ ["mov"; "avi"; "mp4"; "webm"; "mkv"]) ∧
  isVideoFile (String c ext) = false ∧
  (Forall (fun x => (nat_of_ascii x < 128)%nat) (list_ascii_of_string ext) →
   toLowerCase ext = nocase ext).
Proof.
  intros Hext. unfold isVideoFile, extname.
  change (String c base ++ String "." ext) with (String c (base ++ String "." ext)).
  cbv beta iota.
  rewrite from_last_dot_app by done. rewrite from_last_dot_dotless by done.
  cbn [default]. unfold id.
  split_and!; [|done|apply toLowerCase_ascii].
  apply bool_decide_ext. unfold VIDEO_EXTENSIONS. rewrite toLowerCase_dot.
  rewrite !elem_of_cons, !elem_of_nil. split.
  - intros [H|[H|[H|[H|[H|[]]]]]]; injection H as H; rewrite H; tauto.
  - intros [H|[H|[H|[H|[H|[]]]]]]; rewrite H; tauto.
Qed.

(** The name [x.mKv] with the Kelvin sign for its K, and [clip.final.MkV]. *)
Lemma isVideoFile_by_extension_witness :
  isVideoFile (String "x" "" ++ String "." (String "m" (String "226" (String "132"
                 (String "170" "v"))))) = true ∧
  isVideoFile ("clip.final" ++ String "." "MkV") = true ∧
  isVideoFile ".MkV" = false.
Proof.
  destruct (isVideoFile_by_extension "x" ""
              (String "m" (String "226" (String "132" (String "170" "v")))))
    as (Hk & _ & _).
  { apply (bool_decide_unpack _). vm_compute. exact I. }
  destruct (isVideoFile_by_extension "c" "lip.final" "MkV") as (Hm & Hdot & _).
  { apply (bool_decide_unpack _). vm_compute. exact I. }
  split_and!; [rewrite Hk; reflexivity|rewrite Hm; reflexivity|exact Hdot].
Defined.

End Walk.

(** * Further properties of the reconciler *)

Section ScanMore.

Implicit Types (d : DB) (m : LibraryManager) (f : FileRow) (s : ScanState).

(** The transaction of [scanLibrary] on a well-formed catalog: it commits,
    and the loop invariant holds of its last state. *)
Lemma scanLibrary_run m d0 tree scanned now :
  db m = Some d0 → no_root m = false → wf_db d0 →
  collectFiles tree = Normal scanned → NoDup (relativePath <$> scanned) →
  let pl := libraryPlaylistId m in
  let start := {| s_db := d0; nextOrder := default 0 (max_order d0 pl) + 1;
                  added := 0; updated := 0; seenIds := ∅ |} in
  ∃ s', scan_files (build_map (select_existing d0 pl)) pl now scanned start = Normal s' ∧
        scan_inv d0 pl scanned s' ∧
        scanLibrary m tree now =
          (Normal {| r_added := added s';
                     r_removed := Z.of_nat (length (files d0)) - Z.of_nat (size (seenIds s'));
                     r_updated := updated s' |},
           with_db m (mark_unseen (select_existing d0 pl) (seenIds s') (s_db s'))).
Proof.
  intros Hd Hr Hwf Hwalk Hnd pl start.
  destruct (scan_files_inv d0 pl now [] scanned start)
    as (s' & Hrun & Hinv & _); [apply Hwf|apply Hwf|by apply scan_inv_start|done|].
  exists s'. split_and!; [done..|].
  unfold scanLibrary. rewrite Hd, Hr, Hwalk. fold pl. fold start. rewrite Hrun.
  unfold select_existing at 1. by rewrite length_fmap.
Qed.

(** Each scanned file contributes one id to [seenIds]. *)
Lemma scan_seen_size d0 pl done s :
  scan_inv d0 pl done s → NoDup (relativePath <$> done) →
  size (seenIds s) = length done.
Proof.
  intros [Hids Hpaths _ _ _ _ _ _ _ _ Hdone Hseen _] Hnd.
  set (rows := filter (fun f => f_path f ∈ relativePath <$> done) (files (s_db s))).
  assert (Hset : seenIds s = list_to_set (f_id <$> rows)).
  { apply set_eq. intros i. rewrite elem_of_list_to_set, list_elem_of_fmap. split.
    - intros (f & Hf & <- & Hp)%Hseen. exists f. split; [done|].
      by apply list_elem_of_filter.
    - intros (f & -> & [Hp Hf]%list_elem_of_filter).
      apply list_elem_of_fmap in Hp as (file & Hp & Hfile).
      destruct (Hdone file Hfile) as (f' & Hf' & Hp' & _ & _ & Hs).
      assert (f' = f) as <-; [|done].
      apply (NoDup_fmap_inj f_path (files (s_db s))); [done..|]. congruence. }
  rewrite Hset, size_list_to_set.
  - rewrite length_fmap, <- (length_fmap f_path rows), <- (length_fmap relativePath done).
    apply Permutation_length, NoDup_Permutation; [|done|].
    + eapply sublist_NoDup; [exact Hpaths|]. apply fmap_sublist, sublist_filter.
    + intros p. rewrite list_elem_of_fmap. split.
      * by intros (f & -> & [Hp _]%list_elem_of_filter).
      * intros Hp. pose proof Hp as (file & -> & Hfile)%list_elem_of_fmap.
        destruct (Hdone file Hfile) as (f & Hf & Hpf & _).
        exists f. split; [done|]. apply list_elem_of_filter. by rewrite Hpf.
  - eapply sublist_NoDup; [exact Hids|]. apply fmap_sublist, sublist_filter.
Qed.

(** Two duplicate-free lists have as many elements of the one in the other
    as of the other in the one. *)
Lemma length_filter_common `{EqDecision A} (l1 l2 : list A) :
  NoDup l1 → NoDup l2 →
  length (filter (fun x => x ∈ l2) l1) = length (filter (fun x => x ∈ l1) l2).
Proof.
  intros H1 H2. apply Permutation_length, NoDup_Permutation; [by apply NoDup_filter..|].
  intros x. rewrite !list_elem_of_filter. tauto.
Qed.

(** X17.  The counts of a scan.  [updated] counts the scanned files whose
    path has a row, [added] the others, and [removed] is the number of rows
    the catalog had minus the number of files found: the rows whose file is
    not on disk, whether flagged by this scan or an earlier one, less the
    files added. *)
Theorem scanLibrary_counts m d0 tree scanned now :
  db m = Some d0 → no_root m = false → wf_db d0 →
  collectFiles tree = Normal scanned → NoDup (relativePath <$> scanned) →
  ∃ r m',
    scanLibrary m tree now = (Normal r, m') ∧
    r_updated r =
      Z.of_nat (length (filter (fun file => relativePath file ∈ f_path <$> files d0) scanned)) ∧
    r_added r =
      Z.of_nat (length (filter (fun file => relativePath file ∉ f_path <$> files d0) scanned)) ∧
    r_removed r = Z.of_nat (length (files d0)) - Z.of_nat (length scanned) ∧
    r_removed r =
      Z.of_nat (length (filter (fun f => f_path f ∉ relativePath <$> scanned) (files d0)))
      - r_added r.
Proof.
  intros Hd Hr Hwf Hwalk Hnd.
  destruct (scanLibrary_run m d0 tree scanned now Hd Hr Hwf Hwalk Hnd)
    as (s' & Hrun & Hinv & Hscan).
  destruct (scan_files_inv d0 (libraryPlaylistId m) now [] scanned
              {| s_db := d0; nextOrder := default 0 (max_order d0 (libraryPlaylistId m)) + 1;
                 added := 0; updated := 0; seenIds := ∅ |})
    as (s'' & Hrun' & _ & Hupd); [apply Hwf|apply Hwf|by apply scan_inv_start|done|].
  rewrite Hrun in Hrun'. injection Hrun' as <-. cbn [updated] in Hupd.
  pose proof (inv_counts _ _ _ _ Hinv) as (_ & _ & Hsum).
  pose proof (scan_seen_size _ _ _ _ Hinv Hnd) as Hsize.
  eexists _, _. split; [exact Hscan|]. cbn [r_added r_removed r_updated].
  pose proof (length_filter_split (fun file => relativePath file ∈ f_path <$> files d0) scanned)
    as Hsplit.
  pose proof (length_filter_split (fun f => f_path f ∈ relativePath <$> scanned) (files d0))
    as Hsplit0.
  assert (Hcommon :
    length (filter (fun f => f_path f ∈ relativePath <$> scanned) (files d0)) =
    length (filter (fun file => relativePath file ∈ f_path <$> files d0) scanned)).
  { pose proof (length_filter_common (f_path <$> files d0) (relativePath <$> scanned)
                  (wf_file_paths _ Hwf) Hnd) as Hc.
    by rewrite !filter_fmap_list, !length_fmap in Hc. }
  split_and!; lia.
Qed.

Lemma scanLibrary_counts_witness :
  ∃ r m',
    scanLibrary Sample.scanned Sample.tree_without_a Sample.clock = (Normal r, m') ∧
    r_updated r =
      Z.of_nat (length (filter (fun file => relativePath file ∈ f_path <$> files Sample.scanned_db)
                          (Sample.walk Sample.tree_without_a))) ∧
    r_added r =
      Z.of_nat (length (filter (fun file => relativePath file ∉ f_path <$> files Sample.scanned_db)
                          (Sample.walk Sample.tree_without_a))) ∧
    r_removed r = Z.of_nat (length (files Sample.scanned_db))
                  - Z.of_nat (length (Sample.walk Sample.tree_without_a)) ∧
    r_removed r =
      Z.of_nat (length (filter (fun f => f_path f ∉ relativePath <$> Sample.walk Sample.tree_without_a)
                          (files Sample.scanned_db)))
      - r_added r.
Proof.
  apply (scanLibrary_counts Sample.scanned Sample.scanned_db Sample.tree_without_a
           (Sample.walk Sample.tree_without_a) Sample.clock).
  - reflexivity.
  - reflexivity.
  - constructor; try (apply (bool_decide_unpack _); vm_compute; exact I).
  - reflexivity.
  - apply (bool_decide_unpack _). vm_compute. exact I.
Defined.

(** X18.  A scan keeps what the user recorded.  On a well-formed catalog
    it commits and leaves a well-formed catalog; no row is deleted: every
    row is still there under its id and path, with its rating, duration,
    play count, last play and date of addition, flagged missing exactly when
    its path was not found; tags, associations and memberships stay. *)
Theorem scanLibrary_keeps_user_data m d0 tree scanned now :
  db m = Some d0 → no_root m = false → wf_db d0 →
  collectFiles tree = Normal scanned → NoDup (relativePath <$> scanned) →
  ∃ r d1,
    scanLibrary m tree now = (Normal r, with_db m d1) ∧
    wf_db d1 ∧ tags d1 = tags d0 ∧ file_tags d1 = file_tags d0 ∧
    (∀ k, k ∈ member_keys d0 → k ∈ member_keys d1) ∧
    ∀ f0, f0 ∈ files d0 →
      ∃ f1, f1 ∈ files d1 ∧
        f_id f1 = f_id f0 ∧ f_path f1 = f_path f0 ∧
        f_rating f1 = f_rating f0 ∧ f_duration_ms f1 = f_duration_ms f0 ∧
        f_play_count f1 = f_play_count f0 ∧ f_last_played f1 = f_last_played f0 ∧
        f_added_on f1 = f_added_on f0 ∧
        (f_is_missing f1 = true ↔ ¬ f_path f0 ∈ relativePath <$> scanned).
Proof.
  intros Hd Hr Hwf Hwalk Hnd.
  destruct (scanLibrary_post m d0 tree scanned now Hd Hr Hwf Hwalk Hnd)
    as (r & d1 & Hscan & Hwf1 & Ht & Hft & Hkeys & Hgone & Hfound & _).
  exists r, d1. split_and!; try done.
  intros f0 Hf0. destruct (decide (f_path f0 ∈ relativePath <$> scanned)) as [Hin|Hnin].
  - pose proof Hin as (file & Hp & Hfile)%list_elem_of_fmap.
    exists (with_disk_attrs file f0). split; [by apply Hfound|]. cbn. by split_and!.
  - exists (with_missing f0). split; [by apply Hgone|]. cbn. by split_and!.
Qed.

Lemma scanLibrary_keeps_user_data_witness :
  ∃ r d1,
    scanLibrary Sample.scanned Sample.tree_without_a Sample.clock
      = (Normal r, with_db Sample.scanned d1) ∧
    wf_db d1 ∧ tags d1 = tags Sample.scanned_db ∧ file_tags d1 = file_tags Sample.scanned_db ∧
    (∀ k, k ∈ member_keys Sample.scanned_db → k ∈ member_keys d1) ∧
    ∀ f0, f0 ∈ files Sample.scanned_db →
      ∃ f1, f1 ∈ files d1 ∧
        f_id f1 = f_id f0 ∧ f_path f1 = f_path f0 ∧
        f_rating f1 = f_rating f0 ∧ f_duration_ms f1 = f_duration_ms f0 ∧
        f_play_count f1 = f_play_count f0 ∧ f_last_played f1 = f_last_played f0 ∧
        f_added_on f1 = f_added_on f0 ∧
        (f_is_missing f1 = true ↔
         ¬ f_path f0 ∈ relativePath <$> Sample.walk Sample.tree_without_a).
Proof.
  apply (scanLibrary_keeps_user_data Sample.scanned Sample.scanned_db Sample.tree_without_a
           (Sample.walk Sample.tree_without_a) Sample.clock).
  - reflexivity.
  - reflexivity.
  - constructor; try (apply (bool_decide_unpack _); vm_compute; exact I).
  - reflexivity.
  - apply (bool_decide_unpack _). vm_compute. exact I.
Defined.

(** No order index of the playlist is above MAX(order_index). *)
Lemma max_order_bound d pl r j :
  r ∈ file_playlists d → fp_playlist_id r = pl → fp_order_index r = Some j →
  ∃ mx, max_order d pl = Some mx ∧ j ≤ mx.
Proof.
  unfold max_order. induction (file_playlists d) as [|r0 rows IH]; intros Hr Hpl Hj.
  { by apply elem_of_nil in Hr. }
  cbn [foldr]. apply elem_of_cons in Hr as [<-|Hr].
  - rewrite bool_decide_eq_true_2 by done. rewrite Hj.
    destruct (foldr _ _ rows); eexists; (split; [done|lia]).
  - destruct (IH Hr Hpl Hj) as (mx & -> & Hle). case_bool_decide; [|by exists mx].
    destruct (fp_order_index r0); eexists; (split; [done|lia]).
Qed.

Lemma insertFilePlaylist_rows fileId pl index d d' :
  insertFilePlaylist fileId pl index d = Normal d' →
  file_playlists d' = file_playlists d ∨
  file_playlists d' =
    (file_playlists d ++ [{| fp_file_id := fileId; fp_playlist_id := pl;
                             fp_order_index := Some index |}])%list.
Proof.
  unfold insertFilePlaylist. case_bool_decide; [intros [= <-]; by left|].
  case_bool_decide; [|done]. intros [= <-]. by right.
Qed.

(** One more row at the value of [nextOrder], which then grows by one, or
    the rows as they are. *)
Lemma appended_step pl rows0 next0 s d' next' a ad up seen :
  appended pl rows0 next0 s →
  (file_playlists d' = file_playlists (s_db s) ∧ nextOrder s ≤ next') ∨
  (file_playlists d' =
     (file_playlists (s_db s) ++ [{| fp_file_id := a; fp_playlist_id := pl;
                                    fp_order_index := Some (nextOrder s) |}])%list ∧
   next' = nextOrder s + 1) →
  appended pl rows0 next0
    {| s_db := d'; nextOrder := next'; added := ad; updated := up; seenIds := seen |}.
Proof.
  intros [(new & Hrows & Hnew & Hsorted) Hnext] [[Hsame Hle]|[Hmore ->]].
  - split; cbn; [|lia]. exists new. split_and!; [congruence| |done].
    eapply Forall_impl; [exact Hnew|]. cbn. intros r (Hp & i & Hi & Hb).
    split; [done|]. exists i. split; [done|lia].
  - split; cbn; [|lia]. eexists (new ++ [_])%list. split_and!.
    + by rewrite Hmore, Hrows, <- app_assoc.
    + apply Forall_app_2.
      * eapply Forall_impl; [exact Hnew|]. cbn. intros r (Hp & i & Hi & Hb).
        split; [done|]. exists i. split; [done|lia].
      * apply Forall_singleton. cbn. split; [done|]. eexists. split; [done|lia].
    + apply StronglySorted_app_2; [|done|repeat constructor].
      intros r1 r2 Hr1 ->%list_elem_of_singleton. rewrite Forall_forall in Hnew.
      destruct (Hnew r1 Hr1) as (_ & i & Hi & Hb). exists i, (nextOrder s). cbn.
      split_and!; [done..|lia].
Qed.

Lemma scan_file_appended map pl now rows0 next0 s file s' :
  appended pl rows0 next0 s →
  scan_file map pl now s file = Normal s' →
  appended pl rows0 next0 s'.
Proof.
  intros Happ. unfold scan_file. destruct (map !! relativePath file) as [[eid [oi|]]|].
  - intros [= <-]. apply (appended_step pl rows0 next0 s _ _ 0); [done|]. by left.
  - destruct (insertFilePlaylist _ _ _ _) as [d2|] eqn:Hins; [|done]. intros [= <-].
    apply insertFilePlaylist_rows in Hins as [Hsame|Hmore].
    + apply (appended_step pl rows0 next0 s _ _ 0); [done|]. left. split; [done|lia].
    + apply (appended_step pl rows0 next0 s _ _ eid); [done|]. right. split; [exact Hmore|done].
  - unfold insertFile. case_bool_decide; [done|].
    destruct (insertFilePlaylist _ _ _ _) as [d2|] eqn:Hins; [|done]. intros [= <-].
    apply insertFilePlaylist_rows in Hins as [Hsame|Hmore].
    + apply (appended_step pl rows0 next0 s _ _ 0); [done|]. left. split; [done|lia].
    + apply (appended_step pl rows0 next0 s _ _ (files_seq (s_db s) + 1)); [done|].
      right. split; [exact Hmore|done].
Qed.

Lemma scan_files_appended map pl now rows0 next0 scanned s s' :
  appended pl rows0 next0 s →
  scan_files map pl now scanned s = Normal s' →
  appended pl rows0 next0 s'.
Proof.
  revert s. induction scanned as [|file rest IH]; intros s Happ; cbn [scan_files].
  - by intros [= <-].
  - destruct (scan_file map pl now s file) as [s1|] eqn:Hstep; [|done].
    apply IH. by eapply scan_file_appended.
Qed.

(** X19.  A scan only appends memberships.  The rows of file_playlists
    are kept as they are and in place; each row the scan adds is in the
    default collection and has an order index above every order index the
    collection had, and the added rows have growing order indexes: files
    that are new to the collection go to its end, in the order of the walk. *)
Theorem scanLibrary_appends_memberships m d0 tree scanned now :
  db m = Some d0 → no_root m = false → wf_db d0 →
  collectFiles tree = Normal scanned → NoDup (relativePath <$> scanned) →
  ∃ r d1 new,
    scanLibrary m tree now = (Normal r, with_db m d1) ∧
    file_playlists d1 = (file_playlists d0 ++ new)%list ∧
    Forall (fun row =>
              fp_playlist_id row = libraryPlaylistId m ∧
              ∃ i, fp_order_index row = Some i ∧
                   ∀ r0 j, r0 ∈ file_playlists d0 →
                           fp_playlist_id r0 = libraryPlaylistId m →
                           fp_order_index r0 = Some j → j < i) new ∧
    StronglySorted index_lt new.
Proof.
  intros Hd Hr Hwf Hwalk Hnd.
  destruct (scanLibrary_run m d0 tree scanned now Hd Hr Hwf Hwalk Hnd)
    as (s' & Hrun & _ & Hscan).
  set (pl := libraryPlaylistId m) in *.
  set (next0 := default 0 (max_order d0 pl) + 1) in *.
  assert (Hstart : appended pl (file_playlists d0) next0
            {| s_db := d0; nextOrder := next0; added := 0; updated := 0; seenIds := ∅ |}).
  { split; cbn; [|lia]. exists []. rewrite app_nil_r. split_and!; [done| |]; constructor. }
  destruct (scan_files_appended _ _ _ _ _ _ _ _ Hstart Hrun)
    as [(new & Hrows & Hnew & Hsorted) _].
  eexists _, _, new. split; [exact Hscan|]. split_and!; [|  |done].
  - by rewrite mark_unseen_files.
  - eapply Forall_impl; [exact Hnew|]. cbn. intros row (Hp & i & Hi & Hb).
    split; [done|]. exists i. split; [done|]. intros r0 j Hr0 Hp0 Hj.
    destruct (max_order_bound d0 pl r0 j Hr0 Hp0 Hj) as (mx & Hmx & Hle).
    unfold next0 in Hb. rewrite Hmx in Hb. simpl in Hb. lia.
Qed.

Lemma scanLibrary_appends_memberships_witness :
  ∃ r d1 new,
    scanLibrary Sample.stray Sample.tree Sample.clock = (Normal r, with_db Sample.stray d1) ∧
    file_playlists d1 = (file_playlists Sample.stray_db ++ new)%list ∧
    Forall (fun row =>
              fp_playlist_id row = libraryPlaylistId Sample.stray ∧
              ∃ i, fp_order_index row = Some i ∧
                   ∀ r0 j, r0 ∈ file_playlists Sample.stray_db →
                           fp_playlist_id r0 = libraryPlaylistId Sample.stray →
                           fp_order_index r0 = Some j → j < i) new ∧
    StronglySorted index_lt new.
Proof.
  apply (scanLibrary_appends_memberships Sample.stray Sample.stray_db Sample.tree
           (Sample.walk Sample.tree) Sample.clock).
  - reflexivity.
  - reflexivity.
  - constructor; try (apply (bool_decide_unpack _); vm_compute; exact I).
  - reflexivity.
  - apply (bool_decide_unpack _). vm_compute. exact I.
Defined.

End ScanMore.

(** * The tag list *)

Section TagList.

Implicit Types (d : DB) (m : LibraryManager) (t : TagRow).

Lemma string_compare_refl (s : string) : String.compare s s = Eq.
Proof.
  pose proof (String.compare_antisym s s) as H. by destruct (String.compare s s).
Qed.

Lemma string_compare_not_gt_trans (a b c : string) :
  String.compare a b ≠ Gt → String.compare b c ≠ Gt → String.compare a c ≠ Gt.
Proof.
  intros Hab Hbc.
  destruct (String.compare a b) eqn:E1; [|    |done].
  - apply String.compare_eq_iff in E1 as ->. done.
  - destruct (String.compare b c) eqn:E2; [|    |done].
    + apply String.compare_eq_iff in E2 as <-. by rewrite E1.
    + by rewrite (string_compare_lt_trans a b c E1 E2).
Qed.

#[local] Instance tag_le_total : Total (fun a b : string => Is_true (tag_le a b)).
Proof.
  intros a b. unfold tag_le.
  destruct (String.compare (nocase a) (nocase b)) eqn:E1.
  - apply String.compare_eq_iff in E1. rewrite E1, string_compare_refl.
    destruct (String.compare a b) eqn:E2; [by left|by left|right].
    apply string_compare_gt_lt in E2. by rewrite E2.
  - by left.
  - right. apply string_compare_gt_lt in E1. by rewrite E1.
Qed.

#[local] Instance tag_le_trans : Transitive (fun a b : string => Is_true (tag_le a b)).
Proof.
  intros a b c. unfold tag_le.
  destruct (String.compare (nocase a) (nocase b)) eqn:E1; [|    |done].
  - apply String.compare_eq_iff in E1. rewrite E1.
    destruct (String.compare (nocase b) (nocase c)) eqn:E2; [|done..].
    intros Hab Hbc.
    pose proof (string_compare_not_gt_trans a b c) as Ht.
    destruct (String.compare a b), (String.compare b c), (String.compare a c);
      try done; exfalso; by apply Ht.
  - destruct (String.compare (nocase b) (nocase c)) eqn:E2; [|    |done].
    + apply String.compare_eq_iff in E2. rewrite <- E2, E1. done.
    + by rewrite (string_compare_lt_trans _ _ _ E1 E2).
Qed.

(** X20.  [getTopTags] lists every tag name of the tags table, each row
    once, sorted without regard to ASCII case and, between names that differ
    by case only, in byte order.  With no database open the list is empty. *)
Theorem getTopTags_sorted_complete m :
  StronglySorted (fun a b => Is_true (tag_le a b)) (getTopTags m) ∧
  getTopTags m ≡ₚ from_option (fun d => t_name <$> tags d) [] (db m).
Proof.
  unfold getTopTags. destruct (db m) as [d|]; cbn.
  - split; [apply (StronglySorted_merge_sort _)|apply merge_sort_Permutation].
  - split; [constructor|done].
Qed.

(** X21.  [addTag] makes the name a tag and nothing more: afterwards the
    tag list holds the name and the names it held, each once; no file
    carries a name it did not carry; files, memberships and associations are
    untouched, and the constraints of the tag tables still hold.  Adding
    the name again changes nothing in the list. *)
Theorem addTag_spec m d burnt name :
  db m = Some d → wf_tags d →
  ∃ d',
    addTag m burnt name = with_db m d' ∧ wf_tags d' ∧
    files d' = files d ∧ file_playlists d' = file_playlists d ∧
    file_tags d' = file_tags d ∧
    (∀ i n, carries d' i n ↔ carries d i n) ∧
    (∀ n, n ∈ getTopTags (addTag m burnt name) ↔ n = name ∨ n ∈ getTopTags m) ∧
    NoDup (getTopTags (addTag m burnt name)) ∧
    (∀ burnt', getTopTags (addTag (addTag m burnt name) burnt' name) =
               getTopTags (addTag m burnt name)).
Proof.
  intros Hdb Hwf. unfold addTag at 1. rewrite Hdb.
  set (d' := insert_or_ignore_tag burnt name d).
  assert (Hm : addTag m burnt name = with_db m d') by (unfold addTag; by rewrite Hdb).
  assert (Hkeep : files d' = files d ∧ file_playlists d' = file_playlists d ∧
                  file_tags d' = file_tags d ∧ file_tags_seq d' = file_tags_seq d).
  { unfold d', insert_or_ignore_tag. by case_bool_decide. }
  destruct Hkeep as (Hf & Hp & Hft & Hfts).
  assert (Htags : (name ∈ t_name <$> tags d ∧ tags d' = tags d ∧
                   tags_seq d ≤ tags_seq d') ∨
                  (¬ name ∈ t_name <$> tags d ∧
                   tags d' = (tags d ++ [{| t_id := tags_seq d + 1; t_name := name |}])%list ∧
                   tags_seq d' = tags_seq d + 1)).
  { unfold d', insert_or_ignore_tag. case_bool_decide; [left|right]; cbn; [|done].
    split_and!; [done..|]. destruct burnt; lia. }
  pose proof (wft_bound d Hwf) as Hb. pose proof (wft_seq d Hwf) as Hs.
  rewrite Forall_forall in Hb.
  assert (Hwf' : wf_tags d').
  { destruct Hwf. constructor; rewrite ?Hf, ?Hft, ?Hfts; try done.
    - destruct Htags as [(_ & -> & _)|(_ & -> & _)]; [done|].
      rewrite fmap_app. apply NoDup_app. split_and!; [done| |apply NoDup_singleton].
      intros i (t & -> & Ht)%list_elem_of_fmap Hi. apply list_elem_of_singleton in Hi.
      specialize (Hb t Ht). cbn in Hi. lia.
    - destruct Htags as [(_ & -> & _)|(Hnew & -> & _)]; [done|].
      rewrite fmap_app. apply NoDup_app. split_and!; [done| |apply NoDup_singleton].
      intros n Hn Hi. apply list_elem_of_singleton in Hi. cbn in Hi. by subst.
    - destruct Htags as [(_ & _ & ?)|(_ & _ & ->)]; lia.
    - apply Forall_forall. intros t Ht.
      destruct Htags as [(_ & Ht' & Hle)|(_ & Ht' & Hseq)]; rewrite Ht' in Ht.
      + specialize (Hb t Ht). lia.
      + apply elem_of_app in Ht as [Ht|Ht%list_elem_of_singleton].
        * specialize (Hb t Ht). lia.
        * subst t. cbn. lia.
    - unfold tag_keys. by rewrite Hft.
    - eapply Forall_impl; [exact wft_fk0|]. cbn. intros r [? Hin]. split; [done|].
      destruct Htags as [(_ & -> & _)|(_ & -> & _)]; [done|].
      rewrite fmap_app. apply elem_of_app. by left. }
  assert (Hnames : ∀ n, n ∈ t_name <$> tags d' ↔ n = name ∨ n ∈ t_name <$> tags d).
  { intros n. destruct Htags as [(Hin & -> & _)|(_ & -> & _)].
    - split; [by right|]. by intros [->|].
    - rewrite fmap_app, elem_of_app. cbn. rewrite list_elem_of_singleton. tauto. }
  assert (Hlist : ∀ m0 d0, db m0 = Some d0 → ∀ n, n ∈ getTopTags m0 ↔ n ∈ t_name <$> tags d0).
  { intros m0 d0 H0 n. unfold getTopTags. rewrite H0. by rewrite merge_sort_Permutation. }
  exists d'. split_and!; try done.
  - intros i n. rewrite !carries_spec by apply Hwf || apply Hwf'.
    unfold tag_keys. rewrite Hft. fold (tag_keys d). split.
    + intros (t & Ht & Hn & Hk). exists t. split_and!; [|done..].
      destruct Htags as [(_ & Ht' & _)|(_ & Ht' & _)]; rewrite Ht' in Ht; [done|].
      apply elem_of_app in Ht as [Ht|Ht%list_elem_of_singleton]; [done|]. subst t.
      apply list_elem_of_fmap in Hk as (r & Heq & Hr). injection Heq as _ Hi.
      pose proof (wft_fk d Hwf) as Hfk. rewrite Forall_forall in Hfk.
      destruct (Hfk r Hr) as [_ (t0 & Hi0 & Ht0)%list_elem_of_fmap].
      specialize (Hb t0 Ht0). cbn in Hi. lia.
    + intros (t & Ht & Hn & Hk). exists t. split_and!; [|done..].
      destruct Htags as [(_ & -> & _)|(_ & -> & _)]; [done|]. apply elem_of_app. by left.
  - intros n. rewrite Hm, (Hlist (with_db m d') d' eq_refl), (Hlist m d Hdb). apply Hnames.
  - rewrite Hm. unfold getTopTags. cbn [db with_db]. rewrite merge_sort_Permutation.
    apply Hwf'.
  - intros burnt'. rewrite Hm. unfold addTag, getTopTags. cbn [db with_db].
    unfold insert_or_ignore_tag at 1.
    rewrite bool_decide_eq_true_2; [done|]. apply Hnames. by left.
Qed.

Lemma addTag_spec_witness :
  ∃ d',
    addTag Sample.tagged false "Blue" = with_db Sample.tagged d' ∧ wf_tags d' ∧
    files d' = files Sample.tagged_db ∧
    file_playlists d' = file_playlists Sample.tagged_db ∧
    file_tags d' = file_tags Sample.tagged_db ∧
    (∀ i n, carries d' i n ↔ carries Sample.tagged_db i n) ∧
    (∀ n, n ∈ getTopTags (addTag Sample.tagged false "Blue") ↔
          n = "Blue" ∨ n ∈ getTopTags Sample.tagged) ∧
    NoDup (getTopTags (addTag Sample.tagged false "Blue")) ∧
    (∀ burnt', getTopTags (addTag (addTag Sample.tagged false "Blue") burnt' "Blue") =
               getTopTags (addTag Sample.tagged false "Blue")).
Proof.
  apply (addTag_spec Sample.tagged Sample.tagged_db false "Blue").
  - reflexivity.
  - exact sample_tagged_wf_tags.
Defined.

End TagList.

(** * Settings *)

Section SettingsStore.

Implicit Types (m : LibraryManager) (st : Settings) (r : SettingRow).

Lemma find_setting_updated st k k' v :
  List.find (fun r => bool_decide (s_name r = k'))
    ((fun r => if bool_decide (s_name r = k)
               then {| s_name := s_name r; s_value := v |} else r) <$> st) =
  (fun r => if bool_decide (s_name r = k)
            then {| s_name := s_name r; s_value := v |} else r)
    <$> List.find (fun r => bool_decide (s_name r = k')) st.
Proof.
  induction st as [|r st IH]; [done|]. cbn.
  destruct (bool_decide_reflect (s_name r = k)) as [Hk|Hk]; cbn.
  - destruct (bool_decide (s_name r = k')); [|exact IH]. cbn.
    by rewrite bool_decide_eq_true_2.
  - destruct (bool_decide (s_name r = k')); [|exact IH]. cbn.
    by rewrite bool_decide_eq_false_2.
Qed.

Lemma find_setting_app st k row :
  List.find (fun r => bool_decide (s_name r = k)) (st ++ [row]) =
  match List.find (fun r => bool_decide (s_name r = k)) st with
  | Some r => Some r
  | None => if bool_decide (s_name row = k) then Some row else None
  end.
Proof.
  induction st as [|r st IH]; [done|]. cbn. by destruct (bool_decide (s_name r = k)).
Qed.

Lemma find_setting_absent st k :
  ¬ k ∈ s_name <$> st → List.find (fun r => bool_decide (s_name r = k)) st = None.
Proof.
  intros Hk. apply find_none_iff. intros r Hr. apply bool_decide_eq_false.
  intros <-. apply Hk. by apply list_elem_of_fmap_2.
Qed.

Lemma find_setting_present st k :
  k ∈ s_name <$> st →
  ∃ r, List.find (fun r => bool_decide (s_name r = k)) st = Some r ∧ s_name r = k.
Proof.
  intros (r0 & -> & Hr0)%list_elem_of_fmap.
  destruct (List.find _ st) as [r|] eqn:Hfind.
  - exists r. split; [done|]. apply find_some_elem in Hfind as [_ H].
    by apply bool_decide_eq_true in H.
  - apply (proj1 (find_none_iff _ _)) with (x := r0) in Hfind; [|done].
    by apply bool_decide_eq_false in Hfind.
Qed.

Lemma getSetting_setSetting_same m st k v :
  getSetting m (setSetting m st k v) k = match db m with Some _ => v | None => None end.
Proof.
  unfold getSetting, setSetting. destruct (db m); [|done]. case_bool_decide as Hk.
  - rewrite find_setting_updated. destruct (find_setting_present st k Hk) as (r & -> & Hr).
    cbn. by rewrite bool_decide_eq_true_2.
  - rewrite find_setting_app, find_setting_absent by done. cbn.
    by rewrite bool_decide_eq_true_2.
Qed.

(** X22.  The settings table is a map from names to values.  With a
    database open, [getSetting] after [setSetting] of the same name returns
    the value written (so the last write wins) and any other name reads as
    before; a new name adds one row and a known name none, so that names
    stay unique.  With no database open nothing is written and every name
    reads as null. *)
Theorem setSetting_getSetting m st k v k' :
  k' ≠ k →
  getSetting m (setSetting m st k v) k = match db m with Some _ => v | None => None end ∧
  getSetting m (setSetting m st k v) k' = getSetting m st k' ∧
  s_name <$> setSetting m st k v =
    (if bool_decide (k ∈ s_name <$> st) || bool_decide (db m = None)
     then s_name <$> st else (s_name <$> st) ++ [k])%list ∧
  (NoDup (s_name <$> st) → NoDup (s_name <$> setSetting m st k v)).
Proof.
  intros Hne. split; [apply getSetting_setSetting_same|].
  assert (Hnames : s_name <$> setSetting m st k v =
    (if bool_decide (k ∈ s_name <$> st) || bool_decide (db m = None)
     then s_name <$> st else (s_name <$> st) ++ [k])%list).
  { unfold setSetting. destruct (db m) as [d|]; cbn; [|by rewrite orb_true_r].
    rewrite orb_false_r. case_bool_decide.
    - rewrite <- list_fmap_compose. apply list_fmap_ext. intros _ r _. cbn.
      by destruct (bool_decide (s_name r = k)).
    - by rewrite fmap_app. }
  split_and!; [|exact Hnames|].
  - unfold getSetting, setSetting. destruct (db m); [|done]. case_bool_decide as Hk.
    + rewrite find_setting_updated.
      destruct (List.find _ st) as [r|] eqn:Hfind; [|done]. cbn.
      apply find_some_elem in Hfind as [_ Hr]. apply bool_decide_eq_true in Hr.
      rewrite bool_decide_eq_false_2; [done|congruence].
    + rewrite find_setting_app. destruct (List.find _ st); [done|]. cbn.
      rewrite bool_decide_eq_false_2; [done|congruence].
  - intros Hnd. rewrite Hnames. destruct (_ || _) eqn:Hc; [done|].
    apply orb_false_iff in Hc as [Hk _]. apply bool_decide_eq_false in Hk.
    apply NoDup_app. split_and!; [done| |apply NoDup_singleton].
    by intros x Hx ->%list_elem_of_singleton.
Qed.

Lemma setSetting_getSetting_witness :
  getSetting Sample.tagged
    (setSetting Sample.tagged [{| s_name := "ui.sort"; s_value := Some "created" |}]
       "ui.muted" (Some "1")) "ui.muted" = Some "1" ∧
  getSetting Sample.tagged
    (setSetting Sample.tagged [{| s_name := "ui.sort"; s_value := Some "created" |}]
       "ui.muted" (Some "1")) "ui.sort" = Some "created".
Proof.
  destruct (setSetting_getSetting Sample.tagged
              [{| s_name := "ui.sort"; s_value := Some "created" |}]
              "ui.muted" (Some "1") "ui.sort") as (H1 & H2 & _).
  - discriminate.
  - split; [exact H1|exact H2].
Defined.

(** X23.  Flags and the sort mode survive the store.  A flag written as
    [1] or [0], as the settings patch writes it, is read back by
    [parseBoolean] as it was; a sort mode written by name is read back by
    [parseSortMode] as it was; with no database open the reader gets the
    fallback, and the default order.  Any other stored string gives the
    default order. *)
Theorem flags_survive_the_store m st k (b fallback : bool) (s : SortMode) :
  parseBoolean (getSetting m (setSetting m st k (Some (if b then "1" else "0"))) k) fallback =
    match db m with Some _ => b | None => fallback end ∧
  parseSortMode (getSetting m (setSetting m st k (Some (sort_name s))) k) =
    match db m with Some _ => s | None => SortPlaylist end ∧
  ∀ v, (∀ s', v ≠ Some (sort_name s')) → parseSortMode v = SortPlaylist.
Proof.
  rewrite !getSetting_setSetting_same. split_and!.
  - destruct (db m); [|done]. by destruct b.
  - destruct (db m); [|done]. by destruct s.
  - intros [v|] Hv; [|done]. unfold parseSortMode.
    repeat case_bool_decide; try done; subst.
    + by destruct (Hv SortFilename).
    + by destruct (Hv SortCreated).
    + by destruct (Hv SortRandom).
Qed.

End SettingsStore.

(** * Paging in the renderer *)

Section Pages.

Implicit Types (m : LibraryManager) (d : DB) (st : Paging).

(** The loop keeps an item exactly when its id was not met before. *)
Lemma merge_loop_fresh (seen : gset Z) merged l :
  NoDup (i_id <$> l) → (∀ it, it ∈ l → i_id it ∉ seen) →
  merge_loop seen merged l = (merged ++ l)%list.
Proof.
  revert seen merged. induction l as [|it l IH]; intros seen merged Hnd Hnew; cbn.
  { by rewrite app_nil_r. }
  rewrite bool_decide_eq_false_2 by (apply Hnew; left).
  rewrite fmap_cons in Hnd. apply NoDup_cons in Hnd as [Hit Hnd].
  rewrite IH; [by rewrite <- app_assoc|done|].
  intros it' Hin. rewrite elem_of_union, elem_of_singleton. intros [Heq|Hs].
  - apply Hit. rewrite <- Heq. by apply list_elem_of_fmap_2.
  - apply (Hnew it'); [by right|done].
Qed.

Lemma mergeUniqueById_distinct existing incoming :
  NoDup (i_id <$> (existing ++ incoming)%list) →
  mergeUniqueById existing incoming = (existing ++ incoming)%list.
Proof.
  intros Hnd. unfold mergeUniqueById. rewrite merge_loop_fresh; [done..|].
  intros it _. apply not_elem_of_empty.
Qed.

Lemma Math_trunc_inject_Z (z : Z) : Math_trunc (inject_Z z) = z.
Proof. unfold Math_trunc. cbn. apply Z.quot_1_r. Qed.

Lemma page_offset_nat options rs (n : nat) :
  page_offset (buildPlaylistRequest options rs (inject_Z (Z.of_nat n))) = Z.of_nat n.
Proof.
  unfold page_offset, buildPlaylistRequest; cbn [offset].
  destruct (gt0 _) eqn:Hg; [apply Math_trunc_inject_Z|].
  unfold gt0 in Hg. apply negb_false_iff, Qle_bool_iff in Hg.
  unfold Qle in Hg. cbn in Hg. lia.
Qed.

(** A page of the renderer is a window of fifty on the whole answer. *)
Lemma page_of_answer m options rs (n : nat) :
  let answer := items (getPlaylist m (with_page (buildPlaylistRequest options rs 0) None None)) in
  getPlaylist m (buildPlaylistRequest options rs (inject_Z (Z.of_nat n))) =
  {| items := take 50 (drop n answer); total := Z.of_nat (length answer) |}.
Proof.
  cbn zeta. unfold getPlaylist.
  destruct (db m) as [d|]; [|cbn [items]; by rewrite drop_nil, take_nil].
  destruct (no_root m); [cbn [items]; by rewrite drop_nil, take_nil|].
  rewrite page_offset_nat. cbn [items].
  change (page_limit (with_page _ None None)) with (@None Z).
  change (page_limit (buildPlaylistRequest options rs (inject_Z (Z.of_nat n))))
    with (Some 50).
  rewrite baseSql_with_page.
  change (buildPlaylistQueryParts (buildPlaylistRequest options rs (inject_Z (Z.of_nat n))))
    with (buildPlaylistQueryParts (buildPlaylistRequest options rs 0)).
  change (orderBy (buildPlaylistQueryParts (with_page (buildPlaylistRequest options rs 0) None None)))
    with (orderBy (buildPlaylistQueryParts (buildPlaylistRequest options rs 0))).
  cbn [limit_offset]. change (truthy 50) with true. cbv iota.
  rewrite Nat2Z.id, length_fmap. f_equal.
  - rewrite fmap_take, fmap_drop. by change (Z.to_nat 50) with 50%nat.
  - by rewrite order_rows_length.
Qed.

Lemma answer_ids_distinct m o :
  (∀ d, db m = Some d → NoDup (f_id <$> files d)) →
  NoDup (i_id <$> items (getPlaylist m o)).
Proof.
  intros Hids. unfold getPlaylist. destruct (db m) as [d|]; [|constructor].
  destruct (no_root m); [constructor|]. cbn [items].
  rewrite <- list_fmap_compose.
  eapply sublist_NoDup; [|apply fmap_sublist, limit_offset_sublist].
  rewrite order_rows_Permutation. apply baseSql_ids_NoDup. by apply Hids.
Qed.

(** X24.  Paging shows the answer front to back.  On an unchanged
    catalog, after the first page and [k] calls of [loadMore] the renderer
    holds the first 50 * (k + 1) items of the whole answer of the query, in
    its order and without repeats; [total] is the length of the whole
    answer, and [hasMore] is off exactly when everything is shown. *)
Theorem paging_shows_answer_prefix m options rs st0 (k : nat) :
  (∀ d, db m = Some d → NoDup (f_id <$> files d)) →
  let answer := items (getPlaylist m (with_page (buildPlaylistRequest options rs 0) None None)) in
  let st := Nat.iter k (loadMore m options rs)
              (loadPlaylistPage m options rs st0 0 true) in
  pg_items st = take (50 * (k + 1)) answer ∧
  pg_total st = Z.of_nat (length answer) ∧
  pg_hasMore st = bool_decide (length (pg_items st) < length answer)%nat ∧
  (pg_hasMore st = false → pg_items st = answer).
Proof.
  intros Hids answer st.
  assert (Hnd : NoDup (i_id <$> answer)) by by apply answer_ids_distinct.
  assert (Hmain : pg_items st = take (50 * (k + 1)) answer ∧
                  pg_total st = Z.of_nat (length answer) ∧
                  pg_hasMore st = bool_decide (length (pg_items st) < length answer)%nat).
  { unfold st. clear st. induction k as [|k IH].
    - cbn [Nat.iter]. unfold loadPlaylistPage.
      pose proof (page_of_answer m options rs 0) as Hp. cbn zeta in Hp.
      change (inject_Z (Z.of_nat 0)) with 0%Q in Hp. rewrite Hp.
      fold answer. cbn [items total].
      rewrite drop_0, mergeUniqueById_distinct.
      + cbn [app pg_items pg_total pg_hasMore]. split_and!; [done..|].
        apply bool_decide_ext.
        change (Z.of_nat (length (take 50 answer)) < Z.of_nat (length answer) ↔
                (length (take 50 answer) < length answer)%nat). lia.
      + cbn [app]. eapply sublist_NoDup; [exact Hnd|]. apply fmap_sublist, sublist_take.
    - rewrite Nat.iter_succ. destruct IH as (Hitems & Htotal & Hmore).
      set (prev := Nat.iter k (loadMore m options rs) _) in *.
      unfold loadMore. rewrite Hmore. case_bool_decide as Hlt; cbn [negb].
      + unfold loadPlaylistPage. rewrite page_of_answer. fold answer. cbn [items total].
        assert (Hlen : length (pg_items prev) = (50 * (k + 1))%nat).
        { rewrite Hitems, length_take in Hlt |- *. lia. }
        rewrite Hlen. rewrite Hitems at 1.
        rewrite mergeUniqueById_distinct; rewrite take_take_drop.
        * cbn [pg_items pg_total pg_hasMore].
          replace (50 * (k + 1) + 50)%nat with (50 * (S k + 1))%nat by lia.
          split_and!; [done..|]. apply bool_decide_ext. lia.
        * eapply sublist_NoDup; [exact Hnd|]. apply fmap_sublist, sublist_take.
      + split_and!; [|done|by rewrite bool_decide_eq_false_2].
        rewrite Hitems, length_take in Hlt. rewrite Hitems.
        rewrite !take_ge; [done|lia..]. }
  destruct Hmain as (Hitems & Htotal & Hmore). split_and!; [done..|].
  rewrite Hmore. intros Hall%bool_decide_eq_false.
  rewrite Hitems, length_take in Hall. rewrite Hitems. apply take_ge. lia.
Qed.

Lemma paging_shows_answer_prefix_witness :
  pg_items (Nat.iter 1 (loadMore Sample.three (Sample.request SortFilename []) 7)
              (loadPlaylistPage Sample.three (Sample.request SortFilename []) 7
                 {| pg_items := []; pg_total := 0; pg_hasMore := false |} 0 true)) =
  take (50 * (1 + 1))
    (items (getPlaylist Sample.three
              (with_page (buildPlaylistRequest (Sample.request SortFilename []) 7 0) None None))).
Proof.
  destruct (paging_shows_answer_prefix Sample.three (Sample.request SortFilename []) 7
              {| pg_items := []; pg_total := 0; pg_hasMore := false |} 1) as (H & _).
  - intros d Hd. injection Hd as <-. apply (bool_decide_unpack _). vm_compute. exact I.
  - exact H.
Defined.

Lemma merge_loop_spec (seen : gset Z) merged l :
  NoDup (i_id <$> merged) → (∀ i, i ∈ seen ↔ i ∈ i_id <$> merged) →
  let r := merge_loop seen merged l in
  NoDup (i_id <$> r) ∧
  (∃ kept, r = (merged ++ kept)%list ∧ kept `sublist_of` l) ∧
  (∀ i, i ∈ i_id <$> r ↔ i ∈ i_id <$> (merged ++ l)%list).
Proof.
  revert seen merged. induction l as [|it l IH]; intros seen merged Hnd Hseen; cbn.
  { split_and!; [done|exists []; by rewrite app_nil_r|by rewrite app_nil_r]. }
  case_bool_decide as Hin.
  - destruct (IH seen merged Hnd Hseen) as (H1 & (kept & H2 & H3) & H4).
    split_and!; [done| |].
    + exists kept. split; [done|]. by apply sublist_cons.
    + intros i. rewrite H4, !fmap_app, !elem_of_app, fmap_cons, elem_of_cons.
      split; [tauto|]. intros [?|[->|?]]; [tauto| |tauto]. left. by apply Hseen.
  - destruct (IH ({[i_id it]} ∪ seen) (merged ++ [it])%list) as (H1 & (kept & H2 & H3) & H4).
    + rewrite fmap_app. apply NoDup_app. split_and!; [done| |apply NoDup_singleton].
      intros i Hi ->%list_elem_of_singleton. by apply Hin, Hseen.
    + intros i. rewrite elem_of_union, elem_of_singleton, fmap_app, elem_of_app, Hseen.
      cbn. rewrite list_elem_of_singleton. tauto.
    + split_and!; [done| |].
      * exists (it :: kept). split; [by rewrite H2, <- app_assoc|]. by apply sublist_skip.
      * intros i. rewrite H4. by rewrite <- app_assoc.
Qed.

Lemma merge_loop_prefix (l : list FileItem) (seen : gset Z) merged rest :
  (∀ it, it ∈ l → i_id it ∉ seen) → NoDup (i_id <$> l) →
  merge_loop seen merged (l ++ rest) =
  merge_loop (list_to_set (i_id <$> l) ∪ seen) (merged ++ l) rest.
Proof.
  revert seen merged. induction l as [|it l IH]; intros seen merged Hnew Hndl.
  - cbn. rewrite app_nil_r. f_equal. set_solver.
  - cbn. rewrite bool_decide_eq_false_2 by (apply Hnew; left).
    rewrite fmap_cons in Hndl. apply NoDup_cons in Hndl as [Hit Hndl].
    rewrite IH; [|  |done].
    + rewrite <- app_assoc. cbn. f_equal. set_solver.
    + intros it' Hin. rewrite elem_of_union, elem_of_singleton. intros [Heq|Hs].
      * apply Hit. rewrite <- Heq. by apply list_elem_of_fmap_2.
      * apply (Hnew it'); [by right|done].
Qed.

(** X25.  [mergeUniqueById] returns no id twice.  The result is the
    first list followed by the incoming items with the items of known ids
    taken out, the first item of each id being the one kept (when the first
    list has no repeats); the ids of the result are those of both lists; and
    when no id repeats at all the result is the concatenation. *)
Theorem mergeUniqueById_spec existing incoming :
  let r := mergeUniqueById existing incoming in
  NoDup (i_id <$> r) ∧
  r `sublist_of` (existing ++ incoming)%list ∧
  (∀ i, i ∈ i_id <$> r ↔ i ∈ i_id <$> (existing ++ incoming)%list) ∧
  (NoDup (i_id <$> existing) →
     ∃ kept, r = (existing ++ kept)%list ∧ kept `sublist_of` incoming) ∧
  (NoDup (i_id <$> (existing ++ incoming)%list) → r = (existing ++ incoming)%list).
Proof.
  cbn zeta. unfold mergeUniqueById.
  destruct (merge_loop_spec ∅ [] (existing ++ incoming)) as (H1 & (kept & H2 & H3) & H4).
  { constructor. }
  { intros i. cbn. rewrite elem_of_nil. set_solver. }
  cbn zeta in *. split_and!; [done|by rewrite H2|done| |].
  - intros Hnd. rewrite merge_loop_prefix by (done || intros; apply not_elem_of_empty).
    cbn [app].
    destruct (merge_loop_spec (list_to_set (i_id <$> existing) ∪ ∅) existing incoming)
      as (_ & Hk & _); [done| |exact Hk].
    intros i. rewrite elem_of_union, elem_of_list_to_set. set_solver.
  - intros Hnd. by apply mergeUniqueById_distinct.
Qed.

End Pages.

(** * Looking for the database of an opened file *)

Section FindRoot.

Variable has_db : string → bool.
Variable dirname : string → string.

Lemma find_up_spec (steps : nat) (start r : string) :
  find_up has_db dirname steps start = Some r ↔
  ∃ k : nat, (k ≤ steps)%nat ∧ r = Nat.iter k dirname start ∧ has_db r = true ∧
             ∀ j : nat, (j < k)%nat → has_db (Nat.iter j dirname start) = false.
Proof.
  revert start. induction steps as [|steps IH]; intros start; cbn [find_up].
  - destruct (has_db start) eqn:Hs.
    + split.
      * intros [= <-]. exists 0%nat. split_and!; [done..|]. intros j Hj. lia.
      * intros (k & Hk & -> & Hr & Hbefore). by replace k with 0%nat by lia.
    + split; [done|]. intros (k & Hk & -> & Hr & _).
      replace k with 0%nat in Hr by lia. cbn in Hr. congruence.
  - destruct (has_db start) eqn:Hs.
    + split.
      * intros [= <-]. exists 0%nat. split_and!; [lia|done..|]. intros j Hj. lia.
      * intros (k & Hk & -> & Hr & Hbefore). destruct k as [|k]; [done|].
        specialize (Hbefore 0%nat ltac:(lia)). cbn in Hbefore. congruence.
    + case_bool_decide as Hfix.
      * split; [done|]. intros (k & Hk & -> & Hr & _).
        assert (Hstay : ∀ n, Nat.iter n dirname start = start).
        { induction n as [|n IHn]; [done|]. rewrite Nat.iter_succ, IHn. done. }
        rewrite Hstay in Hr. congruence.
      * rewrite IH. split.
        -- intros (k & Hk & -> & Hr & Hbefore). exists (S k).
           rewrite Nat.iter_succ_r. split_and!; [lia|done|done|].
           intros [|j] Hj; [done|]. rewrite Nat.iter_succ_r. apply Hbefore. lia.
        -- intros (k & Hk & -> & Hr & Hbefore). destruct k as [|k].
           { cbn in Hr. congruence. }
           exists k. rewrite Nat.iter_succ_r in Hr |- *. split_and!; [lia|done..|].
           intros j Hj. specialize (Hbefore (S j) ltac:(lia)).
           by rewrite Nat.iter_succ_r in Hbefore.
Qed.

(** X26.  [findDbRootUpwards] returns the nearest directory that holds
    the database file among the start directory and its ancestors up to
    [levels] steps above it, and null when there is none (or when [levels]
    is negative): it returns [r] exactly when [r] is the [k]-th ancestor for
    some [k] from 0 to [levels], [r] holds the file and no ancestor below
    [r] does. *)
Theorem findDbRootUpwards_nearest (start : string) (levels : Z) (r : string) :
  findDbRootUpwards has_db dirname start levels = Some r ↔
  ∃ k : nat, Z.of_nat k ≤ levels ∧ r = Nat.iter k dirname start ∧ has_db r = true ∧
             ∀ j : nat, (j < k)%nat → has_db (Nat.iter j dirname start) = false.
Proof.
  unfold findDbRootUpwards. destruct (Z.ltb_spec levels 0) as [Hneg|Hpos].
  - split; [done|]. intros (k & Hk & _). lia.
  - rewrite find_up_spec. split; intros (k & Hk & Hrest); exists k; (split; [lia|done]).
Qed.

End FindRoot.

(** * Paths of the walk *)

Section Paths.

Lemma DirEntry_nested_ind (P : DirEntry → Prop) :
  (∀ nm entries, Forall P entries → P (EntryDir nm (Some entries))) →
  (∀ nm, P (EntryDir nm None)) →
  (∀ nm st, P (EntryFile nm st)) →
  (∀ nm, P (EntryOther nm)) →
  ∀ e, P e.
Proof.
  intros Hdir Hnone Hfile Hother. fix IH 1. intros [nm [entries|]|nm st|nm]; [|auto..].
  apply Hdir. induction entries as [|e entries IHentries]; constructor; [apply IH|apply IHentries].
Qed.

Lemma append_cons (c : ascii) (s t : string) : String c s ++ t = String c (s ++ t).
Proof. reflexivity. Qed.

Lemma append_nil_l (t : string) : "" ++ t = t.
Proof. reflexivity. Qed.

Lemma append_assoc (a b c : string) : (a ++ b) ++ c = a ++ (b ++ c).
Proof.
  induction a as [|x a IH]; [by rewrite !append_nil_l|].
  by rewrite !append_cons, IH.
Qed.

Lemma slash_in_append (n rest : string) :
  "/"%char ∈ list_ascii_of_string (n ++ "/" ++ rest).
Proof.
  induction n as [|c n IH].
  - rewrite append_nil_l. change ("/" ++ rest) with (String "/" rest). cbn. left.
  - rewrite append_cons. cbn. by right.
Qed.

Lemma first_segment (n n' r r' : string) :
  ¬ "/"%char ∈ list_ascii_of_string n → ¬ "/"%char ∈ list_ascii_of_string n' →
  n ++ "/" ++ r = n' ++ "/" ++ r' → n = n'.
Proof.
  revert n'. induction n as [|c n IH]; intros [|c' n'] Hn Hn'; try done.
  - rewrite append_nil_l, append_cons. change ("/" ++ r) with (String "/" r).
    intros [= <- _]. destruct Hn'. cbn. left.
  - rewrite append_nil_l, append_cons. change ("/" ++ r') with (String "/" r').
    intros [= -> _]. destruct Hn. cbn. left.
  - rewrite !append_cons. intros [= -> Heq]. f_equal. apply IH; [| |done].
    + intros H. apply Hn. cbn. by right.
    + intros H. apply Hn'. cbn. by right.
Qed.

Lemma is_segment_spec (nm : string) :
  is_segment nm = true ↔ nm ≠ "" ∧ ¬ "/"%char ∈ list_ascii_of_string nm.
Proof.
  unfold is_segment. rewrite andb_true_iff, !negb_true_iff, !bool_decide_eq_false. done.
Qed.

(** Two relative paths headed by different entry names differ. *)
Lemma headed_same (n n' s : string) :
  is_segment n = true → is_segment n' = true → headed n s → headed n' s → n = n'.
Proof.
  intros [_ Hn]%is_segment_spec [_ Hn']%is_segment_spec [->|[r ->]] [Heq|[r' Heq]].
  - done.
  - destruct Hn. rewrite Heq. apply slash_in_append.
  - destruct Hn'. rewrite <- Heq. apply slash_in_append.
  - by eapply first_segment.
Qed.

Lemma join_path_inj (current a b : string) :
  join_path current a = join_path current b → a = b.
Proof.
  unfold join_path. case_bool_decide; [done|].
  intros Heq. by do 2 apply String.app_inj in Heq.
Qed.

Lemma join_path_nested (current d x : string) :
  d ≠ "" → join_path (join_path current d) x = join_path current (d ++ "/" ++ x).
Proof.
  intros Hd. unfold join_path. destruct (decide (current = "")) as [->|Hc].
  - rewrite (bool_decide_eq_true_2 ("" = "")) by done.
    by rewrite bool_decide_eq_false_2.
  - rewrite (bool_decide_eq_false_2 (current = "")) by done.
    rewrite bool_decide_eq_false_2.
    + by rewrite !append_assoc.
    + destruct current; [done|]. by rewrite append_cons.
Qed.

Lemma video_files_cons current e entries :
  video_files current (e :: entries) =
  (video_files current [e] ++ video_files current entries)%list.
Proof. unfold video_files. cbn [flat_map]. by rewrite app_nil_r. Qed.

(** What the walk reports of one entry of a listing: the entry itself when
    it is a video file, and the files below it when it is a directory. *)
Lemma walk_listing_cons current e entries :
  walk_listing current (Some (e :: entries)) ≡ₚ
  ((video_files current [e] ++ walk_entry current e) ++
   walk_listing current (Some entries))%list.
Proof.
  unfold walk_listing. cbn [List.map rev]. rewrite concat_app. cbn [concat].
  rewrite app_nil_r.
  rewrite video_files_cons, <- !app_assoc. f_equiv.
  rewrite (app_assoc (video_files current entries)).
  by rewrite (Permutation_app_comm _ (walk_entry current e)).
Qed.

Lemma names_ok_cons e entries :
  names_ok (e :: entries) = true →
  ¬ entry_name e ∈ entry_name <$> entries ∧ is_segment (entry_name e) = true ∧
  names_ok entries = true.
Proof.
  unfold names_ok. cbn [forallb]. rewrite !andb_true_iff, !bool_decide_eq_true.
  rewrite fmap_cons, NoDup_cons. tauto.
Qed.

Lemma names_ok_segment entries n :
  names_ok entries = true → n ∈ entry_name <$> entries → is_segment n = true.
Proof.
  unfold names_ok. rewrite andb_true_iff, forallb_forall.
  intros [_ Hall] (e & -> & He)%list_elem_of_fmap. apply Hall. by apply list_elem_of_In.
Qed.

(** The paths reported below a well-formed listing are distinct, and each
    goes through an entry of the listing. *)
Lemma walk_listing_paths entries :
  Forall (fun e => ∀ current,
            entry_ok e = true → is_segment (entry_name e) = true →
            NoDup (relativePath <$> walk_entry current e) ∧
            ∀ file, file ∈ walk_entry current e →
                    ∃ rest, relativePath file =
                            join_path current (entry_name e ++ "/" ++ rest)) entries →
  ∀ current,
    names_ok entries = true → forallb entry_ok entries = true →
    NoDup (relativePath <$> walk_listing current (Some entries)) ∧
    ∀ file, file ∈ walk_listing current (Some entries) →
            ∃ n x, n ∈ entry_name <$> entries ∧ headed n x ∧
                   relativePath file = join_path current x.
Proof.
  induction 1 as [|e entries He _ IH]; intros current Hnames Hok.
  { split; [constructor|]. intros file Hfile. by apply elem_of_nil in Hfile. }
  apply names_ok_cons in Hnames as (Hfresh & Hseg & Hnames).
  cbn [forallb] in Hok. apply andb_true_iff in Hok as [Hoke Hok].
  destruct (IH current Hnames Hok) as [IHnd IHin].
  destruct (He current Hoke Hseg) as [Hend Hein].
  (* the files of the first entry *)
  assert (Hown : NoDup (relativePath <$> (video_files current [e] ++ walk_entry current e)%list) ∧
                 ∀ file, file ∈ (video_files current [e] ++ walk_entry current e)%list →
                         ∃ x, headed (entry_name e) x ∧
                              relativePath file = join_path current x).
  { destruct e as [nm [sub|]|nm [st|]|nm]; cbn [video_files flat_map app];
      try (split; [constructor|intros file Hfile; by apply elem_of_nil in Hfile]).
    - split; [exact Hend|]. intros file Hfile.
      destruct (Hein file Hfile) as [rest Hrest].
      exists (nm ++ "/" ++ rest). split; [right; by exists rest|done].
    - case_bool_decide; [split; [constructor|intros file Hfile; by apply elem_of_nil in Hfile]|].
      destruct (isVideoFile nm);
        [|split; [constructor|intros file Hfile; by apply elem_of_nil in Hfile]].
      cbn [app walk_entry]. split; [apply NoDup_singleton|].
      intros file ->%list_elem_of_singleton. exists nm. split; [by left|done]. }
  destruct Hown as [Hownnd Hownin].
  split.
  - rewrite walk_listing_cons, fmap_app. apply NoDup_app. split_and!; [done| |done].
    intros p (f1 & -> & Hf1)%list_elem_of_fmap (f2 & Heq & Hf2)%list_elem_of_fmap.
    destruct (Hownin f1 Hf1) as (x1 & Hh1 & Hp1).
    destruct (IHin f2 Hf2) as (n & x2 & Hn & Hh2 & Hp2).
    rewrite Hp1, Hp2 in Heq. apply join_path_inj in Heq as ->.
    apply Hfresh. rewrite (headed_same (entry_name e) n x2); [done..| |done|done].
    by eapply names_ok_segment.
  - intros file. rewrite walk_listing_cons, elem_of_app. intros [Hfile|Hfile].
    + destruct (Hownin file Hfile) as (x & Hh & Hp).
      exists (entry_name e), x. split_and!; [rewrite fmap_cons; left|done|done].
    + destruct (IHin file Hfile) as (n & x & Hn & Hh & Hp).
      exists n, x. split_and!; [rewrite fmap_cons; by right|done|done].
Qed.

Lemma walk_entry_paths e current :
  entry_ok e = true → is_segment (entry_name e) = true →
  NoDup (relativePath <$> walk_entry current e) ∧
  ∀ file, file ∈ walk_entry current e →
          ∃ rest, relativePath file = join_path current (entry_name e ++ "/" ++ rest).
Proof.
  revert current. induction e as [nm entries IH|nm|nm st|nm] using DirEntry_nested_ind;
    intros current Hok Hseg;
    try (split; [constructor|intros file Hfile; by apply elem_of_nil in Hfile]).
  cbn [walk_entry]. case_bool_decide;
    [split; [constructor|intros file Hfile; by apply elem_of_nil in Hfile]|].
  cbn [entry_ok] in Hok. apply andb_true_iff in Hok as [Hnames Hok].
  destruct (walk_listing_paths entries IH (join_path current nm) Hnames Hok) as [Hnd Hin].
  split; [exact Hnd|]. intros file Hfile.
  destruct (Hin file Hfile) as (n & x & _ & _ & Hp). exists x. rewrite Hp.
  apply join_path_nested. by apply is_segment_spec in Hseg as [? _].
Qed.

Lemma collectFiles_is_walk tree found :
  collectFiles tree = Normal found → found = walk_listing "" tree.
Proof.
  intros Hfound. pose proof (collectFiles_spec tree) as Hspec.
  destruct (listing_fails tree) eqn:Hfails; [congruence|].
  unfold collectFiles in Hfound. rewrite collect_loop_walk in Hfound.
  - cbn in Hfound. rewrite app_nil_r in Hfound. congruence.
  - unfold stack_count. cbn. lia.
  - cbn. by rewrite Hfails.
Qed.

(** X27.  On a tree as a file system gives it (in every listing the names
    are not empty, hold no separator and differ from one another), no
    relative path is reported twice by [collectFiles]. *)
Theorem collectFiles_paths_distinct tree found :
  listing_ok tree = true →
  collectFiles tree = Normal found →
  NoDup (relativePath <$> found).
Proof.
  intros Hok Hfound. rewrite (collectFiles_is_walk tree found Hfound).
  destruct tree as [entries|]; [|constructor].
  cbn [listing_ok] in Hok. apply andb_true_iff in Hok as [Hnames Hok].
  apply walk_listing_paths; [|done..].
  apply Forall_forall. intros e _ current. apply walk_entry_paths.
Qed.

Lemma collectFiles_paths_distinct_witness :
  NoDup (relativePath <$> Sample.walk Sample.tree).
Proof.
  apply (collectFiles_paths_distinct Sample.tree (Sample.walk Sample.tree)); reflexivity.
Defined.

End Paths.

(** * Mutations seen through a filter or another order *)

Section Views.

Implicit Types (d : DB) (m : LibraryManager) (f : FileRow) (g : GroupRow).

Lemma baseSql_save_order d pl index ids q :
  baseSql (save_order_from pl index ids d) pl q =
  on_index (save_order_from pl index ids d) pl <$> baseSql d pl q.
Proof.
  unfold baseSql. set (d' := save_order_from pl index ids d).
  assert (Hfiles : files d' = files d) by (unfold d'; by rewrite save_order_from_rows).
  rewrite Hfiles. set (rows := filter _ (files d)).
  transitivity (filter (fun g => having_clause q g)
                  (on_index d' pl <$> (group_of d pl <$> rows))).
  - f_equal. rewrite <- list_fmap_compose. apply list_fmap_ext. intros _ f _.
    unfold group_of, on_index; cbn. f_equal.
    apply joined_names_same_tags; unfold d'; by rewrite save_order_from_rows.
  - rewrite (filter_fmap_list (on_index d' pl) (fun g => having_clause q g)).
    f_equal.
Qed.

(** X28.  [saveOrder] is invisible in the other sort modes.  For a request
    sorted by file name, by creation time or at random, the response after
    [saveOrder] lists the same files in the same places with the same
    total; only the [orderIndex] carried by the items can differ. *)
Theorem saveOrder_other_sorts m ids o :
  sort o ≠ SortPlaylist →
  without_index <$> items (getPlaylist (saveOrder m ids) o) =
    without_index <$> items (getPlaylist m o) ∧
  total (getPlaylist (saveOrder m ids) o) = total (getPlaylist m o).
Proof.
  intros Hsort. unfold saveOrder. destruct (db m) as [d|] eqn:Hdb; [|done].
  unfold getPlaylist. rewrite Hdb. cbn [db with_db].
  change (no_root (with_db m _)) with (no_root m).
  destruct (no_root m); [done|]. cbn [libraryPlaylistId with_db items total].
  rewrite baseSql_save_order, length_fmap. split; [|done].
  rewrite order_rows_fmap, limit_offset_fmap, <- !list_fmap_compose.
  - apply list_fmap_ext. intros _ g _. done.
  - intros a b. unfold buildPlaylistQueryParts; cbn [orderBy]. unfold buildOrderBy.
    by destruct (sort o).
Qed.

Lemma saveOrder_other_sorts_witness :
  without_index <$> items (getPlaylist (saveOrder Sample.three [3; 1; 2])
                             (Sample.request SortFilename [])) =
    without_index <$> items (getPlaylist Sample.three (Sample.request SortFilename [])) ∧
  total (getPlaylist (saveOrder Sample.three [3; 1; 2]) (Sample.request SortFilename [])) =
    total (getPlaylist Sample.three (Sample.request SortFilename [])).
Proof.
  apply (saveOrder_other_sorts Sample.three [3; 1; 2] (Sample.request SortFilename [])).
  discriminate.
Defined.

(** X29.  Rating a file in or out of a rating filter.  Under a request
    with a positive [ratingMin], no required tag and no page limit, a file
    that is not flagged missing is listed after [setRating] exactly when the
    new rating is at least [ratingMin]. *)
Theorem setRating_then_rating_filter m d o f (rating : number) :
  db m = Some d → no_root m = false →
  NoDup (f_id <$> files d) →
  f ∈ files d → f_is_missing f = false →
  page_limit o = None → req_tags o = [] → (0 < ratingMin o)%Q →
  f_id f ∈ i_id <$> items (getPlaylist (setRating m (f_id f) rating) o) ↔
  (ratingMin o <= rating)%Q.
Proof.
  intros Hdb Hroot Hnd Hf Hmiss Hlim Htags Hmin.
  unfold setRating. rewrite Hdb.
  set (d' := update_files_where_id (f_id f) (with_rating rating) d).
  rewrite (getPlaylist_ids_spec (with_db m d') d' o (f_id f) eq_refl Hroot Hlim).
  assert (Hhaving : ∀ g, having_clause (buildPlaylistQueryParts o) g = true).
  { intros g. unfold having_clause, buildPlaylistQueryParts; cbn. by rewrite Htags. }
  assert (Hnot0 : ¬ (ratingMin o <= 0)%Q) by (apply Qlt_not_le, Hmin).
  split.
  - intros (f' & Hf' & Hid & Hw & _). apply Is_true_true, where_clause_spec in Hw.
    destruct Hw as [_ [?|Hw]]; [done|].
    apply elem_of_update_files in Hf' as (f0 & Hf0 & ->).
    assert (f0 = f) as ->.
    { apply (NoDup_fmap_inj f_id (files d)); [done..|]. rewrite <- Hid.
      by destruct (bool_decide (f_id f0 = f_id f)). }
    by rewrite bool_decide_eq_true_2 in Hw.
  - intros Hle. exists (with_rating rating f). split_and!.
    + apply elem_of_update_files. exists f. split; [done|].
      by rewrite bool_decide_eq_true_2.
    + done.
    + apply Is_true_true, where_clause_spec. cbn. split; [done|by right].
    + rewrite Hhaving. done.
Qed.

Lemma setRating_then_rating_filter_witness :
  2 ∈ i_id <$> items (getPlaylist (setRating Sample.tagged 2 4)
        {| sort := SortPlaylist; ratingMin := 3; req_tags := [];
           limit := None; offset := None; seed := None |}) ↔
  (3 <= 4)%Q.
Proof.
  apply (setRating_then_rating_filter Sample.tagged Sample.tagged_db
           {| sort := SortPlaylist; ratingMin := 3; req_tags := [];
              limit := None; offset := None; seed := None |}
           (Sample.file 2 "two.mp4" false) 4).
  - reflexivity.
  - reflexivity.
  - apply (bool_decide_unpack _). vm_compute. exact I.
  - apply list_elem_of_further, list_elem_of_here.
  - reflexivity.
  - reflexivity.
  - reflexivity.
  - reflexivity.
Defined.

(** A settings patch of two flags and a sort mode, written and read back. *)
Lemma flags_survive_the_store_witness :
  parseBoolean (getSetting Sample.tagged
                  (setSetting Sample.tagged [] "ui.muted" (Some "1")) "ui.muted") false = true ∧
  parseSortMode (getSetting Sample.tagged
                   (setSetting Sample.tagged [] "ui.muted" (Some "created")) "ui.muted")
    = SortCreated ∧
  parseSortMode (Some "Random") = SortPlaylist.
Proof.
  destruct (flags_survive_the_store Sample.tagged [] "ui.muted" true false SortCreated)
    as (H1 & H2 & H3).
  split_and!; [exact H1|exact H2|].
  apply H3. intros s'. by destruct s'.
Defined.

Lemma mergeUniqueById_spec_witness :
  mergeUniqueById (items (getPlaylist Sample.three (Sample.page SortPlaylist None 0 2)))
                  (items (getPlaylist Sample.three (Sample.page SortPlaylist None 2 2))) =
  (items (getPlaylist Sample.three (Sample.page SortPlaylist None 0 2)) ++
   items (getPlaylist Sample.three (Sample.page SortPlaylist None 2 2)))%list.
Proof.
  destruct (mergeUniqueById_spec
              (items (getPlaylist Sample.three (Sample.page SortPlaylist None 0 2)))
              (items (getPlaylist Sample.three (Sample.page SortPlaylist None 2 2))))
    as (_ & _ & _ & _ & H).
  apply H. apply (bool_decide_unpack _). vm_compute. exact I.
Defined.

End Views.
